(** * cy-utils: a shallow embedding of [src/other/index.ts] and its
    properties

    The development follows the source file function by function:
    [debounce], [throttle], [getUuid], [deepClone], [arrayToTree],
    [formatBytes] and [getSelectedItems].

    - JavaScript numbers are IEEE 754 binary64 values ([PrimFloat.float]).
    - Strings are [String.string]; the host's number-to-string conversions
      ([Number::toString], [Number.prototype.toFixed]) are written out in
      module [Host] after ECMA-262, with exact rational arithmetic.
    - Objects live in a heap of arrays, plain objects and functions; a
      JavaScript value is a primitive, a reference into that heap or a
      built-in of [Object.prototype], so aliasing, mutation and inherited
      properties are visible.
    - Code that can throw, or exhaust the call stack, returns a [res].
    - Timers run on a discrete clock; [Math.random] is the sequence of
      the numbers it returns. *)

From Stdlib Require Import ZArith QArith Qround Qpower Floats String Ascii DecimalString Lia.
From Stdlib Require HexadecimalString.
From stdpp Require Import base tactics option list strings.

Set Default Proof Using "Type".
Set Warnings "-register-all".

(** ** Completions *)

(** The exceptions the modelled code can raise. [Error msg] is
    [new Error(msg)]; [TypeError] and [RangeError] are raised by the host. *)
Inductive error : Type :=
  | TypeError
  | RangeError
  | Error (msg : string).

(** How a call ends: normally with a value, by throwing, or by exhausting
    the call stack ([Overflow], the model's counterpart of running out of
    recursion depth).  [Stuck] marks host behaviour outside the modelled
    fragment (a dangling reference, a dynamic property access on an exotic
    object). *)
Inductive res (A : Type) : Type :=
  | Ok (a : A)
  | Throw (e : error)
  | Overflow
  | Stuck.
Arguments Ok {A} a.
Arguments Throw {A} e.
Arguments Overflow {A}.
Arguments Stuck {A}.

(** ** Host: numbers and strings (ECMA-262) *)

Module Host.

Definition number : Set := float.

(** The exact value of the finite float [m * 2^e]. *)
Definition Qpow (b : Z) (n : Z) : Q := Qpower (inject_Z b) n.
Definition float_value (m : positive) (e : Z) : Q :=
  (inject_Z (Z.pos m) * Qpow 2 e)%Q.

Definition Qltb (x y : Q) : bool :=
  match (x ?= y)%Q with Lt => true | _ => false end.
Definition Qleb (x y : Q) : bool :=
  match (x ?= y)%Q with Gt => false | _ => true end.
Definition Qabs_diff (x y : Q) : Q :=
  if Qleb x y then (y - x)%Q else (x - y)%Q.

(** [rounds_to m e r]: the real [r] is mapped to the binary64 value
    [m * 2^e] by round-to-nearest, ties-to-even.  [m], [e] are the
    canonical mantissa and exponent ([Prim2SF]). *)
Definition rounds_to (m : positive) (e : Z) (r : Q) : bool :=
  let mz := Z.pos m in
  let hi := (inject_Z (2 * mz + 1) * Qpow 2 (e - 1))%Q in
  let lo :=
    if ((mz =? 2 ^ 52) && (-1074 <? e))%Z
    then (inject_Z (4 * mz - 1) * Qpow 2 (e - 2))%Q
    else (inject_Z (2 * mz - 1) * Qpow 2 (e - 1))%Q in
  if Z.even mz then Qleb lo r && Qleb r hi else Qltb lo r && Qltb r hi.

(** The [n] with [10^(n-1) <= x < 10^n], for [0 < x]. *)
Fixpoint decade_up (fuel : nat) (x : Q) (n : Z) : Z :=
  match fuel with
  | O => n
  | S fuel' => if Qltb x (Qpow 10 n) then n else decade_up fuel' x (n + 1)
  end.
Fixpoint decade_down (fuel : nat) (x : Q) (n : Z) : Z :=
  match fuel with
  | O => n
  | S fuel' => if Qleb (Qpow 10 (n - 1)) x then n else decade_down fuel' x (n - 1)
  end.
Definition decade (x : Q) : Z :=
  if Qleb 1 x then decade_up 400 x 1 else decade_down 400 x 0.

(** The decimal digits of a natural number. *)
Definition digits (n : Z) : string := NilZero.string_of_uint (N.to_uint (Z.to_N n)).

Fixpoint zeros (n : nat) : string :=
  match n with O => EmptyString | S n' => String "0" (zeros n') end.

(** Candidates [(n, s)] with [k] digits: [s * 10^(n-k)] rounds to the float. *)
Definition candidates (m : positive) (e : Z) (n0 k : Z) : list (Z * Z) :=
  let x := float_value m e in
  let at_decade (n : Z) : list (Z * Z) :=
    let s := Qfloor (x / Qpow 10 (n - k)) in
    List.filter
      (fun c : Z * Z =>
         let s := snd c in
         (10 ^ (k - 1) <=? s)%Z && (s <? 10 ^ k)%Z
         && rounds_to m e (inject_Z s * Qpow 10 (n - k))%Q)
      [(n, s); (n, s + 1)%Z] in
  at_decade n0 ++ at_decade (n0 + 1)%Z.

(** Of two candidates the closer to [x] wins; on a tie, the even [s]. *)
Definition closer (x : Q) (k : Z) (c d : Z * Z) : Z * Z :=
  let dist (c : Z * Z) := Qabs_diff (inject_Z (snd c) * Qpow 10 (fst c - k))%Q x in
  match (dist c ?= dist d)%Q with
  | Lt => c
  | Gt => d
  | Eq => if Z.even (snd c) then c else d
  end.

Definition best (x : Q) (k : Z) (cs : list (Z * Z)) : option (Z * Z) :=
  match cs with
  | [] => None
  | c :: cs' => Some (fold_left (closer x k) cs' c)
  end.

(** The shortest digit string [s] (with [k] digits, [k] as small as
    possible) and exponent [n] of Number::toString, steps 5 of ECMA-262
    6.1.6.1.20. *)
Fixpoint shortest (fuel : nat) (m : positive) (e : Z) (n0 k : Z) : Z * Z * Z :=
  match fuel with
  | O => (n0, k, Qfloor (float_value m e / Qpow 10 (n0 - k)))
  | S fuel' =>
      match best (float_value m e) k (candidates m e n0 k) with
      | Some (n, s) => (n, k, s)
      | None => shortest fuel' m e n0 (k + 1)
      end
  end.

Definition exponent_part (n : Z) : string :=
  let e := (n - 1)%Z in
  String "e" (String (if (0 <=? e)%Z then "+" else "-")%char (digits (Z.abs e))).

(** Number::toString for a finite positive float. *)
Definition positive_toString (m : positive) (e : Z) : string :=
  let '(n, k, s) := shortest 17 m e (decade (float_value m e)) 1 in
  let ds := digits s in
  if ((k <=? n) && (n <=? 21))%Z then
    ds +:+ zeros (Z.to_nat (n - k))
  else if ((0 <? n) && (n <=? 21))%Z then
    substring 0 (Z.to_nat n) ds +:+ "." +:+ substring (Z.to_nat n) (Z.to_nat (k - n)) ds
  else if ((-6 <? n) && (n <=? 0))%Z then
    "0." +:+ zeros (Z.to_nat (- n)) +:+ ds
  else if (k =? 1)%Z then
    ds +:+ exponent_part n
  else
    substring 0 1 ds +:+ "." +:+ substring 1 (Z.to_nat (k - 1)) ds +:+ exponent_part n.

(** [Number::toString(x)] in radix 10: what a template literal or string
    concatenation renders for a number. *)
Definition Number_toString (x : number) : string :=
  match Prim2SF x with
  | S754_nan => "NaN"
  | S754_zero _ => "0"
  | S754_infinity false => "Infinity"
  | S754_infinity true => "-Infinity"
  | S754_finite false m e => positive_toString m e
  | S754_finite true m e => "-" +:+ positive_toString m e
  end.

(** [ToIntegerOrInfinity]: [None] stands for an infinity. *)
Definition ToIntegerOrInfinity (x : number) : option Z :=
  match Prim2SF x with
  | S754_nan | S754_zero _ => Some 0%Z
  | S754_infinity _ => None
  | S754_finite s m e =>
      let t := Qfloor (float_value m e) in
      Some (if s then (- t)%Z else t)
  end.

(** [Number.isInteger]. *)
Definition isInteger (x : number) : bool :=
  match Prim2SF x with
  | S754_nan | S754_infinity _ => false
  | S754_zero _ => true
  | S754_finite _ m e => Qeq_bool (inject_Z (Qfloor (float_value m e))) (float_value m e)
  end.

(** The digits of [Number.prototype.toFixed] for [0 <= x < 10^21]: the
    integer [n] nearest to [x * 10^f] (the larger one on a tie), written
    with at least [f + 1] digits and a point before the last [f]. *)
Definition fixed_digits (x : Q) (f : Z) : string :=
  let n := Qfloor (x * Qpow 10 f + (1 # 2))%Q in
  let m := digits n in
  if (f =? 0)%Z then m
  else
    let k := Z.of_nat (String.length m) in
    let m := if (k <=? f)%Z then zeros (Z.to_nat (f + 1 - k)) +:+ m else m in
    let k := String.length m in
    substring 0 (k - Z.to_nat f) m +:+ "." +:+ substring (k - Z.to_nat f) (Z.to_nat f) m.

(** [Number.prototype.toFixed(fractionDigits)]. *)
Definition toFixed (x : number) (fractionDigits : number) : res string :=
  match ToIntegerOrInfinity fractionDigits with
  | None => Throw RangeError
  | Some f =>
      if ((f <? 0) || (100 <? f))%Z then Throw RangeError
      else
        match Prim2SF x with
        | S754_finite s m e =>
            if Qleb (Qpow 10 21) (float_value m e) then Ok (Number_toString x)
            else Ok ((if s then "-" else "") +:+ fixed_digits (float_value m e) f)
        | S754_zero _ => Ok (fixed_digits 0 f)
        | _ => Ok (Number_toString x)
        end
  end.

(** [ToLength], as [String.prototype.padEnd] applies it to its first
    argument. *)
Definition ToLength (x : number) : Z :=
  match ToIntegerOrInfinity x with
  | None => if (x <? 0)%float then 0 else 2 ^ 53 - 1
  | Some n => Z.min (Z.max n 0) (2 ^ 53 - 1)
  end.

(** [''.padEnd(maxLength, '0')]: the empty string padded with zeros. *)
Definition padEnd_zeros (maxLength : number) : string :=
  zeros (Z.to_nat (ToLength maxLength)).

(** [s.endsWith(suffix)]. *)
Definition endsWith (s suffix : string) : bool :=
  let n := String.length s in
  let k := String.length suffix in
  (k <=? n)%nat && String.eqb (substring (n - k) k s) suffix.

(** [s.split('.')[0]]: the part of [s] before its first point. *)
Fixpoint before_point (s : string) : string :=
  match s with
  | EmptyString => EmptyString
  | String c s' => if Ascii.eqb c "." then EmptyString else String c (before_point s')
  end.

(** Truthiness of a number: false for [0], [-0] and [NaN]. *)
Definition number_truthy (x : number) : bool :=
  negb (x =? 0)%float && (x =? x)%float.

End Host.

(** ** [formatBytes] *)

Definition units : list string :=
  ["B"; "KB"; "MB"; "GB"; "TB"; "PB"; "EB"; "ZB"; "YB"]%string.

Definition k : Host.number := 1024%float.

(** The [while (bytes >= k && i < units.length - 1)] loop.  [room] is
    [units.length - 1 - i], the number of larger units left. *)
Fixpoint scale (room : nat) (bytes : Host.number) (i : nat) : Host.number * nat :=
  match room with
  | O => (bytes, i)
  | S room' =>
      if (k <=? bytes)%float then scale room' (bytes / k)%float (S i)
      else (bytes, i)
  end.

Definition unit_at (i : nat) : string := nth i units ""%string.

(** [formatBytes(bytes, decimal = 2)]; [None] is an omitted argument. *)
Definition formatBytes (bytes : Host.number) (decimal : option Host.number) : res string :=
  let decimal := default 2%float decimal in
  if (bytes =? 0)%float then Ok "0B"%string
  else
    let dm := if Host.number_truthy decimal && (0 <? decimal)%float then decimal else 0%float in
    let endStr := if (0 <? dm)%float then Host.padEnd_zeros dm else ""%string in
    let '(bytes, i) := scale (length units - 1) bytes 0 in
    if (dm =? 0)%float then Ok (Host.Number_toString bytes +:+ unit_at i)
    else if Host.isInteger bytes then Ok (Host.Number_toString bytes +:+ unit_at i)
    else
      match Host.toFixed bytes dm with
      | Ok fixed =>
          if Host.endsWith fixed endStr
          then Ok (Host.before_point fixed +:+ unit_at i)
          else Ok (fixed +:+ unit_at i)
      | Throw e => Throw e
      | Overflow => Overflow
      | Stuck => Stuck
      end.

(** ** Values, objects and the heap *)

Abbreviation loc := nat (only parsing).

(** A JavaScript value: a primitive, a reference to a heap object, or a
    built-in object of the realm.  [VRef] refers to an array or to a plain
    object, [VFun] to a function; [VHost name] is the value of
    [Object.prototype[name]]: a built-in function, or [Object.prototype]
    itself for the name [__proto__].  The realm is the initial one:
    nothing has been added to or removed from the built-in prototypes. *)
Inductive value : Set :=
  | VUndefined
  | VNull
  | VBool (b : bool)
  | VNumber (n : Host.number)
  | VString (s : string)
  | VRef (l : loc)
  | VFun (l : loc)
  | VHost (name : string).

(** Heap objects: arrays (dense sequences, no holes, no other property),
    plain objects (own enumerable string-keyed data properties, in
    enumeration order) whose prototype is [Object.prototype], plain
    objects whose prototype has been set to another object of the heap,
    and functions with the properties that were added to them. *)
Inductive object : Set :=
  | OArray (elems : list value)
  | OPlain (props : list (string * value))
  | OChild (proto : loc) (props : list (string * value))
  | OFunction (props : list (string * value)).

Abbreviation heap := (list object) (only parsing).

(** Computations over the heap that may throw. *)
Definition M (A : Type) : Type := heap -> res A * heap.

Definition ret {A} (a : A) : M A := fun h => (Ok a, h).
Definition throw {A} (e : error) : M A := fun h => (Throw e, h).
Definition stuck {A} : M A := fun h => (Stuck, h).
Definition overflow {A} : M A := fun h => (Overflow, h).

Definition bind {A B} (c : M A) (f : A -> M B) : M B :=
  fun h =>
    match c h with
    | (Ok a, h') => f a h'
    | (Throw e, h') => (Throw e, h')
    | (Overflow, h') => (Overflow, h')
    | (Stuck, h') => (Stuck, h')
    end.

Notation "'let*' x := c 'in' f" := (bind c (fun x => f))
  (at level 10, x name, c at level 100, f at level 200, only parsing).

(** [typeof v]. *)
Definition typeof (v : value) : string :=
  match v with
  | VUndefined => "undefined"
  | VNull => "object"
  | VBool _ => "boolean"
  | VNumber _ => "number"
  | VString _ => "string"
  | VRef _ => "object"
  | VFun _ => "function"
  | VHost name => if String.eqb name "__proto__" then "object" else "function"
  end.

(** [ToBoolean v]. *)
Definition truthy (v : value) : bool :=
  match v with
  | VUndefined | VNull => false
  | VBool b => b
  | VNumber n => Host.number_truthy n
  | VString s => negb (String.eqb s "")
  | VRef _ | VFun _ | VHost _ => true
  end.

Definition is_NaN (n : Host.number) : bool := negb (n =? n)%float.

(** [SameValueZero], the key equality of [Map]. *)
Definition SameValueZero (v w : value) : bool :=
  match v, w with
  | VUndefined, VUndefined => true
  | VNull, VNull => true
  | VBool a, VBool b => Bool.eqb a b
  | VNumber x, VNumber y => (x =? y)%float || (is_NaN x && is_NaN y)
  | VString s, VString t => String.eqb s t
  | VRef l, VRef l' => Nat.eqb l l'
  | VFun l, VFun l' => Nat.eqb l l'
  | VHost a, VHost b => String.eqb a b
  | _, _ => false
  end.

(** [v === null]. *)
Definition is_null (v : value) : bool :=
  match v with VNull => true | _ => false end.

(** [new Map()], [map.set(key, x)] and [map.get(key)]: entries in insertion
    order, keys compared by [SameValueZero]. *)
Definition Map : Set := list (value * value).

Fixpoint Map_set (m : Map) (key x : value) : Map :=
  match m with
  | [] => [(key, x)]
  | (k', x') :: m' =>
      if SameValueZero k' key then (k', x) :: m' else (k', x') :: Map_set m' key x
  end.

Fixpoint Map_get (m : Map) (key : value) : value :=
  match m with
  | [] => VUndefined
  | (k', x') :: m' => if SameValueZero k' key then x' else Map_get m' key
  end.

(** Own properties of a plain object. *)
Fixpoint props_get (ps : list (string * value)) (key : string) : value :=
  match ps with
  | [] => VUndefined
  | (k', x) :: ps' => if String.eqb k' key then x else props_get ps' key
  end.

Fixpoint props_set (ps : list (string * value)) (key : string) (x : value)
  : list (string * value) :=
  match ps with
  | [] => [(key, x)]
  | (k', x') :: ps' =>
      if String.eqb k' key then (k', x) :: ps' else (k', x') :: props_set ps' key x
  end.

Definition props_has (ps : list (string * value)) (key : string) : bool :=
  existsb (fun p => String.eqb (fst p) key) ps.

Definition includes (xs : list string) (x : string) : bool :=
  existsb (String.eqb x) xs.

(** The properties every plain object inherits from [Object.prototype]:
    functions, and the accessor [__proto__], whose getter answers
    [Object.prototype]. *)
Definition Object_prototype_names : list string :=
  [ "constructor"; "hasOwnProperty"; "isPrototypeOf"; "propertyIsEnumerable";
    "toLocaleString"; "toString"; "valueOf"; "__defineGetter__";
    "__defineSetter__"; "__lookupGetter__"; "__lookupSetter__";
    "__proto__" ]%string.

Definition inherited (key : string) : value :=
  if includes Object_prototype_names key then VHost key else VUndefined.

(** [obj[key]] for a plain object with the own properties [ps]. *)
Definition lookup (ps : list (string * value)) (key : string) : value :=
  if props_has ps key then props_get ps key else inherited key.

(** The names a function has or inherits besides those of
    [Object.prototype], and those a number or a boolean inherits. *)
Definition function_names : list string :=
  [ "length"; "name"; "prototype"; "arguments"; "caller"; "apply"; "bind";
    "call" ]%string ++ Object_prototype_names.

Definition primitive_names : list string :=
  [ "toExponential"; "toFixed"; "toPrecision" ]%string ++ Object_prototype_names.

(** [{}] or [[]]: a new object at the next free location. *)
Definition alloc (o : object) : M loc :=
  fun h => (Ok (length h), h ++ [o]).

(** The property [key] of the first object that has it as an own
    property, along the prototype chain that starts at [l] and ends before
    [Object.prototype]. *)
Fixpoint proto_get (fuel : nat) (h : heap) (l : loc) (key : string)
  : res (option value) :=
  match fuel with
  | O => Stuck
  | S fuel' =>
      match h !! l with
      | Some (OPlain ps) =>
          Ok (if props_has ps key then Some (props_get ps key) else None)
      | Some (OChild proto ps) =>
          if props_has ps key then Ok (Some (props_get ps key))
          else proto_get fuel' h proto key
      | _ => Stuck
      end
  end.

(** [v[key]] read.  Reading a property of [undefined] or [null] throws.
    The getter of [__proto__] answers the prototype of the object that is
    read.  Not modelled ([Stuck]): the properties of arrays, strings and
    built-in objects, and the built-in properties of functions, numbers
    and booleans. *)
Definition get_prop (v : value) (key : string) : M value :=
  fun h =>
    match v with
    | VUndefined | VNull => (Throw TypeError, h)
    | VBool _ | VNumber _ =>
        if includes primitive_names key then (Stuck, h) else (Ok VUndefined, h)
    | VString _ | VHost _ => (Stuck, h)
    | VRef l =>
        match h !! l with
        | Some (OPlain ps) => (Ok (lookup ps key), h)
        | Some (OChild proto ps) =>
            if props_has ps key then (Ok (props_get ps key), h)
            else
              match proto_get (length h) h proto key with
              | Ok (Some x) => (Ok x, h)
              | Ok None =>
                  (Ok (if String.eqb key "__proto__" then VRef proto else inherited key), h)
              | Throw e => (Throw e, h)
              | Overflow => (Overflow, h)
              | Stuck => (Stuck, h)
              end
        | _ => (Stuck, h)
        end
    | VFun l =>
        match h !! l with
        | Some (OFunction ps) =>
            if props_has ps key then (Ok (props_get ps key), h)
            else if includes function_names key then (Stuck, h)
            else (Ok VUndefined, h)
        | _ => (Stuck, h)
        end
    end.

(** [v[key] = x] in strict mode.  On a plain object that has no own
    [__proto__] property, assigning to [__proto__] calls the setter of
    [Object.prototype]: a value that is neither an object nor [null] is
    ignored, a plain object becomes the prototype.  Not modelled
    ([Stuck]): other prototypes, and writing to arrays by name, to
    strings and to built-in objects. *)
Definition set_prop (v : value) (key : string) (x : value) : M unit :=
  fun h =>
    match v with
    | VRef l =>
        match h !! l with
        | Some (OPlain ps) =>
            if String.eqb key "__proto__" && negb (props_has ps key) then
              match x with
              | VRef proto =>
                  if Nat.eqb proto l then (Throw TypeError, h)
                  else
                    match h !! proto with
                    | Some (OPlain _) => (Ok tt, <[l := OChild proto ps]> h)
                    | _ => (Stuck, h)
                    end
              | VNull | VFun _ | VHost _ => (Stuck, h)
              | _ => (Ok tt, h)
              end
            else (Ok tt, <[l := OPlain (props_set ps key x)]> h)
        | Some (OChild proto ps) =>
            if String.eqb key "__proto__" then (Stuck, h)
            else (Ok tt, <[l := OChild proto (props_set ps key x)]> h)
        | _ => (Stuck, h)
        end
    | VFun l =>
        match h !! l with
        | Some (OFunction ps) =>
            if includes function_names key && negb (props_has ps key) then (Stuck, h)
            else (Ok tt, <[l := OFunction (props_set ps key x)]> h)
        | _ => (Stuck, h)
        end
    | VString _ | VHost _ => (Stuck, h)
    | _ => (Throw TypeError, h)
    end.

(** [arr[index] = x] on an array, for an index up to its length. *)
Definition array_store (l : loc) (index : nat) (x : value) : M unit :=
  fun h =>
    match h !! l with
    | Some (OArray vs) =>
        if (index <? length vs)%nat then (Ok tt, <[l := OArray (<[index := x]> vs)]> h)
        else if (index =? length vs)%nat then (Ok tt, <[l := OArray (vs ++ [x])]> h)
        else (Stuck, h)
    | _ => (Stuck, h)
    end.

(** Calling [v[name](...)] when [v] is not an array: a [TypeError] unless
    the property is a function, whose call is not modelled. *)
Definition call_other (v : value) (name : string) {A} : M A :=
  fun h =>
    match get_prop v name h with
    | (Ok (VFun _), _) | (Ok (VHost _), _) => (Stuck, h)
    | (Ok _, _) => (Throw TypeError, h)
    | (Throw e, _) => (Throw e, h)
    | (Overflow, _) => (Overflow, h)
    | (Stuck, _) => (Stuck, h)
    end.

(** [v.push(x)]. *)
Definition push (v : value) (x : value) : M unit :=
  fun h =>
    match v with
    | VRef l =>
        match h !! l with
        | Some (OArray vs) => (Ok tt, <[l := OArray (vs ++ [x])]> h)
        | _ => call_other v "push" h
        end
    | VFun _ => call_other v "push" h
    | _ => (Throw TypeError, h)
    end.

(** [Array.isArray(v)] and [v instanceof Array]. *)
Definition isArray (v : value) : M bool :=
  fun h =>
    match v with
    | VRef l =>
        match h !! l with
        | Some (OArray _) => (Ok true, h)
        | Some _ => (Ok false, h)
        | None => (Stuck, h)
        end
    | _ => (Ok false, h)
    end.

(** [arr.forEach((item, index) => ...)], threading the closure's captured
    state [St].  The length is read once; each element is read from the heap
    when its turn comes, and an index that is no longer present is skipped. *)
Fixpoint forEach_from {St} (f : value -> nat -> St -> M St) (l : loc)
    (remaining index : nat) (s : St) : M St :=
  match remaining with
  | O => ret s
  | S remaining' =>
      fun h =>
        match h !! l with
        | Some (OArray vs) =>
            match vs !! index with
            | Some item =>
                (let* s' := f item index s in forEach_from f l remaining' (S index) s') h
            | None => forEach_from f l remaining' (S index) s h
            end
        | _ => (Stuck, h)
        end
  end.

Definition forEach {St} (f : value -> nat -> St -> M St) (arr : value) (s : St) : M St :=
  fun h =>
    match arr with
    | VRef l =>
        match h !! l with
        | Some (OArray vs) => forEach_from f l (length vs) 0 s h
        | _ => call_other arr "forEach" h
        end
    | VFun _ => call_other arr "forEach" h
    | VString _ => (Stuck, h)
    | _ => (Throw TypeError, h)
    end.

(** [for (let k in obj) ...] over a plain object: the keys are fixed when
    the loop starts. *)
Fixpoint for_keys (f : string -> M unit) (keys : list string) : M unit :=
  match keys with
  | [] => ret tt
  | key :: keys' => let* _ := f key in for_keys f keys'
  end.

Definition for_in (f : string -> M unit) (l : loc) : M unit :=
  fun h =>
    match h !! l with
    | Some (OPlain ps) => for_keys f (map fst ps) h
    | _ => (Stuck, h)
    end.

(** ** [deepClone] *)

(** [fuel] bounds the depth of the recursion: the call stack. *)
Fixpoint deepClone (fuel : nat) (obj : value) : M value :=
  match fuel with
  | O => overflow
  | S fuel' =>
      if negb (String.eqb (typeof obj) "object") || is_null obj then ret obj
      else
        match obj with
        | VRef l =>
            let* is_array := isArray obj in
            if is_array then
              let* newArr := alloc (OArray []) in
              let* _ :=
                forEach
                  (fun item index _ =>
                     let* c := deepClone fuel' item in array_store newArr index c)
                  obj tt in
              ret (VRef newArr)
            else
              let* newObj := alloc (OPlain []) in
              let* _ :=
                for_in
                  (fun key =>
                     let* v := get_prop obj key in
                     let* c := deepClone fuel' v in
                     set_prop (VRef newObj) key c)
                  l in
              ret (VRef newObj)
        | VHost _ =>
            (* [Object.prototype]: not an array, nothing to enumerate *)
            let* newObj := alloc (OPlain []) in
            ret (VRef newObj)
        | _ => ret obj
        end
  end.

(** ** [arrayToTree] *)

(** [arrayToTree(arr = [], id = 'id', pid = 'pid', children = 'children')];
    [None] is an omitted argument. *)
Definition arrayToTree (fuel : nat) (arr : option value)
    (id pid children : option string) : M value :=
  let id := default "id"%string id in
  let pid := default "pid"%string pid in
  let children := default "children"%string children in
  let* arr := match arr with
         | Some a => ret a
         | None => let* l := alloc (OArray []) in ret (VRef l)
         end in
  let* data := deepClone fuel arr in
  let* tree := alloc (OArray []) in
  let* idMap := forEach
             (fun item _ (idMap : Map) =>
                let* key := get_prop item id in ret (Map_set idMap key item))
             data [] in
  let* _ :=
    forEach
      (fun item _ _ =>
         let* p := get_prop item pid in
         if negb (truthy p) then push (VRef tree) item
         else
           let parent := Map_get idMap p in
           let* c := get_prop parent children in
           let* _ :=
             (if negb (truthy c)
              then let* l := alloc (OArray []) in set_prop parent children (VRef l)
              else ret tt) in
           let* c' := get_prop parent children in
           push c' item)
      data tt in
  ret (VRef tree).

(** ** [getSelectedItems] *)

Record IOptions : Set := {
  valueKey : option string;
  value_ : value;
  getKey : option string;
  flag : option bool
}.

(** The message of the error thrown for a [value] of the wrong type. *)
Definition type_error_message (type : string) : string :=
  "value类型错误：期望得到“string | number | (string | number)[]”类型，但得到了" +:+ type +:+ "类型".

Definition getSelectedItems (data : value) (options : IOptions) : M value :=
  let valueKey := default "value"%string (valueKey options) in
  let value := value_ options in
  let getKey := default "label"%string (getKey options) in
  let flag := default true (flag options) in
  let type := typeof value in
  let* is_array := isArray value in
  if negb (includes ["string"; "number"]%string type)
     || (String.eqb type "object" && negb is_array)
  then throw (Error (type_error_message type))
  else
    let* valueMap := forEach
                  (fun item _ (valueMap : Map) =>
                     let* key := get_prop item valueKey in
                     let* x := (if flag then get_prop item getKey else ret item) in
                     ret (Map_set valueMap key x))
                  data [] in
    if negb is_array then ret (Map_get valueMap value)
    else
      let* arr := alloc (OArray []) in
      let* _ := forEach (fun v _ _ => push (VRef arr) (Map_get valueMap v)) value tt in
      ret (VRef arr).

(** ** [debounce] and [throttle]

    The host's timers are modelled by a discrete clock (milliseconds) and a
    queue of pending callbacks.  [Args] stands for the receiver and the
    arguments of one invocation; the wrapped [fn] is observed through the
    log [calls] of its invocations, and through whether an invocation
    returns or throws.  A [fn] that calls the wrapper back is not
    modelled. *)

Abbreviation timer_id := nat (only parsing).

(** How an invocation of the wrapped [fn] ends. *)
Inductive outcome : Set :=
  | Returns
  | Throws.

Section Timers.

Variable Args : Type.

(** The closures handed to [setTimeout]. *)
Inductive callback : Type :=
  | ApplyFn (args : Args)   (* [() => { fn.apply(context, args) }] *)
  | ClearTimer.             (* [() => { timer && clearTimeout(timer); timer = null }] *)

Record world : Type := mkWorld {
  now : nat;                                     (* the host clock, in ms *)
  next_id : timer_id;                            (* the next timer handle *)
  pending : list (timer_id * nat * callback);    (* handle, due time, callback *)
  timer : option timer_id;                       (* the closure variable [timer] *)
  calls : list (nat * Args)                      (* invocations of [fn], with their time *)
}.

Definition init : world :=
  {| now := 0; next_id := 1; pending := []; timer := None; calls := [] |}.

(** [setTimeout(cb, wait)]: the callback is due [wait] ms from now. *)
Definition setTimeout (cb : callback) (wait : nat) (w : world) : timer_id * world :=
  (next_id w,
   {| now := now w; next_id := S (next_id w);
      pending := pending w ++ [(next_id w, now w + wait, cb)];
      timer := timer w; calls := calls w |}).

(** [clearTimeout(id)]: a handle that is no longer pending is ignored. *)
Definition clearTimeout (id : timer_id) (w : world) : world :=
  {| now := now w; next_id := next_id w;
     pending := List.filter (fun p => negb (Nat.eqb (fst (fst p)) id)) (pending w);
     timer := timer w; calls := calls w |}.

Definition set_timer (t : option timer_id) (w : world) : world :=
  {| now := now w; next_id := next_id w; pending := pending w;
     timer := t; calls := calls w |}.

(** [fn.apply(context, args)]. *)
Definition apply_fn (args : Args) (w : world) : world :=
  {| now := now w; next_id := next_id w; pending := pending w;
     timer := timer w; calls := calls w ++ [(now w, args)] |}.

Definition run_callback (cb : callback) (w : world) : world :=
  match cb with
  | ApplyFn args => apply_fn args w
  | ClearTimer =>
      let w := match timer w with Some id => clearTimeout id w | None => w end in
      set_timer None w
  end.

(** The pending timer to run next once the clock may reach [t]: the one
    with the earliest due time, the oldest among equals. *)
Fixpoint next_due (t : nat) (ps : list (timer_id * nat * callback))
  : option (timer_id * nat * callback) :=
  match ps with
  | [] => None
  | p :: ps' =>
      match next_due t ps' with
      | Some q =>
          if (snd (fst p) <=? t) && (snd (fst p) <=? snd (fst q)) then Some p else Some q
      | None => if snd (fst p) <=? t then Some p else None
      end
  end.

(** The event loop up to time [t]: due callbacks run one at a time, each
    at its due time. *)
Fixpoint run_timers (fuel : nat) (t : nat) (w : world) : world :=
  match fuel with
  | O => w
  | S fuel' =>
      match next_due t (pending w) with
      | None => w
      | Some (id, due, cb) =>
          let w := {| now := Nat.max (now w) due; next_id := next_id w;
                      pending := List.filter (fun p => negb (Nat.eqb (fst (fst p)) id)) (pending w);
                      timer := timer w; calls := calls w |} in
          run_timers fuel' t (run_callback cb w)
      end
  end.

(** [d] ms pass with the wrapper not being called. *)
Definition wait_for (d : nat) (w : world) : world :=
  let t := now w + d in
  let w := run_timers (length (pending w)) t w in
  {| now := t; next_id := next_id w; pending := pending w;
     timer := timer w; calls := calls w |}.

(** One invocation of the function returned by [debounce(fn, wait)]. *)
Definition debounce (wait : nat) (args : Args) (w : world) : world :=
  let w := match timer w with Some id => clearTimeout id w | None => w end in
  let '(id, w) := setTimeout (ApplyFn args) wait w in
  set_timer (Some id) w.

(** One invocation of the function returned by [throttle(fn, wait)].
    When [fn] throws, the exception leaves the wrapper before [timer] is
    assigned. *)
Definition throttle (fn : Args -> outcome) (wait : nat) (args : Args) (w : world)
  : world :=
  match timer w with
  | None =>
      let w := apply_fn args w in
      match fn args with
      | Returns =>
          let '(id, w) := setTimeout ClearTimer wait w in
          set_timer (Some id) w
      | Throws => w
      end
  | Some _ => w
  end.

(** What happens to a wrapper over time: it is invoked, or time passes. *)
Inductive event : Type :=
  | Call (args : Args)
  | Wait (d : nat).

Definition step (wrapper : Args -> world -> world) (e : event) (w : world) : world :=
  match e with
  | Call args => wrapper args w
  | Wait d => wait_for d w
  end.

Definition run (wrapper : Args -> world -> world) (es : list event) (w : world) : world :=
  fold_left (fun w e => step wrapper e w) es w.

(** The time a trace takes. *)
Fixpoint elapsed (es : list event) : nat :=
  match es with
  | [] => 0
  | Call _ :: es' => elapsed es'
  | Wait d :: es' => d + elapsed es'
  end.

Definition is_call (e : event) : bool :=
  match e with Call _ => true | Wait _ => false end.

(** A burst of invocations: each [(d, args)] is an invocation [d] ms after
    the one before it. *)
Definition burst (gaps : list (nat * Args)) : list event :=
  flat_map (fun g => [Wait (fst g); Call (snd g)]) gaps.

(** The sum of the gaps of a burst, and the arguments of its last
    invocation. *)
Definition gaps_total (gaps : list (nat * Args)) : nat :=
  foldr (fun g n => fst g + n) 0 gaps.

Definition last_args (args : Args) (gaps : list (nat * Args)) : Args :=
  List.last (map snd gaps) args.

(** Invocations in [es] fall into the cooldown of a throttled call when
    they come in the same task (no time passes) or before [wait] ms have
    passed. *)
Definition in_cooldown (wait : nat) (es : list event) : Prop :=
  forallb is_call es = true \/ elapsed es < wait.

(** *** The states of a debounced function *)

(** A deferred call of [fn] with [args] is pending, due at [due]. *)
Definition deferred (w : world) (id : timer_id) (due : nat) (args : Args) : Prop :=
  pending w = [(id, due, ApplyFn args)] /\ timer w = Some id /\ now w <= due.

(** Nothing is pending. *)
Definition settled (w : world) : Prop := pending w = [].

Definition debounce_inv (w : world) : Prop :=
  settled w \/ exists id due args, deferred w id due args.

(** *** The states of a throttled function *)

(** The cooldown timer is pending, due at [due]. *)
Definition cooling (w : world) (id : timer_id) (due : nat) : Prop :=
  pending w = [(id, due, ClearTimer)] /\ timer w = Some id.

(** No cooldown is in progress. *)
Definition idle (w : world) : Prop := pending w = [] /\ timer w = None.

Definition throttle_inv (w : world) : Prop :=
  idle w \/ exists id due, cooling w id due.

End Timers.

Arguments ApplyFn {Args} args.
Arguments ClearTimer {Args}.
Arguments Call {Args} args.
Arguments Wait {Args} d.
Arguments init {Args}.
Arguments now {Args} w.
Arguments next_id {Args} w.
Arguments pending {Args} w.
Arguments timer {Args} w.
Arguments calls {Args} w.
Arguments setTimeout {Args} cb wait w.
Arguments clearTimeout {Args} id w.
Arguments set_timer {Args} t w.
Arguments apply_fn {Args} args w.
Arguments run_callback {Args} cb w.
Arguments next_due {Args} t ps.
Arguments run_timers {Args} fuel t w.
Arguments wait_for {Args} d w.
Arguments debounce {Args} wait args w.
Arguments throttle {Args} fn wait args w.
Arguments step {Args} wrapper e w.
Arguments run {Args} wrapper es w.
Arguments elapsed {Args} es.
Arguments is_call {Args} e.
Arguments burst {Args} gaps.
Arguments gaps_total {Args} gaps.
Arguments last_args {Args} args gaps.
Arguments in_cooldown {Args} wait es.
Arguments deferred {Args} w id due args.
Arguments settled {Args} w.
Arguments debounce_inv {Args} w.
Arguments cooling {Args} w id due.
Arguments idle {Args} w.
Arguments throttle_inv {Args} w.

(** A wrapped function that throws at every invocation. *)
Definition always_throws (_ : nat) : outcome := Throws.

(** ** What the specification says [formatBytes] renders for [decimal <= 0] *)

(** The integer part of a number, as text. *)
Definition integer_part_text (x : Host.number) : string :=
  match Host.ToIntegerOrInfinity x with
  | Some z => (if (z <? 0)%Z then "-" else "") +:+ Host.digits (Z.abs z)
  | None => Host.Number_toString x
  end.

(** "Render the integer part with no fractional digits", then the unit. *)
Definition renders_integer_part (bytes decimal : Host.number) : Prop :=
  formatBytes bytes (Some decimal)
  = Ok (integer_part_text (fst (scale (length units - 1) bytes 0))
        +:+ unit_at (snd (scale (length units - 1) bytes 0))).

(** ** Keys of a [Map], up to [SameValueZero] *)

(** Two values are the same [Map] key exactly when they have the same
    [key_of]: the zeros are one key, and so is [NaN]. *)
Inductive key : Set :=
  | KUndefined
  | KNull
  | KBool (b : bool)
  | KNumber (f : spec_float)
  | KString (s : string)
  | KRef (l : loc)
  | KFun (l : loc)
  | KHost (name : string).

Definition number_class (x : Host.number) : spec_float :=
  match Prim2SF x with
  | S754_zero _ => S754_zero false
  | f => f
  end.

Definition key_of (v : value) : key :=
  match v with
  | VUndefined => KUndefined
  | VNull => KNull
  | VBool b => KBool b
  | VNumber x => KNumber (number_class x)
  | VString s => KString s
  | VRef l => KRef l
  | VFun l => KFun l
  | VHost name => KHost name
  end.

(** ** Records *)

(** A record: a reference to a plain object. *)
Definition is_record (h : heap) (v : value) : Prop :=
  exists l ps, v = VRef l /\ h !! l = Some (OPlain ps).

(** The value of [item[key]] for a record [item]: its own property, or
    the one it inherits from [Object.prototype]. *)
Definition field (h : heap) (item : value) (key : string) : value :=
  match item with
  | VRef l =>
      match h !! l with
      | Some (OPlain ps) => lookup ps key
      | _ => VUndefined
      end
  | _ => VUndefined
  end.

(** The own property [key] of a record, [undefined] when it has none. *)
Definition own_field (h : heap) (item : value) (key : string) : value :=
  match item with
  | VRef l =>
      match h !! l with
      | Some (OPlain ps) => props_get ps key
      | _ => VUndefined
      end
  | _ => VUndefined
  end.

(** The entry a record contributes to [valueMap]. *)
Definition entry (h : heap) (valueKey getKey : string) (flag : bool)
    (valueMap : Map) (item : value) : Map :=
  Map_set valueMap (field h item valueKey)
    (if flag then field h item getKey else item).

(** A loop whose body reads the heap without writing it. *)
Fixpoint fold_res {St} (g : value -> nat -> St -> res St) (items : list value)
    (index : nat) (s : St) : res St :=
  match items with
  | [] => Ok s
  | item :: rest =>
      match g item index s with
      | Ok s' => fold_res g rest (S index) s'
      | Throw e => Throw e
      | Overflow => Overflow
      | Stuck => Stuck
      end
  end.

(** ** Plain nested data *)

(** The shape of a value built from primitives, arrays and plain objects:
    what [deepClone] must reproduce. *)
Inductive shape : Set :=
  | SPrim (v : value)
  | SArr (ts : list shape)
  | SObj (fs : list (string * shape)).

Definition is_prim (v : value) : Prop :=
  match v with VRef _ | VFun _ | VHost _ => False | _ => True end.

(** A value that is not a reference to an array or a plain object. *)
Definition not_ref (v : value) : Prop :=
  match v with VRef _ => False | _ => True end.

(** The keys of a plain object that [deepClone] copies one by one:
    distinct, and none of them [__proto__], which an assignment does not
    create. *)
Definition plain_keys (ps : list (string * value)) : Prop :=
  NoDup (map fst ps) /\ "__proto__"%string ∉ map fst ps.

(** The nesting depth of a shape: the call depth [deepClone] needs. *)
Fixpoint depth (t : shape) : nat :=
  match t with
  | SPrim _ => 0
  | SArr ts => S (foldr (fun t n => Nat.max (depth t) n) 0 ts)
  | SObj fs => S (foldr (fun f n => Nat.max (depth (snd f)) n) 0 fs)
  end.

(** [repr h v t]: in heap [h] the value [v] is plain nested data of shape
    [t].  Two values of the same shape are structurally equal.  Objects
    may be shared between branches; a cyclic value has no shape. *)
Inductive repr (h : heap) : value -> shape -> Prop :=
  | repr_prim v : is_prim v -> repr h v (SPrim v)
  | repr_arr l vs ts :
      h !! l = Some (OArray vs) ->
      Forall2 (repr h) vs ts ->
      repr h (VRef l) (SArr ts)
  | repr_obj l ps fs :
      h !! l = Some (OPlain ps) ->
      plain_keys ps ->
      Forall2 (fun p f => fst p = fst f /\ repr h (snd p) (snd f)) ps fs ->
      repr h (VRef l) (SObj fs).

(** Consecutive ranges of locations [lo, mid), [mid, ...), ..., [..., hi),
    one per element. *)
Inductive chain {A B : Type} (R : nat -> nat -> A -> B -> Prop)
  : nat -> nat -> list A -> list B -> Prop :=
  | chain_nil lo : chain R lo lo [] []
  | chain_cons lo mid hi a b xs ys :
      R lo mid a b -> chain R mid hi xs ys -> chain R lo hi (a :: xs) (b :: ys).

(** [laid h lo hi v t]: the value [v] of shape [t] is a tree of objects
    that occupies exactly the locations [lo, hi), every object followed by
    its children in order.  No object is shared. *)
Inductive laid (h : heap) : nat -> nat -> value -> shape -> Prop :=
  | laid_prim lo v : is_prim v -> laid h lo lo v (SPrim v)
  | laid_arr lo hi vs ts :
      h !! lo = Some (OArray vs) ->
      chain (laid h) (S lo) hi vs ts ->
      laid h lo hi (VRef lo) (SArr ts)
  | laid_obj lo hi ps fs :
      h !! lo = Some (OPlain ps) ->
      plain_keys ps ->
      chain (fun a b p f => fst p = fst f /\ laid h a b (snd p) (snd f)) (S lo) hi ps fs ->
      laid h lo hi (VRef lo) (SObj fs).

(** [extends h h']: every object of [h] is still there, unchanged, in [h']. *)
Definition extends (h h' : heap) : Prop :=
  forall l o, h !! l = Some o -> h' !! l = Some o.

(** Induction over [repr] and [laid], with the hypothesis for the elements. *)
Section repr_induction.

Variables (h : heap) (P : value -> shape -> Prop).
Hypothesis Hprim : forall v, is_prim v -> P v (SPrim v).
Hypothesis Harr : forall l vs ts,
  h !! l = Some (OArray vs) -> Forall2 (repr h) vs ts -> Forall2 P vs ts ->
  P (VRef l) (SArr ts).
Hypothesis Hobj : forall l ps fs,
  h !! l = Some (OPlain ps) -> plain_keys ps ->
  Forall2 (fun p f => fst p = fst f /\ repr h (snd p) (snd f)) ps fs ->
  Forall2 (fun p f => fst p = fst f /\ P (snd p) (snd f)) ps fs ->
  P (VRef l) (SObj fs).

Fixpoint repr_ind' (v : value) (t : shape) (H : repr h v t) {struct H} : P v t :=
  match H in repr _ v t return P v t with
  | repr_prim _ v Hv => Hprim v Hv
  | repr_arr _ l vs ts Hl Hall =>
      Harr l vs ts Hl Hall
        ((fix go vs ts (H : Forall2 (repr h) vs ts) {struct H} : Forall2 P vs ts :=
            match H in Forall2 _ vs ts return Forall2 P vs ts with
            | List.Forall2_nil _ => List.Forall2_nil _
            | @List.Forall2_cons _ _ _ x y xs ys Hxy Hrest =>
                @List.Forall2_cons _ _ _ x y xs ys (repr_ind' x y Hxy) (go xs ys Hrest)
            end) vs ts Hall)
  | repr_obj _ l ps fs Hl Hnd Hall =>
      Hobj l ps fs Hl Hnd Hall
        ((fix go ps fs
              (H : Forall2 (fun p f => fst p = fst f /\ repr h (snd p) (snd f)) ps fs)
              {struct H}
            : Forall2 (fun p f => fst p = fst f /\ P (snd p) (snd f)) ps fs :=
            match H in Forall2 _ ps fs
                  return Forall2 (fun p f => fst p = fst f /\ P (snd p) (snd f)) ps fs with
            | List.Forall2_nil _ => List.Forall2_nil _
            | @List.Forall2_cons _ _ _ x y xs ys Hxy Hrest =>
                @List.Forall2_cons _ _ _ x y xs ys
                  (match Hxy with conj Hk Hr => conj Hk (repr_ind' (snd x) (snd y) Hr) end)
                  (go xs ys Hrest)
            end) ps fs Hall)
  end.

End repr_induction.

Section laid_induction.

Variables (h : heap) (P : nat -> nat -> value -> shape -> Prop).
Hypothesis Hprim : forall lo v, is_prim v -> P lo lo v (SPrim v).
Hypothesis Harr : forall lo hi vs ts,
  h !! lo = Some (OArray vs) ->
  chain (laid h) (S lo) hi vs ts -> chain P (S lo) hi vs ts ->
  P lo hi (VRef lo) (SArr ts).
Hypothesis Hobj : forall lo hi ps fs,
  h !! lo = Some (OPlain ps) -> plain_keys ps ->
  chain (fun a b p f => fst p = fst f /\ laid h a b (snd p) (snd f)) (S lo) hi ps fs ->
  chain (fun a b p f => fst p = fst f /\ P a b (snd p) (snd f)) (S lo) hi ps fs ->
  P lo hi (VRef lo) (SObj fs).

Fixpoint laid_ind' (lo hi : nat) (v : value) (t : shape) (H : laid h lo hi v t)
    {struct H} : P lo hi v t :=
  match H in laid _ lo hi v t return P lo hi v t with
  | laid_prim _ lo v Hv => Hprim lo v Hv
  | laid_arr _ lo hi vs ts Hl Hall =>
      Harr lo hi vs ts Hl Hall
        ((fix go a b vs ts (H : chain (laid h) a b vs ts) {struct H} : chain P a b vs ts :=
            match H in chain _ a b vs ts return chain P a b vs ts with
            | chain_nil _ a => chain_nil _ a
            | chain_cons _ a m b x y xs ys Hxy Hrest =>
                chain_cons _ a m b x y xs ys (laid_ind' a m x y Hxy) (go m b xs ys Hrest)
            end) (S lo) hi vs ts Hall)
  | laid_obj _ lo hi ps fs Hl Hnd Hall =>
      Hobj lo hi ps fs Hl Hnd Hall
        ((fix go a b ps fs
              (H : chain (fun a b p f => fst p = fst f /\ laid h a b (snd p) (snd f))
                     a b ps fs)
              {struct H}
            : chain (fun a b p f => fst p = fst f /\ P a b (snd p) (snd f)) a b ps fs :=
            match H in chain _ a b ps fs
                  return chain (fun a b p f => fst p = fst f /\ P a b (snd p) (snd f))
                           a b ps fs with
            | chain_nil _ a => chain_nil _ a
            | chain_cons _ a m b x y xs ys Hxy Hrest =>
                chain_cons _ a m b x y xs ys
                  (match Hxy with
                   | conj Hk Hr => conj Hk (laid_ind' a m (snd x) (snd y) Hr)
                   end)
                  (go m b xs ys Hrest)
            end) (S lo) hi ps fs Hall)
  end.

End laid_induction.

(** What one call of [deepClone] with enough fuel achieves: a copy of the
    same shape, laid out in new locations, the old heap untouched. *)
Definition clones (fuel : nat) : Prop :=
  forall h v t,
    repr h v t -> depth t < fuel ->
    exists v' h',
      deepClone fuel v h = (Ok v', h')
      /\ laid h' (length h) (length h') v' t
      /\ extends h h'.

(** [reaches h v l]: the object at [l] is [v] itself or one of the arrays
    and plain objects nested in it. *)
Inductive reaches (h : heap) : value -> loc -> Prop :=
  | reaches_here l : reaches h (VRef l) l
  | reaches_elem l vs v l' :
      h !! l = Some (OArray vs) -> v ∈ vs -> reaches h v l' -> reaches h (VRef l) l'
  | reaches_field l ps p l' :
      h !! l = Some (OPlain ps) -> p ∈ ps -> reaches h (snd p) l' ->
      reaches h (VRef l) l'.

(** ** New objects refer to new objects only *)

(** A value that is neither a reference below [n] nor a function. *)
Definition vfresh (n : nat) (v : value) : Prop :=
  match v with VRef l => n <= l | VFun _ => False | _ => True end.

Definition ofresh (n : nat) (o : object) : Prop :=
  match o with
  | OArray vs => Forall (vfresh n) vs
  | OPlain ps | OFunction ps => Forall (fun p => vfresh n (snd p)) ps
  | OChild proto ps => n <= proto /\ Forall (fun p => vfresh n (snd p)) ps
  end.

(** The values an object holds. *)
Definition stores (o : object) : list value :=
  match o with
  | OArray vs => vs
  | OPlain ps | OChild _ ps | OFunction ps => map snd ps
  end.

(** A value that is not a function. *)
Definition not_fun (v : value) : Prop :=
  match v with VFun _ => False | _ => True end.

(** Data only: neither a function nor a built-in object. *)
Definition data_only (v : value) : Prop :=
  match v with VFun _ | VHost _ => False | _ => True end.

(** The objects an object refers to: those it holds a reference to, and
    its prototype. *)
Definition refers (o : object) (l : loc) : Prop :=
  VRef l ∈ stores o \/ exists ps, o = OChild l ps.

(** [reachable h v l]: the object at [l] is [v] itself, or is reached from
    it through the references that objects hold and through prototypes. *)
Inductive reachable (h : heap) (v : value) : loc -> Prop :=
  | reachable_here l : v = VRef l -> reachable h v l
  | reachable_step l o l' :
      reachable h v l -> h !! l = Some o -> refers o l' -> reachable h v l'.

(** No object reachable from [v] holds a function. *)
Definition no_fun_from (h : heap) (v : value) : Prop :=
  forall l o, reachable h v l -> h !! l = Some o -> Forall not_fun (stores o).

(** Every object reachable from [v] holds data only. *)
Definition function_free_from (h : heap) (v : value) : Prop :=
  forall l o, reachable h v l -> h !! l = Some o -> Forall data_only (stores o).

(** The objects from [n] on hold no reference below [n]. *)
Definition fresh_region (n : nat) (h : heap) : Prop :=
  forall l o, n <= l -> h !! l = Some o -> ofresh n o.

(** A value that code may read from without meeting a function: a
    primitive, a built-in, a reference to one of the caller's objects
    [src], or to an object from [n] on. *)
Definition safe (src : loc -> Prop) (n : nat) (v : value) : Prop :=
  match v with VRef l => src l \/ n <= l | VFun _ => False | _ => True end.

(** [closed P Q h]: the objects of [h] at the locations [Q] hold values
    [P] only, and their prototypes are at locations [Q]. *)
Definition closed (P : value -> Prop) (Q : loc -> Prop) (h : heap) : Prop :=
  forall l o, Q l -> h !! l = Some o ->
    Forall P (stores o) /\ forall proto ps, o = OChild proto ps -> Q proto.

(** The state of the heap while code works on objects it created itself:
    the caller's heap [h0] is intact, and the objects from [n] on are
    closed under reference. *)
Definition inv (n : nat) (h0 h : heap) : Prop :=
  n <= length h /\ extends h0 h /\ fresh_region n h.

(** [keeps n h0 c Q]: however [c] ends, it keeps [inv n h0]; when it
    returns, its result satisfies [Q]. *)
Definition keeps {A} (n : nat) (h0 : heap) (c : M A) (Q : A -> Prop) : Prop :=
  forall h r h',
    inv n h0 h -> c h = (r, h') -> inv n h0 h' /\ forall a, r = Ok a -> Q a.

(** ** The two loops of [arrayToTree] *)

(** The body of the first loop: [idMap.set(item[id], item)]. *)
Definition index_item (id : string) (item : value) (_ : nat) (idMap : Map) : M Map :=
  let* key := get_prop item id in ret (Map_set idMap key item).

(** The body of the second loop: a root goes to [tree], any other record
    to the children of its parent. *)
Definition attach (tree : loc) (idMap : Map) (pid children : string)
    (item : value) (_ : nat) (_ : unit) : M unit :=
  let* p := get_prop item pid in
  if negb (truthy p) then push (VRef tree) item
  else
    let parent := Map_get idMap p in
    let* c := get_prop parent children in
    let* _ :=
      (if negb (truthy c)
       then let* l := alloc (OArray []) in set_prop parent children (VRef l)
       else ret tt) in
    let* c' := get_prop parent children in
    push c' item.

(** The index [idMap] holds after the first loop over the records [cs]. *)
Definition index_of (h : heap) (id : string) (cs : list value) : Map :=
  fold_left (fun idMap c => Map_set idMap (field h c id) c) cs [].

(** An array, or a plain object that holds data only. *)
Definition data_object (o : object) : Prop :=
  match o with
  | OArray _ => True
  | OPlain ps => Forall data_only (map snd ps)
  | _ => False
  end.

(** What the second loop keeps true of the heap [hc], until it throws:
    [d] is the array of the cloned records [cs], [tree] is an array, the
    objects from [d] on are arrays and plain objects of data, and every
    record is a plain object after [d] whose references are in the heap
    after [d], and whose truthy properties are those it had in [h2]. *)
Definition attaching (h2 : heap) (d tree : loc) (cs : list value) (hc : heap) : Prop :=
  hc !! d = Some (OArray cs)
  /\ (exists roots, hc !! tree = Some (OArray roots))
  /\ (forall x o, d <= x -> hc !! x = Some o -> data_object o)
  /\ Forall
       (fun c =>
          exists a ps,
            c = VRef a /\ hc !! a = Some (OPlain ps) /\ d <= a
            /\ Forall (fun p => forall x, snd p = VRef x -> d < x < length hc) ps
            /\ forall key, truthy (field h2 c key) = true -> lookup ps key = field h2 c key)
       cs.

(** A record of a laid-out list of records. *)
Definition copy_of (h h1 : heap) (a b : nat) (item c : value) : Prop :=
  exists fs lo hi l (qs : list (string * value)),
    repr h item (SObj fs) /\ laid h1 lo hi c (SObj fs)
    /\ c = VRef l /\ h1 !! l = Some (OPlain qs) /\ a <= l /\ l < b
    /\ Forall (fun q => forall x, snd q = VRef x -> l < x < b) qs.

(** ** The tree [arrayToTree] builds *)

Definition is_ref_to (a : loc) (v : value) : bool :=
  match v with VRef b => Nat.eqb a b | _ => false end.

(** Of the records [prefix] the second loop has gone through: the roots,
    and the children of the record at [a], both in the order of the list.
    [h2] is the heap the loop started in, [idMap] the index. *)
Definition roots_of (h2 : heap) (pid : string) (prefix : list value) : list value :=
  List.filter (fun c => negb (truthy (field h2 c pid))) prefix.

Definition kids_of (h2 : heap) (idMap : Map) (pid : string) (a : loc)
    (prefix : list value) : list value :=
  List.filter
    (fun c => truthy (field h2 c pid) && is_ref_to a (Map_get idMap (field h2 c pid)))
    prefix.

(** [v] is an array of the heap [h]; its elements, none when it is not. *)
Definition is_array (h : heap) (v : value) : Prop :=
  exists l es, v = VRef l /\ h !! l = Some (OArray es).

Definition elements (h : heap) (v : value) : list value :=
  match v with
  | VRef l =>
      match h !! l with
      | Some (OArray es) => es
      | _ => []
      end
  | _ => []
  end.

(** A record the loop can give children to: its children value is falsy,
    so that an array is created, or it is an array already. *)
Definition can_take_children (h : heap) (p : value) (children : string) : Prop :=
  truthy (field h p children) = false \/ is_array h (field h p children).

(** An array after [kids] were pushed to it; any other object as it was. *)
Definition grown (o : option object) (kids : list value) : option object :=
  match o with
  | Some (OArray es) => Some (OArray (es ++ kids))
  | _ => o
  end.

(** The state of the heap [hc] after the second loop has gone through
    [prefix], when nothing makes it throw.  [kl] tells which records have
    been given a new children array, and where it is; a record that had a
    children array has its children pushed to that array. *)
Definition building (h2 : heap) (d tree : loc) (cs : list value) (idMap : Map)
    (pid children : string) (kl : loc -> option loc) (prefix : list value)
    (hc : heap) : Prop :=
  hc !! d = Some (OArray cs)
  /\ hc !! tree = Some (OArray (roots_of h2 pid prefix))
  /\ length h2 <= length hc
  /\ (forall c, c ∈ prefix -> c ∈ cs)
  /\ (forall a qs,
        VRef a ∈ cs -> h2 !! a = Some (OPlain qs) ->
        match kl a with
        | None =>
            hc !! a = Some (OPlain qs)
            /\ (kids_of h2 idMap pid a prefix = [] \/ is_array h2 (lookup qs children))
            /\ (forall x, lookup qs children = VRef x ->
                  hc !! x = grown (h2 !! x) (kids_of h2 idMap pid a prefix))
        | Some l =>
            truthy (lookup qs children) = false
            /\ hc !! a = Some (OPlain (props_set qs children (VRef l)))
            /\ hc !! l = Some (OArray (kids_of h2 idMap pid a prefix))
            /\ kids_of h2 idMap pid a prefix <> []
        end)
  /\ (forall a l, kl a = Some l -> length h2 <= l < length hc)
  /\ (forall a a' l, kl a = Some l -> kl a' = Some l -> a = a')
  /\ (forall x,
        x < length h2 -> x <> tree -> VRef x ∉ cs ->
        (forall a qs, VRef a ∈ cs -> h2 !! a = Some (OPlain qs) ->
           lookup qs children <> VRef x) ->
        hc !! x = h2 !! x).

(** What the loop relies on: [d] is the list of the records [cs], [tree]
    another, empty array, every record is a plain object, the object a
    record has as its children value is no record, neither list, and the
    children value of no other record; every record that is not a root has
    its parent in the index, a record that can be given children; and
    reading the parent key does not read the children key, unless no
    record is given children before its turn. *)
Definition ready (h2 : heap) (d tree : loc) (cs : list value) (idMap : Map)
    (pid children : string) : Prop :=
  h2 !! d = Some (OArray cs)
  /\ h2 !! tree = Some (OArray [])
  /\ d <> tree
  /\ Forall
       (fun c =>
          exists a qs,
            c = VRef a /\ h2 !! a = Some (OPlain qs)
            /\ forall x, lookup qs children = VRef x ->
                 x < length h2 /\ x <> d /\ x <> tree /\ VRef x ∉ cs)
       cs
  /\ (forall a a' qs qs' x,
        VRef a ∈ cs -> VRef a' ∈ cs ->
        h2 !! a = Some (OPlain qs) -> h2 !! a' = Some (OPlain qs') ->
        lookup qs children = VRef x -> lookup qs' children = VRef x -> a = a')
  /\ (forall c, c ∈ cs -> truthy (field h2 c pid) = true ->
        Map_get idMap (field h2 c pid) ∈ cs
        /\ can_take_children h2 (Map_get idMap (field h2 c pid)) children)
  /\ (pid <> children
      \/ forall i a, cs !! i = Some (VRef a) ->
           kids_of h2 idMap pid a (take i cs) = []).

(** The last position of [items] at which [f] holds. *)
Fixpoint find_last (f : value -> bool) (items : list value) : option nat :=
  match items with
  | [] => None
  | x :: rest =>
      match find_last f rest with
      | Some i => Some (S i)
      | None => if f x then Some 0 else None
      end
  end.

Definition is_index (o : option nat) (i : nat) : bool :=
  match o with Some k => Nat.eqb k i | None => false end.

(** The parent of a record whose parent key is [p]: the last record of the
    list whose id is [p]. *)
Definition parent_index (h : heap) (id : string) (items : list value) (p : value)
  : option nat :=
  find_last (fun it => SameValueZero (field h it id) p) items.

(** The copies [cs] of the records [items] that are roots, and those that
    are children of the record at position [i], in the order of the list. *)
Definition roots (h : heap) (pid : string) (items cs : list value) : list value :=
  map snd
    (List.filter (fun ic => negb (truthy (field h (fst ic) pid))) (combine items cs)).

Definition children_of (h : heap) (id pid : string) (items cs : list value) (i : nat)
  : list value :=
  map snd
    (List.filter
       (fun ic =>
          truthy (field h (fst ic) pid)
          && is_index (parent_index h id items (field h (fst ic) pid)) i)
       (combine items cs)).

(** [v'] in [h'] is the same plain data as [v] in [h]. *)
Definition same_data (h h' : heap) (v v' : value) : Prop :=
  exists t, repr h v t /\ repr h' v' t.

(** The copy [c] of the record [item] in the tree: a new plain object with
    the data of [item] under every key but the children key, which holds,
    when the record has children [kids], an array of them: a new one, or
    the copy of the array [item] had, with [kids] after the copies of its
    elements. *)
Definition placed (h h' : heap) (children : string) (item c : value)
    (kids : list value) : Prop :=
  exists a qs,
    c = VRef a /\ length h <= a /\ h' !! a = Some (OPlain qs)
    /\ (forall key, key <> children \/ kids = [] ->
          same_data h h' (own_field h item key) (props_get qs key))
    /\ (kids <> [] ->
          exists l es',
            props_get qs children = VRef l /\ length h <= l
            /\ h' !! l = Some (OArray (es' ++ kids))
            /\ Forall2 (same_data h h') (elements h (field h item children)) es').

(** The record [JSON.parse('{"__proto__": 5, "a": 1}')]. *)
Definition proto_key_record : list object :=
  [ OPlain [("__proto__", VNumber 5%float); ("a", VNumber 1%float)] ]%string.

(** A record whose own [__proto__] property holds the id, and a record that
    names it as parent:
    [[JSON.parse('{"__proto__": {"id": 7}}'), {id: 2, pid: 7}]]. *)
Definition proto_parent : list object :=
  [ OPlain [("id", VNumber 7%float)];
    OPlain [("__proto__", VRef 0)];
    OPlain [("id", VNumber 2%float); ("pid", VNumber 7%float)];
    OArray [VRef 1; VRef 2] ]%string.

(** Two functions that carry an id and a parent id, and the list of them:
    [a.id = 1; a.pid = 0; b.id = 2; b.pid = 1; [a, b]]. *)
Definition function_records : list object :=
  [ OFunction [("id", VNumber 1%float); ("pid", VNumber 0%float)];
    OFunction [("id", VNumber 2%float); ("pid", VNumber 1%float)];
    OArray [VFun 0; VFun 1] ]%string.

(** Two records, the first of which already has a truthy, non-array
    [children] value: [[{id:1, pid:0, children:5}, {id:2, pid:1}]]. *)
Definition taken_children : list object :=
  [ OPlain [("id", VNumber 1%float); ("pid", VNumber 0%float);
            ("children", VNumber 5%float)];
    OPlain [("id", VNumber 2%float); ("pid", VNumber 1%float)];
    OArray [VRef 0; VRef 1] ]%string.

(** A record that has a child already, and another child for it:
    [[{id:1, pid:0, children:[{id:9}]}, {id:2, pid:1}]]. *)
Definition has_children : list object :=
  [ OPlain [("id", VNumber 9%float)];
    OArray [VRef 0];
    OPlain [("id", VNumber 1%float); ("pid", VNumber 0%float); ("children", VRef 1)];
    OPlain [("id", VNumber 2%float); ("pid", VNumber 1%float)];
    OArray [VRef 2; VRef 3] ]%string.

(** The list [[{id:1, pid:0}, {id:2, pid:1}, {id:3, pid:1}]], at location 3. *)
Definition family : list object :=
  [ OPlain [("id", VNumber 1%float); ("pid", VNumber 0%float)];
    OPlain [("id", VNumber 2%float); ("pid", VNumber 1%float)];
    OPlain [("id", VNumber 3%float); ("pid", VNumber 1%float)];
    OArray [VRef 0; VRef 1; VRef 2] ]%string.

(** ** [getUuid] *)

(** [ToInt32], the conversion the bitwise operators apply. *)
Definition ToInt32 (x : Host.number) : Z :=
  match Host.ToIntegerOrInfinity x with
  | None => 0
  | Some n =>
      let m := (n mod 2 ^ 32)%Z in
      if (2 ^ 31 <=? m)%Z then (m - 2 ^ 32)%Z else m
  end.

(** [v.toString(16)] for an integer [v]. *)
Definition toString16 (v : Z) : string :=
  (if (v <? 0)%Z then "-" else "")
  +:+ HexadecimalString.NilZero.string_of_uint (N.to_hex_uint (Z.to_N (Z.abs v))).

(** The function that replaces a matched character [c]; [u] is what
    [Math.random()] returns to it. *)
Definition replacer (u : Host.number) (c : ascii) : string :=
  let r := Z.lor (ToInt32 (u * 16)%float) 0 in
  let v := if Ascii.eqb c "x" then r else Z.lor (Z.land r 3) 8 in
  toString16 v.

(** [str.replace(/[xy]/g, ...)]: every [x] and [y] is replaced, from left
    to right; [random n] is the [n]-th number [Math.random()] returns. *)
Fixpoint replace_xy (random : nat -> Host.number) (str : string) (n : nat) : string :=
  match str with
  | EmptyString => EmptyString
  | String c str' =>
      if Ascii.eqb c "x" || Ascii.eqb c "y"
      then replacer (random n) c +:+ replace_xy random str' (S n)
      else String c (replace_xy random str' n)
  end.

(** [getUuid(str = 'xxyyxxx3xyxx7xx4yxx2xxxx6xxxxxxx')]. *)
Definition getUuid (str : option string) (random : nat -> Host.number) : string :=
  replace_xy random (default "xxyyxxx3xyxx7xx4yxx2xxxx6xxxxxxx"%string str) 0.

(** What a character of the template becomes. *)
Definition hex_digits : list ascii :=
  ["0"; "1"; "2"; "3"; "4"; "5"; "6"; "7"; "8"; "9"; "a"; "b"; "c"; "d"; "e"; "f"]%char.

Definition filled (c c' : ascii) : Prop :=
  if Ascii.eqb c "x" then c' ∈ hex_digits
  else if Ascii.eqb c "y" then c' ∈ ["8"; "9"; "a"; "b"]%char
  else c' = c.

(** ** Traces of a wrapper *)

(** The invocations of a wrapper in a trace that starts at time [t], each
    with its time. *)
Fixpoint invocations {Args} (es : list (event Args)) (t : nat) : list (nat * Args) :=
  match es with
  | [] => []
  | Call args :: es' => (t, args) :: invocations es' t
  | Wait d :: es' => invocations es' (t + d)
  end.

(** An invocation, [wait] ms later. *)
Definition delayed {Args} (wait : nat) (c : nat * Args) : nat * Args :=
  (fst c + wait, snd c).

(** * Properties *)

(** ** [formatBytes] *)

Section FormatBytes.

Local Open Scope float_scope.

Lemma zero_is_zero : Prim2SF 0 = S754_zero false.
Proof. reflexivity. Qed.

(** A number that is [<= 0] is not [> 0]. *)
Lemma leb_zero_not_pos (x : float) : (x <=? 0) = true -> (0 <? x) = false.
Proof.
  rewrite FloatAxioms.leb_spec, FloatAxioms.ltb_spec, zero_is_zero.
  unfold SFleb, SFltb.
  destruct (Prim2SF x) as [s | s | | s m e]; simpl; try done.
  - by destruct s.
  - by destruct s.
Qed.

(** [dm], the number of decimals [formatBytes] works with. *)
Lemma dm_zero (decimal : float) :
  (decimal <=? 0) = true ->
  (if Host.number_truthy decimal && (0 <? decimal) then decimal else 0) = 0.
Proof.
  intros H. rewrite (leb_zero_not_pos _ H). by rewrite andb_false_r.
Qed.

(** The loop stops within the table of units. *)
Lemma scale_index (room : nat) (bytes : float) (i : nat) :
  (snd (scale room bytes i) <= i + room)%nat.
Proof.
  revert bytes i. induction room as [| room IH]; intros bytes i; simpl; [lia |].
  destruct (k <=? bytes); simpl; [| lia].
  specialize (IH (bytes / k) (S i)). lia.
Qed.

(** The loop stops at the last unit or below [k]. *)
Lemma scale_stops (room : nat) (bytes : float) (i : nat) :
  snd (scale room bytes i) = (i + room)%nat
  \/ (k <=? fst (scale room bytes i)) = false.
Proof.
  revert bytes i. induction room as [| room IH]; intros bytes i; simpl.
  - left. lia.
  - destruct (k <=? bytes) eqn:E; simpl.
    + destruct (IH (bytes / k) (S i)) as [-> | ->]; [left; lia | by right].
    + by right.
Qed.

(** C2, as the code has it: [formatBytes(0)] is ["0B"], [formatBytes(1024)]
    is ["1KB"], [formatBytes(1536, 2)] is ["1.50KB"] (the two fixed
    decimals are kept, since they are not all zeros) and
    [formatBytes(1000, 0)] is ["1000B"]. *)
Theorem formatBytes_examples :
  formatBytes 0 None = Ok "0B"%string
  /\ formatBytes 1024 None = Ok "1KB"%string
  /\ formatBytes 1536 (Some 2) = Ok "1.50KB"%string
  /\ formatBytes 1000 (Some 0) = Ok "1000B"%string.
Proof. repeat split; vm_compute; reflexivity. Qed.

(** C2, as stated, fails: [formatBytes(1536, 2)] is not ["1.5KB"]. *)
Lemma formatBytes_1536_2_not_short :
  formatBytes 1536 (Some 2) <> Ok "1.5KB"%string.
Proof. vm_compute. discriminate. Qed.

(** C3, as the code has it: for non-zero [bytes] and [decimal <= 0] the
    scaled value is rendered by the plain number-to-string conversion
    (fraction included), followed by the unit the loop stopped at, which is
    one of the nine units. *)
Theorem formatBytes_no_decimals (bytes decimal : float) :
  (bytes =? 0) = false ->
  (decimal <=? 0) = true ->
  formatBytes bytes (Some decimal)
  = Ok (Host.Number_toString (fst (scale (length units - 1) bytes 0))
        +:+ unit_at (snd (scale (length units - 1) bytes 0)))
  /\ (snd (scale (length units - 1) bytes 0) < length units)%nat.
Proof.
  intros Hb Hd. split.
  - unfold formatBytes. simpl default. rewrite Hb, (dm_zero _ Hd).
    destruct (scale (length units - 1) bytes 0) as [b i]. reflexivity.
  - pose proof (scale_index (length units - 1) bytes 0) as H.
    simpl in *. lia.
Qed.

Lemma formatBytes_no_decimals_witness :
  formatBytes 1536 (Some 0) = Ok "1.5KB"%string.
Proof.
  destruct (formatBytes_no_decimals 1536 0) as [H _]; [reflexivity | reflexivity |].
  rewrite H. vm_compute. reflexivity.
Defined.

(** C3, as stated, fails: [formatBytes(1536, 0)] keeps the fraction of
    [1.5] instead of rendering the integer part [1]. *)
Lemma formatBytes_1536_0_keeps_fraction :
  (1536 =? 0) = false /\ (0 <=? 0) = true /\ ~ renders_integer_part 1536 0.
Proof.
  split; [reflexivity |]. split; [reflexivity |].
  unfold renders_integer_part. vm_compute. discriminate.
Qed.

End FormatBytes.

(** ** Values and [Map] keys *)

Section Keys.

Lemma SFeqb_refl_iff (f : spec_float) : SFeqb f f = false <-> f = S754_nan.
Proof.
  unfold SFeqb. destruct f as [s | s | | s m e]; simpl; split; try done.
  - by destruct s.
  - destruct s; rewrite Z.compare_refl, Pcompare_refl; done.
Qed.

Lemma SFeqb_true_iff (f g : spec_float) :
  SFeqb f g = true
  <-> f <> S754_nan /\ g <> S754_nan
      /\ match f, g with
         | S754_zero _, S754_zero _ => True
         | _, _ => f = g
         end.
Proof.
  unfold SFeqb.
  destruct f as [s | s | | s m e], g as [s' | s' | | s' m' e']; simpl;
    try (repeat match goal with b : bool |- _ => destruct b end;
         (split; [done | intros (? & ? & ?); done])).
  destruct s, s'; try (split; [done | intros (? & ? & ?); done]).
  - destruct (Z.compare_spec e e') as [-> | |];
      try (split; [done | intros (? & ? & [= ? ?]); lia]).
    destruct (Pos.compare_cont Eq m m') eqn:E; simpl.
    + apply Pcompare_Eq_eq in E as ->. done.
    + split; [done |]. intros (? & ? & [= ->]). by rewrite Pcompare_refl in E.
    + split; [done |]. intros (? & ? & [= ->]). by rewrite Pcompare_refl in E.
  - destruct (Z.compare_spec e e') as [-> | |];
      try (split; [done | intros (? & ? & [= ? ?]); lia]).
    destruct (Pos.compare_cont Eq m m') eqn:E; simpl.
    + apply Pcompare_Eq_eq in E as ->. done.
    + split; [done |]. intros (? & ? & [= ->]). by rewrite Pcompare_refl in E.
    + split; [done |]. intros (? & ? & [= ->]). by rewrite Pcompare_refl in E.
Qed.

Lemma is_NaN_iff (x : float) : is_NaN x = true <-> Prim2SF x = S754_nan.
Proof.
  unfold is_NaN. rewrite FloatAxioms.eqb_spec, negb_true_iff. apply SFeqb_refl_iff.
Qed.

(** [SameValueZero] is equality of keys. *)
Lemma SameValueZero_iff (v w : value) :
  SameValueZero v w = true <-> key_of v = key_of w.
Proof.
  destruct v as [| | a | x | s | l | l | s], w as [| | b | y | t | l' | l' | t];
    simpl; try done.
  - destruct a, b; simpl; split; try done; by intros [=].
  - rewrite orb_true_iff, andb_true_iff, FloatAxioms.eqb_spec, SFeqb_true_iff, !is_NaN_iff.
    unfold number_class.
    destruct (Prim2SF x) as [s | s | | s m e], (Prim2SF y) as [s' | s' | | s' m' e'];
      split; try (intros [(? & ? & ?) | [? ?]]); try (intros [=]); simplify_eq; eauto;
      try (left; done).
  - rewrite String.eqb_eq. split; [by intros -> | by intros [=]].
  - rewrite Nat.eqb_eq. split; [by intros -> | by intros [=]].
  - rewrite Nat.eqb_eq. split; [by intros -> | by intros [=]].
  - rewrite String.eqb_eq. split; [by intros -> | by intros [=]].
Qed.

Lemma SameValueZero_false_iff (v w : value) :
  SameValueZero v w = false <-> key_of v <> key_of w.
Proof.
  rewrite <- SameValueZero_iff. by destruct (SameValueZero v w).
Qed.

Lemma SameValueZero_refl (v : value) : SameValueZero v v = true.
Proof. by apply SameValueZero_iff. Qed.

(** Two keys that are the same key find the same entry. *)
Lemma SameValueZero_trans_eq (u v w : value) :
  SameValueZero u v = true -> SameValueZero u w = SameValueZero v w.
Proof.
  intros H%SameValueZero_iff.
  destruct (SameValueZero v w) eqn:E.
  - apply SameValueZero_iff in E. apply SameValueZero_iff. congruence.
  - apply SameValueZero_false_iff in E. apply SameValueZero_false_iff. congruence.
Qed.

(** [map.get] after [map.set]. *)
Lemma Map_get_set (m : Map) (k x k' : value) :
  Map_get (Map_set m k x) k' = if SameValueZero k k' then x else Map_get m k'.
Proof.
  induction m as [| [k0 x0] m IH]; simpl.
  - reflexivity.
  - destruct (SameValueZero k0 k) eqn:E; simpl.
    + rewrite (SameValueZero_trans_eq _ _ k' E).
      by destruct (SameValueZero k k').
    + rewrite IH. destruct (SameValueZero k0 k') eqn:E'; [| done].
      destruct (SameValueZero k k') eqn:E''; [| done].
      apply SameValueZero_iff in E', E''. apply SameValueZero_false_iff in E.
      congruence.
Qed.

End Keys.

(** ** The monad *)

Section Monad.

Context {A B : Type}.

Lemma bind_eq (c : M A) (f : A -> M B) (h : heap) :
  bind c f h
  = match c h with
    | (Ok a, h') => f a h'
    | (Throw e, h') => (Throw e, h')
    | (Overflow, h') => (Overflow, h')
    | (Stuck, h') => (Stuck, h')
    end.
Proof. reflexivity. Qed.

Lemma bind_ok (c : M A) (f : A -> M B) (h h' : heap) (a : A) :
  c h = (Ok a, h') -> bind c f h = f a h'.
Proof. intros H. by rewrite bind_eq, H. Qed.

End Monad.

(** ** Loops that only read the heap *)

Section ReadOnlyLoops.

Context {St : Type}.

Lemma forEach_from_pure (f : value -> nat -> St -> M St)
    (g : value -> nat -> St -> res St) (h : heap) (l : loc) (vs : list value) :
  (forall item i s, f item i s h = (g item i s, h)) ->
  h !! l = Some (OArray vs) ->
  forall remaining index s,
    forEach_from f l remaining index s h
    = (fold_res g (take remaining (drop index vs)) index s, h).
Proof.
  intros Hf Hl. induction remaining as [| remaining IH]; intros index s; simpl.
  - reflexivity.
  - rewrite Hl. destruct (vs !! index) as [item |] eqn:E.
    + rewrite (drop_S _ _ _ E). simpl. unfold bind. rewrite Hf.
      destruct (g item index s); try reflexivity. apply IH.
    + rewrite IH. apply lookup_ge_None in E.
      rewrite !drop_ge by lia. by rewrite !take_nil.
Qed.

Lemma forEach_pure (f : value -> nat -> St -> M St)
    (g : value -> nat -> St -> res St) (h : heap) (l : loc) (vs : list value) (s : St) :
  (forall item i s, f item i s h = (g item i s, h)) ->
  h !! l = Some (OArray vs) ->
  forEach f (VRef l) s h = (fold_res g vs 0 s, h).
Proof.
  intros Hf Hl. unfold forEach. rewrite Hl.
  rewrite (forEach_from_pure f g h l vs Hf Hl). by rewrite drop_0, firstn_all.
Qed.

(** A body that always succeeds folds the list. *)
Lemma fold_res_ok (g : value -> nat -> St -> res St) (step : St -> value -> St)
    (items : list value) :
  forall index s,
    Forall (fun item => forall i s, g item i s = Ok (step s item)) items ->
    fold_res g items index s = Ok (fold_left step items s).
Proof.
  induction items as [| item items IH]; intros index s H; simpl; [done |].
  inversion H as [| ? ? H1 H2]; subst. rewrite H1. by apply IH.
Qed.

End ReadOnlyLoops.

(** ** [getSelectedItems] *)

Section GetSelectedItems.

Local Open Scope string_scope.

Lemma get_prop_record (h : heap) (item : value) (key : string) :
  is_record h item -> get_prop item key h = (Ok (field h item key), h).
Proof. intros (l & ps & -> & Hl). unfold get_prop, field. by rewrite Hl. Qed.

(** Reading a property never writes the heap. *)
Lemma get_prop_heap (v : value) (key : string) (h : heap) :
  snd (get_prop v key h) = h.
Proof.
  unfold get_prop. destruct v; try done.
  - by destruct (includes primitive_names key).
  - by destruct (includes primitive_names key).
  - destruct (h !! l) as [[| | proto ps |] |]; try done.
    destruct (props_has ps key); [done |].
    by destruct (proto_get (length h) h proto key) as [[] | | |].
  - destruct (h !! l) as [[| | | ps] |]; try done.
    destruct (props_has ps key); [done |]. by destruct (includes function_names key).
Qed.

Lemma valueMap_build (h : heap) (valueKey getKey : string) (flag : bool)
    (d : loc) (items : list value) :
  h !! d = Some (OArray items) ->
  Forall (is_record h) items ->
  forEach
    (fun item (_ : nat) (valueMap : Map) =>
       let* key := get_prop item valueKey in
       let* x := (if flag then get_prop item getKey else ret item) in
       ret (Map_set valueMap key x))
    (VRef d) [] h
  = (Ok (fold_left (entry h valueKey getKey flag) items []), h).
Proof.
  intros Hd Hrec.
  erewrite (forEach_pure _
    (fun item i m =>
       fst ((let* key := get_prop item valueKey in
             let* x := (if flag then get_prop item getKey else ret item) in
             ret (Map_set m key x)) h))); [| | exact Hd].
  - f_equal. apply fold_res_ok.
    eapply Forall_impl; [exact Hrec |]. intros item Hitem i m. simpl.
    unfold bind, entry. rewrite (get_prop_record _ _ _ Hitem).
    destruct flag; [by rewrite (get_prop_record _ _ _ Hitem) | done].
  - intros item i m. unfold bind.
    pose proof (get_prop_heap item valueKey h) as H1.
    destruct (get_prop item valueKey h) as [[key | | |] h1]; simpl in *; subst; try done.
    destruct flag; [| done].
    pose proof (get_prop_heap item getKey h) as H2.
    destruct (get_prop item getKey h) as [[x | | |] h2]; simpl in *; subst; done.
Qed.

(** Looking a key up after the whole list was entered finds the last
    record that has it. *)
Lemma Map_get_last (step : Map -> value -> Map) (keyf valf : value -> value)
    (v : value) (post : list value) :
  (forall m item, step m item = Map_set m (keyf item) (valf item)) ->
  Forall (fun item => SameValueZero (keyf item) v = false) post ->
  forall m, Map_get (fold_left step post m) v = Map_get m v.
Proof.
  intros Hstep. induction post as [| item post IH]; intros H m; simpl; [done |].
  inversion H as [| ? ? H1 H2]; subst.
  rewrite IH by done. rewrite Hstep, Map_get_set. by rewrite H1.
Qed.

(** A [value] that is neither a string nor a number, arrays included, is
    rejected before any lookup. *)
Lemma getSelectedItems_rejects (data : value) (options : IOptions) (h : heap) :
  includes ["string"; "number"] (typeof (value_ options)) = false ->
  (forall l, value_ options = VRef l -> is_Some (h !! l)) ->
  getSelectedItems data options h
  = (Throw (Error (type_error_message (typeof (value_ options)))), h).
Proof.
  intros Hty Hl. unfold getSelectedItems, bind.
  destruct (value_ options) as [| | b | x | s | l | l | s] eqn:E; simpl in *;
    try done.
  - destruct (Hl l eq_refl) as [o Ho]. rewrite Ho. by destruct o.
  - by destruct (String.eqb s "__proto__").
Qed.

(** C1, on the specification's own example: with options [{value: ['a','b']}]
    the call throws instead of returning [['A','B']]; the heap is left as
    it was. *)
Theorem getSelectedItems_array_value_throws :
  let h := [ OPlain [("value", VString "a"); ("label", VString "A")];
             OPlain [("value", VString "b"); ("label", VString "B")];
             OArray [VRef 0; VRef 1];
             OArray [VString "a"; VString "b"] ] in
  getSelectedItems (VRef 2)
    {| valueKey := None; value_ := VRef 3; getKey := None; flag := None |} h
  = (Throw (Error (type_error_message "object")), h).
Proof. reflexivity. Qed.

(** C10: when several records carry the looked-up [valueKey] value, the
    last of them in the list answers the lookup: [item] is that record,
    [post] the records after it, none of which has the value. *)
Theorem getSelectedItems_last_wins (h : heap) (d : loc) (options : IOptions)
    (pre post : list value) (item : value) :
  let valueKey' := default "value" (valueKey options) in
  let getKey' := default "label" (getKey options) in
  let flag' := default true (flag options) in
  h !! d = Some (OArray (pre ++ item :: post)) ->
  Forall (is_record h) (pre ++ item :: post) ->
  includes ["string"; "number"] (typeof (value_ options)) = true ->
  SameValueZero (field h item valueKey') (value_ options) = true ->
  Forall (fun later => SameValueZero (field h later valueKey') (value_ options) = false)
    post ->
  getSelectedItems (VRef d) options h
  = (Ok (if flag' then field h item getKey' else item), h).
Proof.
  intros valueKey' getKey' flag' Hd Hrec Hty Hitem Hpost.
  unfold getSelectedItems.
  assert (isArray (value_ options) h = (Ok false, h)) as Harr.
  { destruct (value_ options); simpl in *; done. }
  rewrite (bind_ok _ _ _ _ _ Harr).
  rewrite Hty.
  assert (String.eqb (typeof (value_ options)) "object" = false) as ->.
  { destruct (value_ options) as [| | | | | | | s]; simpl in *; try done.
    by destruct (String.eqb s "__proto__"). }
  cbn [negb orb andb].
  fold valueKey' getKey' flag'.
  rewrite (bind_ok _ _ _ _ _ (valueMap_build h valueKey' getKey' flag' d _ Hd Hrec)).
  unfold ret. f_equal. f_equal.
  rewrite fold_left_app. simpl.
  rewrite (Map_get_last _ (fun it => field h it valueKey')
             (fun it => if flag' then field h it getKey' else it)); [| done | done].
  unfold entry at 1. rewrite Map_get_set. by rewrite Hitem.
Qed.

Lemma getSelectedItems_last_wins_witness :
  let h := [ OPlain [("value", VString "a"); ("label", VString "A")];
             OPlain [("value", VString "b"); ("label", VString "B")];
             OPlain [("value", VString "a"); ("label", VString "C")];
             OPlain [("value", VString "d"); ("label", VString "D")];
             OArray [VRef 0; VRef 1; VRef 2; VRef 3] ] in
  getSelectedItems (VRef 4)
    {| valueKey := None; value_ := VString "a"; getKey := None; flag := None |} h
  = (Ok (VString "C"), h).
Proof.
  intros h.
  apply (getSelectedItems_last_wins h 4
           {| valueKey := None; value_ := VString "a"; getKey := None; flag := None |}
           [VRef 0; VRef 1] [VRef 3] (VRef 2)).
  - reflexivity.
  - repeat constructor; eexists _, _; (split; [reflexivity | reflexivity]).
  - reflexivity.
  - reflexivity.
  - repeat constructor.
Defined.

End GetSelectedItems.

(** ** [debounce] and [throttle] *)

Section TimerProperties.

Context {Args : Type}.

Implicit Types (w : world Args) (es : list (event Args)) (cb : callback Args).

(** *** The event loop *)

Lemma next_due_in t (ps : list (timer_id * nat * callback Args)) p :
  next_due t ps = Some p -> p ∈ ps /\ snd (fst p) <= t.
Proof.
  revert p. induction ps as [| q ps IH]; intros p; simpl; [done |].
  destruct (next_due t ps) as [r |].
  - destruct (IH r eq_refl) as [Hr Hr'].
    destruct (snd (fst q) <=? t) eqn:E; simpl.
    + destruct (snd (fst q) <=? snd (fst r)); intros [= <-].
      * split; [left | by apply Nat.leb_le].
      * split; [by right | done].
    + intros [= <-]. split; [by right | done].
  - destruct (snd (fst q) <=? t) eqn:E; [| done].
    intros [= <-]. split; [left | by apply Nat.leb_le].
Qed.

Lemma next_due_none t (ps : list (timer_id * nat * callback Args)) :
  next_due t ps = None <-> Forall (fun p => t < snd (fst p)) ps.
Proof.
  induction ps as [| q ps IH]; simpl; [done |].
  destruct (next_due t ps) as [r |].
  - split.
    + by destruct (_ && _).
    + intros H. inversion H as [| ? ? H1 H2]; subst.
      apply IH in H2. done.
  - destruct (snd (fst q) <=? t) eqn:E.
    + split; [done |]. intros H. inversion H as [| ? ? H1 H2]; subst.
      apply Nat.leb_le in E. lia.
    + split; [| done]. intros _. constructor; [| by apply IH].
      apply Nat.leb_gt in E. lia.
Qed.

(** No callback schedules a timer. *)
Lemma run_callback_pending cb w :
  length (pending (run_callback cb w)) <= length (pending w).
Proof.
  destruct cb; simpl; [done |].
  destruct (timer w); simpl; [| done]. apply List.filter_length_le.
Qed.

Lemma filter_id_shorter (ps : list (timer_id * nat * callback Args)) p :
  p ∈ ps ->
  length (List.filter (fun q => negb (Nat.eqb (fst (fst q)) (fst (fst p)))) ps)
  < length ps.
Proof.
  induction ps as [| q ps IH]; intros H; [by apply elem_of_nil in H |].
  simpl. apply elem_of_cons in H as [<- | H].
  - rewrite Nat.eqb_refl. simpl.
    apply Nat.lt_succ_r, List.filter_length_le.
  - specialize (IH H). destruct (negb _); simpl.
    + by apply Nat.succ_lt_mono in IH.
    + by apply Nat.lt_lt_succ_r.
Qed.

(** The fuel [wait_for] gives the event loop is enough: when it returns,
    no pending timer is due. *)
Lemma run_timers_settles fuel t w :
  length (pending w) <= fuel ->
  next_due t (pending (run_timers fuel t w)) = None.
Proof.
  revert w. induction fuel as [| fuel IH]; intros w Hlen; simpl.
  - destruct (pending w); simpl in *; [done | lia].
  - destruct (next_due t (pending w)) as [[[id due] cb] |] eqn:E; [| done].
    apply IH. apply next_due_in in E as [Hin _].
    etrans; [apply run_callback_pending |]. simpl.
    pose proof (filter_id_shorter _ _ Hin) as H. simpl in H.
    apply Nat.lt_succ_r. eapply Nat.lt_le_trans; [exact H | exact Hlen].
Qed.

Lemma wait_for_settles d w :
  next_due (now w + d) (pending (wait_for d w)) = None.
Proof. unfold wait_for. simpl. by apply run_timers_settles. Qed.

(** Time passing with nothing pending, or nothing due. *)
Lemma wait_for_not_due d w :
  Forall (fun p => now w + d < snd (fst p)) (pending w) ->
  wait_for d w
  = {| now := now w + d; next_id := next_id w; pending := pending w;
       timer := timer w; calls := calls w |}.
Proof.
  intros H%next_due_none. unfold wait_for.
  destruct (pending w) as [| p ps] eqn:E; simpl.
  - by rewrite E.
  - unfold run_timers. rewrite E, H. simpl. by rewrite E.
Qed.

(** *** The states of a debounced function *)

Lemma debounce_call wait args w :
  debounce_inv w ->
  deferred (debounce wait args w) (next_id w) (now w + wait) args
  /\ calls (debounce wait args w) = calls w
  /\ now (debounce wait args w) = now w.
Proof.
  intros [Hs | (id & due & a & Hp & Ht & _)]; unfold debounce, deferred.
  - red in Hs. destruct (timer w); simpl; rewrite ?Hs; simpl; (split_and!; [done.. | lia | done | done]).
  - rewrite Ht. simpl. rewrite Hp. simpl. rewrite Nat.eqb_refl. simpl.
    split_and!; [done.. | lia | done | done].
Qed.

Lemma deferred_wait_short d w id due args :
  deferred w id due args -> now w + d < due ->
  deferred (wait_for d w) id due args
  /\ calls (wait_for d w) = calls w
  /\ now (wait_for d w) = now w + d.
Proof.
  intros (Hp & Ht & Hn) Hd. rewrite wait_for_not_due.
  - unfold deferred. simpl. split_and!; [done.. | lia | done | done].
  - rewrite Hp. repeat constructor. simpl. lia.
Qed.

Lemma deferred_wait_long d w id due args :
  deferred w id due args -> due <= now w + d ->
  settled (wait_for d w)
  /\ calls (wait_for d w) = calls w ++ [(due, args)]
  /\ now (wait_for d w) = now w + d.
Proof.
  intros (Hp & Ht & Hn) Hd. unfold wait_for, settled. rewrite Hp. simpl.
  rewrite Hp. simpl.
  assert ((due <=? now w + d) = true) as -> by by apply Nat.leb_le.
  simpl. rewrite Nat.eqb_refl. simpl.
  split_and!; [done | | done]. do 3 f_equal. lia.
Qed.

Lemma settled_wait d w :
  settled w ->
  settled (wait_for d w) /\ calls (wait_for d w) = calls w.
Proof.
  intros Hs. rewrite wait_for_not_due; [done |]. red in Hs. by rewrite Hs.
Qed.

Lemma debounce_inv_step wait e w :
  debounce_inv w -> debounce_inv (step (debounce wait) e w).
Proof.
  intros H. destruct e as [args | d]; simpl.
  - right. eexists _, _, _. by apply debounce_call.
  - destruct H as [Hs | (id & due & a & Hd)].
    + left. by apply settled_wait.
    + destruct (decide (now w + d < due)).
      * right. eexists _, _, _. by apply deferred_wait_short.
      * left. eapply deferred_wait_long; [done | lia].
Qed.

Lemma debounce_inv_run wait es w :
  debounce_inv w -> debounce_inv (run (debounce wait) es w).
Proof.
  revert w. induction es as [| e es IH]; intros w H; simpl; [done |].
  apply IH. by apply debounce_inv_step.
Qed.

Lemma debounce_inv_init : debounce_inv (@init Args).
Proof. by left. Qed.

Lemma last_cons_default (a d : Args) (l : list Args) :
  List.last (a :: l) d = List.last l a.
Proof.
  revert a d. induction l as [| b l IH]; intros a d; [done |].
  change (List.last (a :: b :: l) d) with (List.last (b :: l) d).
  by rewrite !IH.
Qed.

(** A burst whose gaps are all shorter than [wait] keeps one deferred
    call pending: the one of its last invocation. *)
Lemma debounce_burst wait (gaps : list (nat * Args)) :
  Forall (fun g => fst g < wait) gaps ->
  forall w id args,
    deferred w id (now w + wait) args ->
    exists id',
      deferred (run (debounce wait) (burst gaps) w) id'
        (now w + gaps_total gaps + wait) (last_args args gaps)
      /\ calls (run (debounce wait) (burst gaps) w) = calls w
      /\ now (run (debounce wait) (burst gaps) w) = now w + gaps_total gaps.
Proof.
  induction 1 as [| [d a] gaps Hd _ IH]; intros w id args Hw.
  - exists id. simpl. rewrite !Nat.add_0_r. done.
  - simpl in Hd. simpl run.
    destruct (deferred_wait_short d w id _ args Hw) as (H1 & H2 & H3); [lia |].
    destruct (debounce_call wait a (wait_for d w)) as (H4 & H5 & H6).
    { right. exists id, (now w + wait), args. exact H1. }
    rewrite H3 in H4.
    destruct (IH (debounce wait a (wait_for d w)) (next_id (wait_for d w)) a)
      as (id' & H7 & H8 & H9).
    { by rewrite H6, H3. }
    exists id'. rewrite H6, H3 in H7, H9. simpl gaps_total.
    replace (now w + (d + gaps_total gaps)) with (now w + d + gaps_total gaps) by lia.
    split_and!; [| congruence | done].
    unfold last_args in *. simpl map. by rewrite last_cons_default.
Qed.

(** C9: every invocation of a debounced function replaces the pending
    deferred call by one due [wait] ms later.  After a burst of invocations
    whose gaps are all shorter than [wait] there is exactly one pending
    call, it carries the arguments of the last invocation and is due [wait]
    ms after it; [fn] has not run before that moment, runs exactly then,
    and does not run again afterwards. *)
Theorem debounce_runs_last_once (wait : nat) (trace : list (event Args))
    (args : Args) (gaps : list (nat * Args)) (d d' : nat) :
  let w := run (debounce wait) trace init in
  let w' := run (debounce wait) (Call args :: burst gaps) w in
  Forall (fun g => fst g < wait) gaps ->
  now w' = now w + gaps_total gaps
  /\ (exists id, pending w' = [(id, now w' + wait, ApplyFn (last_args args gaps))])
  /\ calls w' = calls w
  /\ (d < wait -> calls (wait_for d w') = calls w)
  /\ (wait <= d ->
      calls (wait_for d w') = calls w ++ [(now w' + wait, last_args args gaps)]
      /\ calls (wait_for d' (wait_for d w')) = calls (wait_for d w')).
Proof.
  intros w w' Hgaps.
  assert (debounce_inv w) as Hinv by apply debounce_inv_run, debounce_inv_init.
  destruct (debounce_call wait args w Hinv) as (H1 & H2 & H3).
  rewrite <- H3 in H1.
  destruct (debounce_burst wait gaps Hgaps _ _ _ H1) as (id' & H4 & H5 & H6).
  change (run (debounce wait) (burst gaps) (debounce wait args w)) with w' in *.
  rewrite H3 in H4, H6. rewrite H2 in H5.
  assert (deferred w' id' (now w' + wait) (last_args args gaps)) as Hdef.
  { by rewrite H6. }
  split_and!.
  - done.
  - exists id'. apply Hdef.
  - done.
  - intros Hd. destruct (deferred_wait_short d w' _ _ _ Hdef) as (_ & -> & _); [lia | done].
  - intros Hd.
    destruct (deferred_wait_long d w' _ _ _ Hdef) as (Hs & Hc & _); [lia |].
    split; [by rewrite Hc, H5 |]. by apply settled_wait.
Qed.

(** *** The states of a throttled function *)

Lemma throttle_call_idle fn wait args w :
  idle w -> fn args = Returns ->
  cooling (throttle fn wait args w) (next_id w) (now w + wait)
  /\ calls (throttle fn wait args w) = calls w ++ [(now w, args)]
  /\ now (throttle fn wait args w) = now w.
Proof.
  intros [Hp Ht] Hfn. unfold throttle, cooling. rewrite Ht, Hfn. simpl. by rewrite Hp.
Qed.

(** When [fn] throws, no cooldown starts. *)
Lemma throttle_call_throws fn wait args w :
  idle w -> fn args = Throws ->
  idle (throttle fn wait args w)
  /\ calls (throttle fn wait args w) = calls w ++ [(now w, args)]
  /\ now (throttle fn wait args w) = now w.
Proof.
  intros [Hp Ht] Hfn. unfold throttle, idle. rewrite Ht, Hfn. simpl. by rewrite Hp.
Qed.

Lemma throttle_call_cooling fn wait args w id due :
  cooling w id due -> throttle fn wait args w = w.
Proof. intros [_ Ht]. unfold throttle. by rewrite Ht. Qed.

Lemma cooling_wait_short d w id due :
  cooling w id due -> now w + d < due ->
  cooling (wait_for d w) id due
  /\ calls (wait_for d w) = calls w
  /\ now (wait_for d w) = now w + d.
Proof.
  intros [Hp Ht] Hd. rewrite wait_for_not_due; [done |].
  rewrite Hp. repeat constructor. simpl. lia.
Qed.

Lemma cooling_wait_long d w id due :
  cooling w id due -> due <= now w + d ->
  idle (wait_for d w)
  /\ calls (wait_for d w) = calls w
  /\ now (wait_for d w) = now w + d.
Proof.
  intros [Hp Ht] Hd. unfold wait_for, idle. rewrite Hp. simpl. rewrite Hp. simpl.
  assert ((due <=? now w + d) = true) as -> by by apply Nat.leb_le.
  simpl. rewrite Nat.eqb_refl. simpl. by rewrite Ht.
Qed.

Lemma idle_wait d w :
  idle w ->
  idle (wait_for d w)
  /\ calls (wait_for d w) = calls w
  /\ now (wait_for d w) = now w + d.
Proof.
  intros [Hp Ht]. rewrite wait_for_not_due; [done |]. by rewrite Hp.
Qed.

Lemma throttle_inv_step fn wait e w :
  throttle_inv w -> throttle_inv (step (throttle fn wait) e w).
Proof.
  intros [Hi | (id & due & Hc)]; destruct e as [args | d]; simpl.
  - destruct (fn args) eqn:Hfn.
    + right. eexists _, _. by apply throttle_call_idle.
    + left. by apply throttle_call_throws.
  - left. by apply idle_wait.
  - right. rewrite (throttle_call_cooling _ _ _ _ _ _ Hc). by eexists _, _.
  - destruct (decide (now w + d < due)).
    + right. exists id, due. by apply cooling_wait_short.
    + left. eapply cooling_wait_long; [done | lia].
Qed.

Lemma throttle_inv_run fn wait es w :
  throttle_inv w -> throttle_inv (run (throttle fn wait) es w).
Proof.
  revert w. induction es as [| e es IH]; intros w H; simpl; [done |].
  apply IH. by apply throttle_inv_step.
Qed.

Lemma throttle_inv_init : throttle_inv (@init Args).
Proof. by left. Qed.

(** While the cooldown timer is not due, invocations change nothing. *)
Lemma cooling_drops fn wait es :
  forall w id due,
    cooling w id due ->
    forallb is_call es = true \/ now w + elapsed es < due ->
    cooling (run (throttle fn wait) es w) id due
    /\ calls (run (throttle fn wait) es w) = calls w
    /\ now (run (throttle fn wait) es w) = now w + elapsed es.
Proof.
  induction es as [| [args | d] es IH]; intros w id due Hc Hes; simpl.
  - by rewrite Nat.add_0_r.
  - rewrite (throttle_call_cooling _ _ _ _ _ _ Hc). by apply IH.
  - destruct Hes as [Hes | Hes]; [done |]. simpl in Hes.
    destruct (cooling_wait_short d w id due Hc) as (H1 & H2 & H3); [lia |].
    destruct (IH (wait_for d w) id due H1) as (H4 & H5 & H6).
    { right. rewrite H3. lia. }
    split_and!; [done | congruence | rewrite H6, H3; lia].
Qed.

Lemma run_app wrapper es es' w :
  run wrapper (es ++ es') w = run wrapper es' (run wrapper es w).
Proof. unfold run. apply fold_left_app. Qed.


End TimerProperties.

Lemma debounce_runs_last_once_witness :
  calls (run (debounce 100) [Call 1; Wait 20; Call 2; Wait 20; Call 3; Wait 100] init)
  = [(140, 3)].
Proof.
  destruct (debounce_runs_last_once (Args := nat) 100 [] 1 [(20, 2); (20, 3)] 100 0)
    as (_ & _ & _ & _ & H).
  - repeat constructor; simpl; lia.
  - destruct (H ltac:(lia)) as [H1 _]. exact H1.
Defined.



(** ** Heaps, shapes and layouts *)

Section Heaps.

Implicit Types (h : heap) (v : value) (t : shape) (l lo hi : nat).

Lemma extends_refl h : extends h h.
Proof. by intros l o. Qed.

Lemma extends_trans h1 h2 h3 : extends h1 h2 -> extends h2 h3 -> extends h1 h3.
Proof. intros H1 H2 l o Hl. by apply H2, H1. Qed.

Lemma extends_length h h' : extends h h' -> length h <= length h'.
Proof.
  intros H. destruct (decide (length h <= length h')) as [| Hn]; [done |].
  destruct (lookup_lt_is_Some_2 h (length h')) as [o Ho]; [lia |].
  apply H in Ho. apply lookup_lt_Some in Ho. lia.
Qed.

Lemma extends_alloc h o : extends h (h ++ [o]).
Proof. intros l o' Hl. by apply lookup_app_l_Some. Qed.

(** Writing to a location beyond [h] leaves [h] as it is. *)
Lemma extends_insert h h' l o :
  extends h h' -> length h <= l -> extends h (<[l := o]> h').
Proof.
  intros H Hl l' o' Hl'. rewrite list_lookup_insert_ne.
  - by apply H.
  - apply lookup_lt_Some in Hl'. lia.
Qed.

Lemma extends_agree h h' l : extends h h' -> l < length h -> h' !! l = h !! l.
Proof.
  intros H Hl. destruct (lookup_lt_is_Some_2 h l Hl) as [o Ho].
  by rewrite Ho, (H _ _ Ho).
Qed.

(** Data of a shape keeps it when the heap grows. *)
Lemma repr_extends h h' v t : repr h v t -> extends h h' -> repr h' v t.
Proof.
  intros H Hext. induction H as [v Hv | l vs ts Hl _ IH | l ps fs Hl Hnd _ IH]
    using repr_ind'.
  - by constructor.
  - econstructor; [by apply Hext | done].
  - econstructor; [by apply Hext | done | done].
Qed.

Lemma chain_le {A B} (R : nat -> nat -> A -> B -> Prop) a b xs ys :
  (forall lo hi x y, R lo hi x y -> lo <= hi) ->
  chain R a b xs ys -> a <= b.
Proof.
  intros HR. induction 1 as [lo | lo mid hi x y xs ys H _ IH]; [done |].
  apply HR in H. lia.
Qed.

Lemma chain_mono {A B} (R R' : nat -> nat -> A -> B -> Prop) a b xs ys :
  (forall lo hi x y, R lo hi x y -> lo <= hi) ->
  chain R a b xs ys ->
  (forall lo hi x y, a <= lo -> hi <= b -> R lo hi x y -> R' lo hi x y) ->
  chain R' a b xs ys.
Proof.
  intros HR. induction 1 as [lo | lo mid hi x y xs ys H Hc IH]; intros Himp.
  - constructor.
  - pose proof (HR _ _ _ _ H) as H1.
    pose proof (chain_le R _ _ _ _ HR Hc) as H2.
    econstructor.
    + apply Himp; [done | done | done].
    + apply IH. intros lo' hi' x' y' Ha Hb. apply Himp; [lia | done].
Qed.

Lemma chain_snoc {A B} (R : nat -> nat -> A -> B -> Prop) a m b xs ys x y :
  chain R a m xs ys -> R m b x y -> chain R a b (xs ++ [x]) (ys ++ [y]).
Proof.
  induction 1 as [lo | lo mid hi x' y' xs ys H Hc IH]; intros HR; simpl.
  - econstructor; [done | constructor].
  - econstructor; [done | by apply IH].
Qed.

Lemma chain_length {A B} (R : nat -> nat -> A -> B -> Prop) a b xs ys :
  chain R a b xs ys -> length xs = length ys.
Proof. induction 1; simpl; congruence. Qed.

(** A laid-out value spans a range, and only the heap in that range
    matters to it. *)
Lemma laid_frame h lo hi v t :
  laid h lo hi v t ->
  lo <= hi
  /\ forall h', (forall l, lo <= l < hi -> h' !! l = h !! l) -> laid h' lo hi v t.
Proof.
  induction 1 as [lo v Hv | lo hi vs ts Hl _ IH | lo hi ps fs Hl Hnd _ IH]
    using laid_ind'.
  - split; [done |]. intros h' _. by constructor.
  - assert (S lo <= hi) as Hle.
    { eapply chain_le; [| exact IH]. by intros ? ? ? ? [? _]. }
    split; [lia |]. intros h' Hagree. econstructor.
    + rewrite Hagree; [done | lia].
    + eapply chain_mono; [| exact IH |].
      * by intros ? ? ? ? [? _].
      * intros lo' hi' x y Ha Hb [_ H']. apply H'. intros l Hlr. apply Hagree. lia.
  - assert (S lo <= hi) as Hle.
    { eapply chain_le; [| exact IH]. by intros ? ? ? ? [_ [? _]]. }
    split; [lia |]. intros h' Hagree. econstructor.
    + rewrite Hagree; [done | lia].
    + done.
    + eapply chain_mono; [| exact IH |].
      * by intros ? ? ? ? [_ [? _]].
      * intros lo' hi' x y Ha Hb [Hk [_ H']]. split; [done |].
        apply H'. intros l Hlr. apply Hagree. lia.
Qed.

Lemma laid_le h lo hi v t : laid h lo hi v t -> lo <= hi.
Proof. intros H. by apply laid_frame in H as [? _]. Qed.

Lemma laid_agree h h' lo hi v t :
  laid h lo hi v t -> (forall l, lo <= l < hi -> h' !! l = h !! l) -> laid h' lo hi v t.
Proof. intros H. apply laid_frame in H as [_ H]. apply H. Qed.

Lemma chain_laid_agree h h' a b vs ts :
  chain (laid h) a b vs ts ->
  (forall l, a <= l < b -> h' !! l = h !! l) ->
  chain (laid h') a b vs ts.
Proof.
  intros Hc Hagree. eapply chain_mono; [apply laid_le | exact Hc |].
  intros lo hi x y Ha Hb H. eapply laid_agree; [done |].
  intros l Hl. apply Hagree. lia.
Qed.

Lemma chain_fields_agree h h' a b (ps : list (string * value)) fs :
  chain (fun a b p f => fst p = fst f /\ laid h a b (snd p) (snd f)) a b ps fs ->
  (forall l, a <= l < b -> h' !! l = h !! l) ->
  chain (fun a b p f => fst p = fst f /\ laid h' a b (snd p) (snd f)) a b ps fs.
Proof.
  intros Hc Hagree. eapply chain_mono; [| exact Hc |].
  - intros ? ? ? ? [_ H]. by apply laid_le in H.
  - intros lo hi x y Ha Hb [Hk H]. split; [done |]. eapply laid_agree; [done |].
    intros l Hl. apply Hagree. lia.
Qed.

(** A laid-out value has its shape. *)
Lemma chain_Forall2 {A B} (R : nat -> nat -> A -> B -> Prop) (R' : A -> B -> Prop)
    a b xs ys :
  chain R a b xs ys -> (forall lo hi x y, R lo hi x y -> R' x y) -> Forall2 R' xs ys.
Proof. induction 1; intros Himp; constructor; eauto. Qed.

Lemma laid_repr h lo hi v t : laid h lo hi v t -> repr h v t.
Proof.
  induction 1 as [lo v Hv | lo hi vs ts Hl _ IH | lo hi ps fs Hl Hnd _ IH]
    using laid_ind'.
  - by constructor.
  - econstructor; [done |]. eapply chain_Forall2; [exact IH | done].
  - econstructor; [done | done |]. eapply chain_Forall2; [exact IH | done].
Qed.

(** Every object of a laid-out value lies in its range. *)
Lemma laid_ref h lo hi l t : laid h lo hi (VRef l) t -> l = lo /\ lo < hi.
Proof.
  intros H. inversion H as [? ? Hv | ? ? vs ts Hl Hc | ? ? ps fs Hl Hnd Hc]; subst.
  - done.
  - split; [done |]. apply chain_le in Hc; [lia | apply laid_le].
  - split; [done |]. apply chain_le in Hc; [lia |].
    intros ? ? ? ? [_ H']. by apply laid_le in H'.
Qed.

End Heaps.

(** ** [deepClone] *)

Section DeepClone.

Implicit Types (h : heap) (v : value) (t : shape) (l lo hi : nat).

Lemma props_get_app_notin (ps1 ps2 : list (string * value)) key :
  key ∉ map fst ps1 -> props_get (ps1 ++ ps2) key = props_get ps2 key.
Proof.
  induction ps1 as [| [k' x] ps1 IH]; simpl; intros H; [done |].
  apply not_elem_of_cons in H as [Hne H].
  destruct (String.eqb_spec k' key) as [-> | _]; [done | by apply IH].
Qed.

Lemma props_get_head (ps : list (string * value)) key x :
  props_get ((key, x) :: ps) key = x.
Proof. simpl. by rewrite String.eqb_refl. Qed.

Lemma props_set_notin (qs : list (string * value)) key x :
  key ∉ map fst qs -> props_set qs key x = qs ++ [(key, x)].
Proof.
  induction qs as [| [k' x'] qs IH]; simpl; intros H; [done |].
  apply not_elem_of_cons in H as [Hne H].
  destruct (String.eqb_spec k' key) as [-> | _]; [done | by rewrite IH].
Qed.

Lemma depth_elems ts fuel :
  depth (SArr ts) < S fuel -> Forall (fun t => depth t < fuel) ts.
Proof.
  simpl. intros H. apply Nat.succ_lt_mono in H.
  induction ts as [| t ts IH]; simpl in *; constructor; [lia |]. apply IH. lia.
Qed.

Lemma depth_fields (fs : list (string * shape)) fuel :
  depth (SObj fs) < S fuel -> Forall (fun f => depth (snd f) < fuel) fs.
Proof.
  simpl. intros H. apply Nat.succ_lt_mono in H.
  induction fs as [| f fs IH]; simpl in *; constructor; [lia |]. apply IH. lia.
Qed.

Lemma array_store_push l (ws : list value) c h :
  h !! l = Some (OArray ws) ->
  array_store l (length ws) c h = (Ok tt, <[l := OArray (ws ++ [c])]> h).
Proof.
  intros H. unfold array_store. by rewrite H, Nat.ltb_irrefl, Nat.eqb_refl.
Qed.

Lemma props_has_true (ps : list (string * value)) key :
  props_has ps key = true <-> key ∈ map fst ps.
Proof.
  unfold props_has. induction ps as [| [k' x] ps IH]; simpl.
  - split; [done | by intros ?%elem_of_nil].
  - rewrite orb_true_iff, IH, elem_of_cons, String.eqb_eq. split; intros [-> | ?]; auto.
Qed.

Lemma props_has_false (ps : list (string * value)) key :
  props_has ps key = false <-> key ∉ map fst ps.
Proof. rewrite <- props_has_true. by destruct (props_has ps key). Qed.

(** An own property hides the inherited one. *)
Lemma lookup_own (ps : list (string * value)) key :
  key ∈ map fst ps -> lookup ps key = props_get ps key.
Proof. intros H%props_has_true. unfold lookup. by rewrite H. Qed.

Lemma lookup_inherited (ps : list (string * value)) key :
  key ∉ map fst ps -> lookup ps key = inherited key.
Proof. intros H%props_has_false. unfold lookup. by rewrite H. Qed.

Lemma props_get_notin (ps : list (string * value)) key :
  key ∉ map fst ps -> props_get ps key = VUndefined.
Proof.
  induction ps as [| [k' x] ps IH]; simpl; intros H; [done |].
  apply not_elem_of_cons in H as [Hne H].
  destruct (String.eqb_spec k' key) as [-> | _]; [done | by apply IH].
Qed.

(** A falsy [obj[key]] is an own property or a name that is not inherited. *)
Lemma lookup_falsy (ps : list (string * value)) key :
  truthy (lookup ps key) = false -> lookup ps key = props_get ps key.
Proof.
  unfold lookup, inherited. destruct (props_has ps key) eqn:E; [done |].
  apply props_has_false in E. rewrite (props_get_notin _ _ E).
  by destruct (includes Object_prototype_names key).
Qed.

Lemma lookup_falsy_proto (ps : list (string * value)) :
  truthy (lookup ps "__proto__") = false -> "__proto__" ∈ map fst ps.
Proof.
  unfold lookup. destruct (props_has ps "__proto__") eqn:E; [by apply props_has_true in E |].
  done.
Qed.

Lemma get_prop_plain l (ps : list (string * value)) key h :
  h !! l = Some (OPlain ps) -> get_prop (VRef l) key h = (Ok (lookup ps key), h).
Proof. intros H. unfold get_prop. by rewrite H. Qed.

(** Writing a property of a plain object, when the write does not go to
    the setter of [__proto__]. *)
Lemma set_prop_plain l (ps : list (string * value)) key x h :
  h !! l = Some (OPlain ps) ->
  key <> "__proto__"%string \/ key ∈ map fst ps ->
  set_prop (VRef l) key x h = (Ok tt, <[l := OPlain (props_set ps key x)]> h).
Proof.
  intros H Hkey. unfold set_prop. rewrite H.
  destruct (String.eqb_spec key "__proto__") as [-> | Hne]; [| done].
  destruct Hkey as [? | Hin%props_has_true]; [done |]. by rewrite Hin.
Qed.

(** Non-object values, [null] included, are returned as they are. *)
Lemma deepClone_prim fuel v h :
  is_prim v -> deepClone (S fuel) v h = (Ok v, h).
Proof. by destruct v. Qed.

Lemma deepClone_ref fuel l :
  deepClone (S fuel) (VRef l)
  = (let* is_array := isArray (VRef l) in
     if is_array then
       let* newArr := alloc (OArray []) in
       let* _ :=
         forEach
           (fun item index _ =>
              let* c := deepClone fuel item in array_store newArr index c)
           (VRef l) tt in
       ret (VRef newArr)
     else
       let* newObj := alloc (OPlain []) in
       let* _ :=
         for_in
           (fun key =>
              let* v := get_prop (VRef l) key in
              let* c := deepClone fuel v in
              set_prop (VRef newObj) key c)
           l in
       ret (VRef newObj)).
Proof. reflexivity. Qed.

(** The loop over the elements of an array. *)
Lemma clone_elems fuel h0 l vs ts :
  clones fuel ->
  h0 !! l = Some (OArray vs) ->
  Forall2 (repr h0) vs ts ->
  Forall (fun t => depth t < fuel) ts ->
  forall remaining index hc ws,
    index + remaining = length vs ->
    extends h0 hc ->
    hc !! length h0 = Some (OArray ws) ->
    length ws = index ->
    chain (laid hc) (S (length h0)) (length hc) ws (take index ts) ->
    exists h' ws',
      forEach_from
        (fun item index (_ : unit) =>
           let* c := deepClone fuel item in array_store (length h0) index c)
        l remaining index tt hc = (Ok tt, h')
      /\ extends h0 h'
      /\ h' !! length h0 = Some (OArray ws')
      /\ chain (laid h') (S (length h0)) (length h') ws' ts.
Proof.
  intros IH Hl Hrepr Hdepth.
  pose proof (Forall2_length _ _ _ Hrepr) as Hlen.
  induction remaining as [| remaining IHr]; intros index hc ws Hidx Hext Hn Hws Hc.
  - exists hc, ws. simpl. split_and!; [done | done | done |].
    rewrite take_ge in Hc by lia. done.
  - simpl. rewrite (Hext _ _ Hl).
    destruct (lookup_lt_is_Some_2 vs index) as [item Hitem]; [lia |].
    destruct (lookup_lt_is_Some_2 ts index) as [t Ht]; [lia |].
    rewrite Hitem.
    pose proof (Forall2_lookup_lr _ _ _ _ _ _ Hrepr Hitem Ht) as Hr.
    pose proof (Forall_lookup_1 _ _ _ _ Hdepth Ht) as Hd.
    destruct (IH hc item t (repr_extends _ _ _ _ Hr Hext) Hd) as (c & h2 & Hclone & Hlaid & Hext2).
    pose proof (lookup_lt_Some _ _ _ Hn) as Hn0.
    pose proof (extends_length _ _ Hext2) as Hlen2.
    rewrite bind_eq, bind_eq, Hclone. subst index.
    rewrite (array_store_push _ _ _ _ (Hext2 _ _ Hn)).
    apply (IHr (S (length ws)) _ (ws ++ [c])).
    + lia.
    + apply extends_insert; [by eapply extends_trans | done].
    + apply list_lookup_insert_eq. lia.
    + rewrite length_app. simpl. lia.
    + rewrite length_insert, (take_S_r _ _ _ Ht).
      eapply chain_snoc.
      * eapply chain_laid_agree; [exact Hc |]. intros l' Hl'.
        rewrite list_lookup_insert_ne by lia. apply extends_agree; [done | lia].
      * eapply laid_agree; [exact Hlaid |]. intros l' Hl'.
        rewrite list_lookup_insert_ne by lia. done.
Qed.

(** The loop over the keys of a plain object. *)
Lemma clone_fields fuel h0 l ps :
  clones fuel ->
  h0 !! l = Some (OPlain ps) ->
  plain_keys ps ->
  forall ps2 fs2 ps1 fs1 hc qs,
    ps = ps1 ++ ps2 ->
    Forall2 (fun p f => fst p = fst f /\ repr h0 (snd p) (snd f)) ps2 fs2 ->
    Forall (fun f => depth (snd f) < fuel) fs2 ->
    extends h0 hc ->
    hc !! length h0 = Some (OPlain qs) ->
    map fst qs = map fst ps1 ->
    chain (fun a b p f => fst p = fst f /\ laid hc a b (snd p) (snd f))
      (S (length h0)) (length hc) qs fs1 ->
    exists h' qs',
      for_keys
        (fun key =>
           let* v := get_prop (VRef l) key in
           let* c := deepClone fuel v in
           set_prop (VRef (length h0)) key c)
        (map fst ps2) hc = (Ok tt, h')
      /\ extends h0 h'
      /\ h' !! length h0 = Some (OPlain qs')
      /\ map fst qs' = map fst ps
      /\ chain (fun a b p f => fst p = fst f /\ laid h' a b (snd p) (snd f))
           (S (length h0)) (length h') qs' (fs1 ++ fs2).
Proof.
  intros IH Hl [Hnd Hproto].
  induction ps2 as [| [key x] ps2 IHp];
    intros fs2 ps1 fs1 hc qs Hps Hrepr Hdepth Hext Hn Hkeys Hc.
  - apply Forall2_nil_inv_l in Hrepr as ->. exists hc, qs. simpl.
    rewrite !app_nil_r in *. subst. done.
  - apply Forall2_cons_inv_l in Hrepr as ([key' t] & fs2' & [Hk Hr] & Hrepr & ->).
    simpl in Hk, Hr. subst key'.
    apply Forall_cons in Hdepth as [Hd Hdepth]. simpl in Hd.
    assert (key ∉ map fst ps1) as Hfresh.
    { rewrite Hps, map_app in Hnd. apply NoDup_app in Hnd as (_ & Hnd & _).
      intros Hin. apply (Hnd _ Hin). simpl. left. }
    assert (key ∈ map fst ps) as Hown.
    { rewrite Hps, map_app. apply elem_of_app. right. simpl. left. }
    assert (key <> "__proto__"%string) as Hkey by by intros ->.
    simpl. rewrite bind_eq, bind_eq, (get_prop_plain _ _ _ _ (Hext _ _ Hl)).
    rewrite (lookup_own _ _ Hown).
    rewrite Hps, props_get_app_notin, props_get_head by done.
    destruct (IH hc x t (repr_extends _ _ _ _ Hr Hext) Hd) as (c & h2 & Hclone & Hlaid & Hext2).
    pose proof (lookup_lt_Some _ _ _ Hn) as Hn0.
    pose proof (extends_length _ _ Hext2) as Hlen2.
    rewrite bind_eq, Hclone, (set_prop_plain _ _ _ _ _ (Hext2 _ _ Hn)) by by left.
    rewrite props_set_notin by by rewrite Hkeys.
    destruct (IHp fs2' (ps1 ++ [(key, x)]) (fs1 ++ [(key, t)])
                (<[length h0 := OPlain (qs ++ [(key, c)])]> h2) (qs ++ [(key, c)]))
      as (h' & qs' & H1 & H2 & H3 & H4 & H5).
    + by rewrite <- app_assoc.
    + done.
    + done.
    + apply extends_insert; [by eapply extends_trans | done].
    + apply list_lookup_insert_eq. lia.
    + by rewrite !map_app, Hkeys.
    + rewrite length_insert. eapply chain_snoc.
      * eapply chain_fields_agree; [exact Hc |]. intros l' Hl'.
        rewrite list_lookup_insert_ne by lia. apply extends_agree; [done | lia].
      * split; [done |]. simpl. eapply laid_agree; [exact Hlaid |]. intros l' Hl'.
        rewrite list_lookup_insert_ne by lia. done.
    + exists h', qs'. rewrite <- app_assoc in H5. rewrite <- Hps. done.
Qed.

(** With more fuel than the depth of the data, [deepClone] returns a copy. *)
Lemma deepClone_clones fuel : clones fuel.
Proof.
  induction fuel as [| fuel IH]; intros h v t Hrepr Hdepth; [lia |].
  inversion Hrepr as [? Hv | l vs ts Hl Hall | l ps fs Hl Hnd Hall]; subst.
  - exists v, h. rewrite deepClone_prim by done.
    split_and!; [done | by constructor | apply extends_refl].
  - rewrite deepClone_ref, bind_eq. unfold isArray at 1. rewrite Hl.
    rewrite bind_eq. unfold alloc at 1. rewrite bind_eq.
    unfold forEach. rewrite (extends_alloc h (OArray []) _ _ Hl).
    destruct (clone_elems fuel h l vs ts IH Hl Hall (depth_elems _ _ Hdepth)
                (length vs) 0 (h ++ [OArray []]) [])
      as (h' & ws' & H1 & H2 & H3 & H4).
    + done.
    + apply extends_alloc.
    + by rewrite lookup_app_r, Nat.sub_diag by done.
    + done.
    + rewrite length_app. simpl. rewrite Nat.add_1_r. constructor.
    + rewrite H1. exists (VRef (length h)), h'. split_and!; [done | | done].
      econstructor; done.
  - rewrite deepClone_ref, bind_eq. unfold isArray at 1. rewrite Hl.
    rewrite bind_eq. unfold alloc at 1. rewrite bind_eq.
    unfold for_in. rewrite (extends_alloc h (OPlain []) _ _ Hl).
    destruct (clone_fields fuel h l ps IH Hl Hnd ps fs [] [] (h ++ [OPlain []]) [])
      as (h' & qs' & H1 & H2 & H3 & H4 & H5).
    + done.
    + done.
    + by apply depth_fields.
    + apply extends_alloc.
    + by rewrite lookup_app_r, Nat.sub_diag by done.
    + done.
    + rewrite length_app. simpl. rewrite Nat.add_1_r. constructor.
    + rewrite H1. exists (VRef (length h)), h'. split_and!; [done | | done].
      econstructor; [done | | done]. unfold plain_keys. rewrite H4. apply Hnd.
Qed.

(** Every object of a laid-out value lies in its range. *)
Lemma chain_elem {A B} (R : nat -> nat -> A -> B -> Prop) a b xs ys x :
  (forall lo hi x y, R lo hi x y -> lo <= hi) ->
  chain R a b xs ys -> x ∈ xs ->
  exists lo hi y, a <= lo /\ hi <= b /\ R lo hi x y.
Proof.
  intros HR. induction 1 as [lo | lo mid hi x' y' xs ys H Hc IH]; intros Hin.
  - by apply elem_of_nil in Hin.
  - pose proof (HR _ _ _ _ H). pose proof (chain_le _ _ _ _ _ HR Hc).
    apply elem_of_cons in Hin as [-> | Hin].
    + exists lo, mid, y'. done.
    + destruct (IH Hin) as (lo' & hi' & y & ? & ? & ?).
      exists lo', hi', y. split_and!; [lia | done | done].
Qed.

Lemma laid_reaches h lo hi v t l :
  laid h lo hi v t -> reaches h v l -> lo <= l < hi.
Proof.
  intros Hlaid Hreach. revert lo hi t Hlaid.
  induction Hreach as [l | l vs v l' Hl Hin _ IH | l ps p l' Hl Hin _ IH];
    intros lo hi t Hlaid.
  - by apply laid_ref in Hlaid as [-> ?].
  - inversion Hlaid as [? ? Hv | ? ? vs' ts Hl' Hc | ? ? ps' fs Hl' Hnd Hc]; subst;
      [destruct Hv | |]; rewrite Hl in Hl'; simplify_eq.
    destruct (chain_elem _ _ _ _ _ _ (laid_le h) Hc Hin) as (a & b & t' & ? & ? & Hv).
    specialize (IH _ _ _ Hv). lia.
  - inversion Hlaid as [? ? Hv | ? ? vs' ts Hl' Hc | ? ? ps' fs Hl' Hnd Hc]; subst;
      [destruct Hv | |]; rewrite Hl in Hl'; simplify_eq.
    destruct (chain_elem _ _ _ _ _ _
                (fun lo hi p f H => laid_le h lo hi _ _ (proj2 H)) Hc Hin)
      as (a & b & f & ? & ? & _ & Hv).
    specialize (IH _ _ _ Hv). lia.
Qed.

(** Every object of a value of some shape is in the heap. *)
Lemma reaches_valid h v t l : repr h v t -> reaches h v l -> l < length h.
Proof.
  intros Hrepr Hreach. revert t Hrepr.
  induction Hreach as [l | l vs v l' Hl Hin _ IH | l ps p l' Hl Hin _ IH];
    intros t Hrepr.
  - inversion Hrepr as [? Hv | ? vs' ts Hl' Hall | ? ps' fs Hl' Hnd Hall]; subst;
      [destruct Hv | by eapply lookup_lt_Some | by eapply lookup_lt_Some].
  - inversion Hrepr as [? Hv | ? vs' ts Hl' Hall | ? ps' fs Hl' Hnd Hall]; subst;
      [destruct Hv | |]; rewrite Hl in Hl'; simplify_eq.
    apply list_elem_of_lookup in Hin as [i Hi].
    destruct (Forall2_lookup_l _ _ _ _ _ Hall Hi) as (t' & _ & Hv). by eapply IH.
  - inversion Hrepr as [? Hv | ? vs' ts Hl' Hall | ? ps' fs Hl' Hnd Hall]; subst;
      [destruct Hv | |]; rewrite Hl in Hl'; simplify_eq.
    apply list_elem_of_lookup in Hin as [i Hi].
    destruct (Forall2_lookup_l _ _ _ _ _ Hall Hi) as (f & _ & _ & Hv). by eapply IH.
Qed.




End DeepClone.

(** ** Code that writes only to objects it created *)

Section Keeps.

Implicit Types (h : heap) (v x : value) (l n : nat).

Lemma vfresh_not_fun n v : vfresh n v -> not_fun v.
Proof. by destruct v. Qed.

Lemma data_only_not_fun v : data_only v -> not_fun v.
Proof. by destruct v. Qed.

Lemma vfresh_safe src n v : vfresh n v -> safe src n v.
Proof. destruct v; simpl; auto. Qed.

Lemma ofresh_stores n o : ofresh n o -> Forall (vfresh n) (stores o).
Proof.
  destruct o as [vs | ps | proto ps | ps]; simpl.
  - done.
  - intros H. by apply List.Forall_map.
  - intros [_ H]. by apply List.Forall_map.
  - intros H. by apply List.Forall_map.
Qed.

Lemma inv_start h : inv (length h) h h.
Proof.
  split_and!; [done | apply extends_refl |].
  intros l o Hl Ho. apply lookup_lt_Some in Ho. lia.
Qed.

Lemma fresh_region_insert n h l o :
  fresh_region n h -> ofresh n o -> fresh_region n (<[l := o]> h).
Proof.
  intros Hf Ho l' o' Hl' Hlook.
  destruct (decide (l = l')) as [<- | Hne].
  - pose proof (lookup_lt_Some _ _ _ Hlook) as Hlt. rewrite length_insert in Hlt.
    rewrite list_lookup_insert_eq in Hlook by done. by simplify_eq.
  - rewrite list_lookup_insert_ne in Hlook by done. by eapply Hf.
Qed.

Lemma fresh_region_alloc n h o :
  fresh_region n h -> ofresh n o -> fresh_region n (h ++ [o]).
Proof.
  intros Hf Ho l' o' Hl' Hlook.
  apply lookup_app_Some in Hlook as [Hlook | [_ Hlook]]; [by eapply Hf |].
  apply list_lookup_singleton_Some in Hlook as [_ <-]. done.
Qed.

(** The objects from [n] on are closed under reference. *)
Lemma fresh_region_closed n h : fresh_region n h -> closed (vfresh n) (fun l => n <= l) h.
Proof.
  intros Hf l o Hl Ho. pose proof (Hf _ _ Hl Ho) as Hfresh.
  split; [by apply ofresh_stores |].
  intros proto ps ->. by destruct Hfresh.
Qed.

(** Writing a closed object to one of the objects from [n] on keeps the
    invariant. *)
Lemma inv_insert n h0 h l o :
  inv n h0 h -> length h0 <= l -> ofresh n o -> inv n h0 (<[l := o]> h).
Proof.
  intros (H1 & H2 & H3) Hl Ho. split_and!.
  - by rewrite length_insert.
  - by apply extends_insert.
  - by apply fresh_region_insert.
Qed.

Lemma inv_alloc n h0 h o :
  inv n h0 h -> ofresh n o -> inv n h0 (h ++ [o]).
Proof.
  intros (H1 & H2 & H3) Ho. split_and!.
  - rewrite length_app. lia.
  - eapply extends_trans; [done | apply extends_alloc].
  - by apply fresh_region_alloc.
Qed.

Lemma vfresh_props_get n (ps : list (string * value)) key :
  Forall (fun p => vfresh n (snd p)) ps -> vfresh n (props_get ps key).
Proof.
  induction 1 as [| [k' x] ps Hx _ IH]; simpl; [done |].
  by destruct (String.eqb k' key).
Qed.

Lemma vfresh_props_set n (ps : list (string * value)) key x :
  Forall (fun p => vfresh n (snd p)) ps -> vfresh n x ->
  Forall (fun p => vfresh n (snd p)) (props_set ps key x).
Proof.
  induction 1 as [| [k' x'] ps Hx Hps IH]; simpl; intros Hfresh.
  - by repeat constructor.
  - destruct (String.eqb k' key); constructor; auto.
Qed.

Lemma vfresh_Map_get n (m : Map) key :
  Forall (fun e => vfresh n (snd e)) m -> vfresh n (Map_get m key).
Proof.
  induction 1 as [| [k' x] m Hx _ IH]; simpl; [done |].
  by destruct (SameValueZero k' key).
Qed.

Lemma vfresh_Map_set n (m : Map) key x :
  Forall (fun e => vfresh n (snd e)) m -> vfresh n x ->
  Forall (fun e => vfresh n (snd e)) (Map_set m key x).
Proof.
  induction 1 as [| [k' x'] m Hx Hm IH]; simpl; intros Hfresh.
  - by repeat constructor.
  - destruct (SameValueZero k' key); constructor; auto.
Qed.

(** *** Reading *)

Section Reading.

Variables (P : value -> Prop) (Q : loc -> Prop).
Hypothesis P_undefined : P VUndefined.
Hypothesis P_host : forall name, P (VHost name).
Hypothesis P_ref : forall l, Q l -> P (VRef l).

Set Default Proof Using "All".

Lemma held_props_get (ps : list (string * value)) key :
  Forall P (map snd ps) -> P (props_get ps key).
Proof.
  intros H. apply (proj1 (List.Forall_map snd P ps)) in H.
  induction H as [| [k' x] ps' Hx _ IH]; simpl; [done |].
  by destruct (String.eqb k' key).
Qed.

Lemma held_inherited key : P (inherited key).
Proof. unfold inherited. by destruct (includes Object_prototype_names key). Qed.

Lemma held_lookup (ps : list (string * value)) key :
  Forall P (map snd ps) -> P (lookup ps key).
Proof.
  intros H. unfold lookup.
  destruct (props_has ps key); [by apply held_props_get | apply held_inherited].
Qed.

(** What is read along a prototype chain is held by an object of the
    chain. *)
Lemma proto_get_closed fuel h l key x :
  closed P Q h -> Q l -> proto_get fuel h l key = Ok (Some x) -> P x.
Proof.
  intros Hc. revert l. induction fuel as [| fuel IH]; intros l Hl; simpl; [done |].
  destruct (h !! l) as [[vs | ps | proto ps | ps] |] eqn:E; try done.
  - destruct (Hc _ _ Hl E) as [Hps _].
    destruct (props_has ps key); [| done].
    intros [= <-]. by apply held_props_get.
  - destruct (Hc _ _ Hl E) as [Hps Hproto].
    destruct (props_has ps key); [| apply IH; by eapply Hproto].
    intros [= <-]. by apply held_props_get.
Qed.

(** Reading never writes; what is read from an object at a location [Q],
    or from a primitive, is a value [P]. *)
Lemma get_prop_spec v key h :
  exists r,
    get_prop v key h = (r, h)
    /\ forall x,
         r = Ok x -> closed P Q h -> (forall l, v = VRef l -> Q l) -> not_fun v -> P x.
Proof.
  unfold get_prop. destruct v as [| | b | y | s | l | l | s].
  - by eexists.
  - by eexists.
  - destruct (includes primitive_names key); eexists; (split; [done |]);
      intros; by simplify_eq.
  - destruct (includes primitive_names key); eexists; (split; [done |]);
      intros; by simplify_eq.
  - by eexists.
  - destruct (h !! l) as [[vs | ps | proto ps | ps] |] eqn:E; try by eexists.
    + eexists. split; [done |].
      intros x [= <-] Hc Hl _. destruct (Hc _ _ (Hl _ eq_refl) E) as [Hps _].
      by apply held_lookup.
    + destruct (props_has ps key).
      { eexists. split; [done |].
        intros x [= <-] Hc Hl _. destruct (Hc _ _ (Hl _ eq_refl) E) as [Hps _].
        by apply held_props_get. }
      destruct (proto_get (length h) h proto key) as [[x' |] | | |] eqn:Ep;
        try by eexists.
      * eexists. split; [done |].
        intros x [= <-] Hc Hl _. destruct (Hc _ _ (Hl _ eq_refl) E) as [_ Hproto].
        eapply proto_get_closed; [done | by eapply Hproto | done].
      * eexists. split; [done |].
        intros x [= <-] Hc Hl _. destruct (Hc _ _ (Hl _ eq_refl) E) as [_ Hproto].
        destruct (String.eqb key "__proto__"); [| apply held_inherited].
        apply P_ref. by eapply Hproto.
  - destruct (h !! l) as [[vs | ps | proto ps | ps] |] eqn:E; try by eexists.
    destruct (props_has ps key).
    + eexists. split; [done |]. by intros x _ _ _ [].
    + destruct (includes function_names key); eexists; (split; [done |]);
        intros; by simplify_eq.
  - by eexists.
Qed.

End Reading.

Set Default Proof Using "Type".

Lemma get_prop_pure v key h : exists r, get_prop v key h = (r, h).
Proof.
  destruct (get_prop_spec (fun _ => True) (fun _ => True) I (fun _ => I) (fun _ _ => I)
              v key h) as (r & Hr & _).
  by exists r.
Qed.

(** A call of something that is not an array's method does not return. *)
Lemma call_other_spec {A} v name h :
  exists r, @call_other v name A h = (r, h) /\ forall a, r <> Ok a.
Proof.
  unfold call_other.
  destruct (get_prop v name h) as [[x | e | |] h1]; [destruct x | ..]; by eexists.
Qed.

(** *** Writing to new objects *)

Context {n : nat} {h0 : heap}.
Hypothesis Hn : length h0 <= n.

Set Default Proof Using "All".

Lemma keeps_ret {A} (a : A) (Q : A -> Prop) : Q a -> keeps n h0 (ret a) Q.
Proof. intros Ha h r h' Hinv [= <- <-]. split; [done |]. by intros ? [= <-]. Qed.

Lemma keeps_fail {A} (r : res A) (Q : A -> Prop) :
  (forall a, r <> Ok a) -> keeps n h0 (fun h => (r, h)) Q.
Proof. intros Hr h r' h' Hinv [= <- <-]. split; [done |]. intros a ->. exfalso. by eapply Hr. Qed.

Lemma keeps_bind {A B} (c : M A) (f : A -> M B) (Q : A -> Prop) (Q' : B -> Prop) :
  keeps n h0 c Q -> (forall a, Q a -> keeps n h0 (f a) Q') -> keeps n h0 (bind c f) Q'.
Proof.
  intros Hc Hf h r h' Hinv. rewrite bind_eq.
  destruct (c h) as [r1 h1] eqn:E. destruct (Hc _ _ _ Hinv E) as [Hinv1 HQ].
  destruct r1 as [a | e | |]; try (intros [= <- <-]; by split).
  intros Hrun. by eapply Hf; [apply HQ | |].
Qed.

Lemma keeps_weaken {A} (c : M A) (Q Q' : A -> Prop) :
  keeps n h0 c Q -> (forall a, Q a -> Q' a) -> keeps n h0 c Q'.
Proof.
  intros Hc HQ h r h' Hinv Hrun. destruct (Hc _ _ _ Hinv Hrun) as [? H].
  split; [done |]. intros a Ha. by apply HQ, H.
Qed.

Lemma keeps_alloc o : ofresh n o -> keeps n h0 (alloc o) (fun l => n <= l).
Proof.
  intros Ho h r h' Hinv [= <- <-]. split; [by apply inv_alloc |].
  intros l [= <-]. by destruct Hinv as [? _].
Qed.

Lemma keeps_isArray v : keeps n h0 (isArray v) (fun _ => True).
Proof.
  intros h r h' Hinv. unfold isArray.
  destruct v as [| | | | | l | |]; try (intros [= <- <-]; by split).
  destruct (h !! l) as [[] |]; intros [= <- <-]; by split.
Qed.

Lemma keeps_get_prop v key : keeps n h0 (get_prop v key) (fun _ => True).
Proof.
  intros h r h' Hinv Hrun.
  destruct (get_prop_pure v key h) as (r' & Hr).
  rewrite Hr in Hrun. by simplify_eq.
Qed.

Lemma keeps_get_prop_fresh v key :
  vfresh n v -> keeps n h0 (get_prop v key) (vfresh n).
Proof.
  intros Hv h r h' Hinv Hrun.
  destruct (get_prop_spec (vfresh n) (fun l => n <= l) I (fun _ => I) (fun _ H => H)
              v key h) as (r' & Hr & Hf).
  rewrite Hr in Hrun. simplify_eq. split; [done |].
  intros x ->. apply (Hf _ eq_refl).
  - apply fresh_region_closed, Hinv.
  - by intros l ->.
  - by eapply vfresh_not_fun.
Qed.

Lemma keeps_call_other {A} v name (Q : A -> Prop) : keeps n h0 (call_other v name) Q.
Proof.
  intros h r h' Hinv Hrun.
  destruct (@call_other_spec A v name h) as (r' & Hr & Hno).
  rewrite Hr in Hrun. simplify_eq. split; [done |]. intros a ->. by destruct (Hno a).
Qed.

Lemma keeps_set_prop v key x :
  vfresh n v -> vfresh n x -> keeps n h0 (set_prop v key x) (fun _ => True).
Proof.
  intros Hv Hx h r h' Hinv. unfold set_prop.
  destruct v as [| | | | | l | |]; try (intros [= <- <-]; by split);
    [| by destruct Hv].
  simpl in Hv. pose proof Hinv as (_ & _ & Hf).
  destruct (h !! l) as [[vs | ps | proto ps | ps] |] eqn:E;
    try (intros [= <- <-]; by split).
  - pose proof (Hf _ _ Hv E) as Hps. simpl in Hps.
    destruct (String.eqb key "__proto__" && negb (props_has ps key)).
    + destruct x as [| | | | | proto | |]; try (intros [= <- <-]; by split).
      destruct (proto =? l); [intros [= <- <-]; by split |].
      destruct (h !! proto) as [[] |]; intros [= <- <-]; (split; [| done]); try done.
      apply inv_insert; [done | lia |]. by split.
    + intros [= <- <-]. split; [| done].
      apply inv_insert; [done | lia |]. by apply vfresh_props_set.
  - destruct (Hf _ _ Hv E) as [Hproto Hps].
    destruct (String.eqb key "__proto__"); intros [= <- <-]; (split; [| done]); [done |].
    apply inv_insert; [done | lia |]. split; [done |]. by apply vfresh_props_set.
Qed.

Lemma keeps_push v x :
  vfresh n v -> vfresh n x -> keeps n h0 (push v x) (fun _ => True).
Proof.
  intros Hv Hx h r h' Hinv. unfold push.
  destruct v as [| | | | | l | |]; try (intros [= <- <-]; by split);
    [| by destruct Hv].
  simpl in Hv. pose proof Hinv as (_ & _ & Hf).
  destruct (h !! l) as [[vs | ps | proto ps | ps] |] eqn:E;
    try (by apply keeps_call_other).
  intros [= <- <-]. split; [| done].
  apply inv_insert; [done | lia |].
  simpl. apply Forall_app. split; [| by repeat constructor].
  by apply (Hf _ _ Hv E).
Qed.

Lemma keeps_array_store l index x :
  n <= l -> vfresh n x -> keeps n h0 (array_store l index x) (fun _ => True).
Proof.
  intros Hl Hx h r h' Hinv. unfold array_store.
  destruct (h !! l) as [[vs | ps | proto ps | ps] |] eqn:E;
    try (intros [= <- <-]; by split).
  pose proof Hinv as (H1 & H2 & Hf). pose proof (Hf _ _ Hl E) as Hvs. simpl in Hvs.
  destruct (index <? length vs) eqn:E1; [| destruct (index =? length vs)];
    intros [= <- <-]; (split; [| done]); try done.
  - apply inv_insert; [done | lia |]. simpl. by apply Forall_insert.
  - apply inv_insert; [done | lia |]. simpl. apply Forall_app.
    split; [done | by repeat constructor].
Qed.

Lemma keeps_for_keys (f : string -> M unit) keys :
  (forall key, keeps n h0 (f key) (fun _ => True)) ->
  keeps n h0 (for_keys f keys) (fun _ => True).
Proof.
  intros Hf. induction keys as [| key keys IH]; simpl.
  - by apply keeps_ret.
  - eapply keeps_bind; [apply Hf | by intros].
Qed.

Lemma keeps_for_in (f : string -> M unit) l :
  (forall key, keeps n h0 (f key) (fun _ => True)) ->
  keeps n h0 (for_in f l) (fun _ => True).
Proof.
  intros Hf h r h' Hinv. unfold for_in.
  destruct (h !! l) as [[vs | ps | proto ps | ps] |] eqn:E;
    try (intros [= <- <-]; by split).
  by apply keeps_for_keys.
Qed.

(** *** Reading from the caller's objects

    [src] is a set of objects of the caller that hold no function and
    refer to each other only. *)

Variable src : loc -> Prop.
Hypothesis Hn' : n <= length h0.
Hypothesis src_not_fun : forall l o, src l -> h0 !! l = Some o -> Forall not_fun (stores o).
Hypothesis src_refers : forall l o l', src l -> h0 !! l = Some o -> refers o l' -> src l'.

Lemma inv_closed h : inv n h0 h -> closed (safe src n) (fun l => src l \/ n <= l) h.
Proof.
  intros (H1 & H2 & H3) l o Hl Ho.
  destruct (decide (n <= l)) as [Hfresh | Hold].
  - destruct (fresh_region_closed n h H3 l o Hfresh Ho) as [Hvs Hproto]. split.
    + eapply Forall_impl; [exact Hvs |]. apply vfresh_safe.
    + intros proto ps Heq. right. by eapply Hproto.
  - destruct Hl as [Hl | Hl]; [| lia].
    assert (h0 !! l = Some o) as Ho0.
    { destruct (h0 !! l) as [o' |] eqn:E.
      - apply H2 in E. congruence.
      - apply lookup_ge_None in E. lia. }
    split.
    + apply Forall_forall. intros x Hx.
      pose proof (src_not_fun l o Hl Ho0) as Hnf.
      pose proof (proj1 (Forall_forall _ _) Hnf x Hx) as Hx'.
      destruct x as [| | | | | l' | |]; try done.
      left. eapply src_refers; [exact Hl | exact Ho0 | by left].
    + intros proto ps ->. left.
      eapply src_refers; [exact Hl | exact Ho0 | right; by eexists].
Qed.

Lemma keeps_get_prop_safe v key :
  safe src n v -> keeps n h0 (get_prop v key) (safe src n).
Proof.
  intros Hv h r h' Hinv Hrun.
  destruct (get_prop_spec (safe src n) (fun l => src l \/ n <= l) I (fun _ => I)
              (fun _ H => H) v key h) as (r' & Hr & Hf).
  rewrite Hr in Hrun. simplify_eq. split; [done |].
  intros x ->. apply (Hf _ eq_refl).
  - by apply inv_closed.
  - by intros l ->.
  - by destruct v.
Qed.

(** [forEach]: the body runs on elements read from the array; when the
    array is one of the new objects, so are its elements. *)
Lemma keeps_forEach_from {St} (f : value -> nat -> St -> M St) (J : St -> Prop) l :
  (forall item i s,
     (src l \/ n <= l -> safe src n item) -> (n <= l -> vfresh n item) -> J s ->
     keeps n h0 (f item i s) J) ->
  forall remaining index s, J s -> keeps n h0 (forEach_from f l remaining index s) J.
Proof.
  intros Hf. induction remaining as [| remaining IH]; intros index s Hs; simpl.
  - by apply keeps_ret.
  - intros h r h' Hinv.
    destruct (h !! l) as [[vs | ps | proto ps | ps] |] eqn:E;
      try (intros [= <- <-]; by split).
    destruct (vs !! index) as [item |] eqn:Ei.
    + apply keeps_bind with (Q := J); [| by intros; apply IH | done].
      apply Hf; [| | done].
      * intros Hl. destruct (inv_closed h Hinv l _ Hl E) as [Hvs _]. simpl in Hvs.
        by eapply Forall_lookup_1.
      * intros Hl. pose proof Hinv as (_ & _ & Hfr).
        pose proof (Hfr _ _ Hl E) as Hvs. simpl in Hvs.
        by eapply Forall_lookup_1.
    + by apply IH.
Qed.

Lemma keeps_forEach {St} (f : value -> nat -> St -> M St) (J : St -> Prop) arr s :
  (forall item i s,
     (safe src n arr -> safe src n item) -> (vfresh n arr -> vfresh n item) -> J s ->
     keeps n h0 (f item i s) J) ->
  J s -> keeps n h0 (forEach f arr s) J.
Proof.
  intros Hf Hs h r h' Hinv. unfold forEach.
  destruct arr as [| | | | | l | l |]; try (intros [= <- <-]; by split);
    [| by apply keeps_call_other].
  destruct (h !! l) as [[vs | ps | proto ps | ps] |] eqn:E;
    try (by apply keeps_call_other).
  by apply keeps_forEach_from.
Qed.

(** [deepClone] writes to new objects only, and what it returns for a
    value from which it meets no function is a new object, a primitive or
    a built-in: however it ends. *)
Lemma keeps_deepClone fuel v : safe src n v -> keeps n h0 (deepClone fuel v) (vfresh n).
Proof.
  revert v. induction fuel as [| fuel IH]; intros v Hv.
  - by apply keeps_fail.
  - destruct v as [| | b | x | s | l | l | s]; try (by apply keeps_ret).
    + rewrite deepClone_ref.
      eapply keeps_bind; [apply keeps_isArray |]. intros [] _.
      * eapply keeps_bind; [apply keeps_alloc; by constructor |]. intros newArr HnewArr.
        eapply keeps_bind; [| intros; by apply keeps_ret].
        apply keeps_forEach with (J := fun _ => True); [| done].
        intros item i [] Hitem _ _.
        eapply keeps_bind; [by apply IH, Hitem |]. intros c Hc. by apply keeps_array_store.
      * eapply keeps_bind; [apply keeps_alloc; by constructor |]. intros newObj HnewObj.
        eapply keeps_bind; [| intros; by apply keeps_ret].
        apply keeps_for_in. intros key.
        eapply keeps_bind; [by apply keeps_get_prop_safe |]. intros v' Hv'.
        eapply keeps_bind; [by apply IH |]. intros c Hc. by apply keeps_set_prop.
    + change (deepClone (S fuel) (VHost s))
        with (if negb (String.eqb (typeof (VHost s)) "object") || is_null (VHost s)
              then ret (VHost s)
              else let* newObj := alloc (OPlain []) in ret (VRef newObj)).
      destruct (negb (String.eqb (typeof (VHost s)) "object") || is_null (VHost s));
        [by apply keeps_ret |].
      eapply keeps_bind; [apply keeps_alloc; by constructor |]. intros newObj HnewObj.
      by apply keeps_ret.
Qed.

(** A function is returned as it is, and is not a list. *)
Lemma keeps_deepClone_fun fuel l :
  keeps n h0 (deepClone fuel (VFun l)) (fun data => data = VFun l).
Proof. destruct fuel; [by apply keeps_fail | by apply keeps_ret]. Qed.

(** So does [arrayToTree]. *)
Lemma keeps_arrayToTree fuel arr id pid children :
  (forall a, arr = Some a -> safe src n a \/ exists l, a = VFun l) ->
  keeps n h0 (arrayToTree fuel arr id pid children) (fun _ => True).
Proof.
  intros Hsafe. unfold arrayToTree.
  eapply keeps_bind with (Q := fun arr' => safe src n arr' \/ exists l, arr' = VFun l).
  { destruct arr as [a |]; [by apply keeps_ret, Hsafe |].
    eapply keeps_bind; [apply keeps_alloc; by constructor |].
    intros l Hl. apply keeps_ret. left. by right. }
  intros arr' [Harr | [l ->]].
  - eapply keeps_bind; [by apply keeps_deepClone |]. intros data Hdata.
    eapply keeps_bind; [apply keeps_alloc; by constructor |]. intros tree Htree.
    eapply keeps_bind with (Q := fun idMap : Map => Forall (fun e => vfresh n (snd e)) idMap).
    { apply keeps_forEach; [| done]. intros item i idMap _ Hitem HidMap.
      eapply keeps_bind; [apply keeps_get_prop |]. intros key _.
      apply keeps_ret. apply vfresh_Map_set; auto. }
    intros idMap HidMap.
    eapply keeps_bind; [| intros; by apply keeps_ret].
    apply keeps_forEach with (J := fun _ => True); [| done].
    intros item i [] _ Hitem _. specialize (Hitem Hdata).
    eapply keeps_bind; [apply keeps_get_prop |]. intros p _.
    destruct (negb (truthy p)); [by apply keeps_push |].
    pose proof (vfresh_Map_get n idMap p HidMap) as Hparent.
    eapply keeps_bind; [apply keeps_get_prop |]. intros c _.
    eapply keeps_bind with (Q := fun _ => True).
    { destruct (negb (truthy c)); [| by apply keeps_ret].
      eapply keeps_bind; [apply keeps_alloc; by constructor |]. intros l Hl.
      by apply keeps_set_prop. }
    intros _ _.
    eapply keeps_bind; [by apply keeps_get_prop_fresh |]. intros c' Hc'.
    by apply keeps_push.
  - eapply keeps_bind; [apply keeps_deepClone_fun |]. intros data ->.
    eapply keeps_bind; [apply keeps_alloc; by constructor |]. intros tree Htree.
    eapply keeps_bind with (Q := fun _ => False); [| done].
    apply keeps_call_other.
Qed.

End Keeps.

Set Default Proof Using "Type".

Section From.

Implicit Types (h : heap) (v : value).

(** The objects reachable from [v] refer to objects reachable from [v]. *)
Lemma reachable_refers h v l o l' :
  reachable h v l -> h !! l = Some o -> refers o l' -> reachable h v l'.
Proof. apply reachable_step. Qed.

Lemma function_free_no_fun h v : function_free_from h v -> no_fun_from h v.
Proof.
  intros H l o Hl Ho. eapply Forall_impl; [by eapply H |]. apply data_only_not_fun.
Qed.

(** [deepClone], started on the caller's heap. *)
Lemma deepClone_keeps fuel v h r h' :
  no_fun_from h v -> not_fun v -> deepClone fuel v h = (r, h') ->
  inv (length h) h h' /\ forall v', r = Ok v' -> vfresh (length h) v'.
Proof.
  intros Hnf Hv Hrun.
  eapply (keeps_deepClone (n := length h) (h0 := h) (le_n _) (reachable h v) (le_n _));
    [exact Hnf | apply reachable_refers | | apply inv_start | exact Hrun].
  destruct v; try done. left. by constructor.
Qed.

(** [arrayToTree], started on the caller's heap. *)
Lemma arrayToTree_keeps fuel arr id pid children h r h' :
  (forall a, arr = Some a -> no_fun_from h a) ->
  arrayToTree fuel arr id pid children h = (r, h') -> inv (length h) h h'.
Proof.
  intros Hnf Hrun.
  eapply (keeps_arrayToTree (n := length h) (h0 := h) (le_n _)
            (fun l => exists a, arr = Some a /\ reachable h a l) (le_n _));
    [| | | apply inv_start | exact Hrun].
  - intros l o (a & Ha & Hl) Ho. by eapply Hnf.
  - intros l o l' (a & Ha & Hl) Ho Hr. exists a. split; [done |].
    by eapply reachable_step.
  - intros a Ha. destruct a as [| | | | | l | l |]; try (by left); [| right; by eexists].
    left. left. exists (VRef l). split; [done | by constructor].
Qed.

End From.




(** ** [arrayToTree] *)

Section ArrayToTree.

Implicit Types (h : heap) (v : value) (l : nat).

Lemma arrayToTree_unfold fuel arr id pid children :
  arrayToTree fuel (Some arr) id pid children
  = (let* data := deepClone fuel arr in
     let* tree := alloc (OArray []) in
     let* idMap := forEach (index_item (default "id"%string id)) data [] in
     let* _ :=
       forEach
         (attach tree idMap (default "pid"%string pid)
            (default "children"%string children))
         data tt in
     ret (VRef tree)).
Proof. reflexivity. Qed.

(** Two elements of a chain occupy disjoint ranges, in order. *)
Lemma chain_lookup {A B} (R : nat -> nat -> A -> B -> Prop) a b xs ys i x :
  (forall lo hi x y, R lo hi x y -> lo <= hi) ->
  chain R a b xs ys -> xs !! i = Some x ->
  exists lo hi y, ys !! i = Some y /\ R lo hi x y /\ a <= lo /\ hi <= b.
Proof.
  intros HR Hc. revert i. induction Hc as [lo | lo mid hi x' y' xs ys H Hc IH]; intros i Hi.
  - done.
  - pose proof (HR _ _ _ _ H). pose proof (chain_le _ _ _ _ _ HR Hc).
    destruct i as [| i]; simpl in Hi.
    + simplify_eq. exists lo, mid, y'. done.
    + destruct (IH _ Hi) as (lo' & hi' & y & ? & ? & ? & ?).
      exists lo', hi', y. split_and!; [done | done | lia | done].
Qed.

Lemma chain_lookup2 {A B} (R : nat -> nat -> A -> B -> Prop) a b xs ys i j x x' :
  (forall lo hi x y, R lo hi x y -> lo <= hi) ->
  chain R a b xs ys -> i < j -> xs !! i = Some x -> xs !! j = Some x' ->
  exists lo hi y lo' hi' y',
    R lo hi x y /\ R lo' hi' x' y' /\ a <= lo /\ hi <= lo' /\ hi' <= b.
Proof.
  intros HR Hc. revert i j.
  induction Hc as [lo | lo mid hi x0 y0 xs ys H Hc IH]; intros i j Hij Hi Hj.
  - done.
  - pose proof (HR _ _ _ _ H). pose proof (chain_le _ _ _ _ _ HR Hc).
    destruct j as [| j]; [lia |]. simpl in Hj.
    destruct i as [| i]; simpl in Hi.
    + simplify_eq.
      destruct (chain_lookup R _ _ _ _ _ _ HR Hc Hj) as (lo' & hi' & y' & _ & ? & ? & ?).
      exists lo, mid, y0, lo', hi', y'. done.
    + destruct (IH i j) as (l1 & h1 & y1 & l2 & h2 & y2 & ? & ? & ? & ? & ?);
        [lia | done | done |].
      exists l1, h1, y1, l2, h2, y2. split_and!; [done | done | lia | done | done].
Qed.

(** A reference found under a key is an entry of the object. *)
Lemma props_get_ref (ps : list (string * value)) key z :
  props_get ps key = VRef z -> (key, VRef z) ∈ ps.
Proof.
  induction ps as [| [k' x] ps IH]; simpl; [done |].
  destruct (String.eqb_spec k' key) as [-> | _].
  - intros ->. left.
  - intros H. right. by apply IH.
Qed.

Lemma props_get_elem (ps : list (string * value)) key :
  props_get ps key = VUndefined \/ (key, props_get ps key) ∈ ps.
Proof.
  induction ps as [| [k' x] ps IH]; simpl; [by left |].
  destruct (String.eqb_spec k' key) as [-> | _].
  - right. left.
  - destruct IH as [-> | IH]; [by left | right; by right].
Qed.

Lemma props_get_set_eq (ps : list (string * value)) key x :
  props_get (props_set ps key x) key = x.
Proof.
  induction ps as [| [k' x'] ps IH]; simpl.
  - by rewrite String.eqb_refl.
  - destruct (String.eqb_spec k' key) as [-> | Hne]; simpl.
    + by rewrite String.eqb_refl.
    + by apply String.eqb_neq in Hne as ->.
Qed.

Lemma props_get_set_ne (ps : list (string * value)) key key' x :
  key <> key' -> props_get (props_set ps key x) key' = props_get ps key'.
Proof.
  intros Hne. induction ps as [| [k' x'] ps IH]; simpl.
  - by apply String.eqb_neq in Hne as ->.
  - destruct (String.eqb_spec k' key) as [-> | Hne']; simpl.
    + by apply String.eqb_neq in Hne as ->.
    + by rewrite IH.
Qed.

Lemma props_set_elem (ps : list (string * value)) key x p :
  p ∈ props_set ps key x -> p ∈ ps \/ snd p = x.
Proof.
  induction ps as [| [k' x'] ps IH]; simpl.
  - intros ->%list_elem_of_singleton. by right.
  - destruct (String.eqb k' key).
    + intros [-> | H]%elem_of_cons; [by right | left; by right].
    + intros [-> | H]%elem_of_cons; [left; left |].
      destruct (IH H); [left; by right | by right].
Qed.

Lemma props_has_set (ps : list (string * value)) key x :
  props_has (props_set ps key x) key = true.
Proof.
  unfold props_has. induction ps as [| [k' x'] ps IH]; simpl.
  - by rewrite String.eqb_refl.
  - destruct (String.eqb_spec k' key) as [-> | Hne]; simpl.
    + by rewrite String.eqb_refl.
    + by rewrite IH, orb_true_r.
Qed.

Lemma props_has_set_ne (ps : list (string * value)) key key' x :
  key <> key' -> props_has (props_set ps key x) key' = props_has ps key'.
Proof.
  intros Hne. unfold props_has. induction ps as [| [k' x'] ps IH]; simpl.
  - by apply String.eqb_neq in Hne as ->.
  - destruct (String.eqb_spec k' key) as [-> | Hne']; simpl; [done |]. by rewrite IH.
Qed.

Lemma lookup_set_eq (ps : list (string * value)) key x :
  lookup (props_set ps key x) key = x.
Proof. unfold lookup. by rewrite props_has_set, props_get_set_eq. Qed.

Lemma lookup_set_ne (ps : list (string * value)) key key' x :
  key <> key' -> lookup (props_set ps key x) key' = lookup ps key'.
Proof.
  intros Hne. unfold lookup. by rewrite props_has_set_ne, props_get_set_ne.
Qed.

(** A reference found under a key is an own property. *)
Lemma lookup_ref (ps : list (string * value)) key z :
  lookup ps key = VRef z -> (key, VRef z) ∈ ps.
Proof.
  unfold lookup, inherited. destruct (props_has ps key); [apply props_get_ref |].
  by destruct (includes Object_prototype_names key).
Qed.

(** A property that reads falsy can be assigned. *)
Lemma lookup_falsy_own (ps : list (string * value)) key :
  truthy (lookup ps key) = false -> key <> "__proto__"%string \/ key ∈ map fst ps.
Proof.
  intros H. destruct (String.eqb_spec key "__proto__") as [-> | Hne]; [| by left].
  right. by apply lookup_falsy_proto.
Qed.

Lemma data_only_props_set (ps : list (string * value)) key x :
  Forall data_only (map snd ps) -> data_only x ->
  Forall data_only (map snd (props_set ps key x)).
Proof.
  intros Hps Hx. induction ps as [| [k' x'] ps IH]; simpl in *.
  - by repeat constructor.
  - apply Forall_cons in Hps as [Hx' Hps].
    destruct (String.eqb k' key); simpl; constructor; auto.
Qed.

Lemma data_only_lookup (ps : list (string * value)) key :
  Forall data_only (map snd ps) -> key ∉ Object_prototype_names ->
  data_only (lookup ps key).
Proof.
  intros Hps Hkey. unfold lookup, inherited.
  destruct (props_has ps key).
  - clear Hkey. induction ps as [| [k' x'] ps IH]; simpl in *; [done |].
    apply Forall_cons in Hps as [Hx' Hps]. destruct (String.eqb k' key); auto.
  - destruct (includes Object_prototype_names key) eqn:E; [| done].
    exfalso. apply Hkey. unfold includes in E. apply existsb_exists in E as (k & Hin & Hk).
    apply String.eqb_eq in Hk as ->. by apply list_elem_of_In.
Qed.

(** A plain object of data has no [push] method. *)
Lemma push_plain h l (ps : list (string * value)) x :
  h !! l = Some (OPlain ps) -> Forall data_only (map snd ps) ->
  push (VRef l) x h = (Throw TypeError, h).
Proof.
  intros Hl Hps. unfold push, call_other. rewrite Hl.
  rewrite (get_prop_plain _ _ _ _ Hl).
  assert (data_only (lookup ps "push")) as Hd.
  { apply data_only_lookup; [done |]. by apply (bool_decide_unpack _). }
  by destruct (lookup ps "push").
Qed.

(** *** Cloning the list of records *)

Lemma clone_list h arr ts fuel :
  repr h (VRef arr) (SArr ts) ->
  depth (SArr ts) < fuel ->
  exists h1 cs,
    deepClone fuel (VRef arr) h = (Ok (VRef (length h)), h1)
    /\ extends h h1
    /\ h1 !! length h = Some (OArray cs)
    /\ chain (laid h1) (S (length h)) (length h1) cs ts.
Proof.
  intros Hrepr Hdepth.
  destruct (deepClone_clones fuel h _ _ Hrepr Hdepth) as (v' & h1 & Hrun & Hlaid & Hext).
  inversion Hlaid as [| ? ? cs ? Hl Hc |]; subst.
  exists h1, cs. done.
Qed.

(** A value and its copy: the same primitive, or two references. *)
Lemma same_shape h h1 lo hi v v' t :
  repr h v t -> laid h1 lo hi v' t ->
  (is_prim v /\ v' = v) \/ (exists x z, v = VRef x /\ v' = VRef z).
Proof.
  intros Hr Hl. inversion Hr; subst; inversion Hl; subst; eauto.
Qed.

Lemma props_get_lockstep h h1 (ps qs : list (string * value)) (fs : list (string * shape)) key :
  Forall2 (fun p f => fst p = fst f /\ repr h (snd p) (snd f)) ps fs ->
  Forall2 (fun q f => fst q = fst f /\ exists lo hi, laid h1 lo hi (snd q) (snd f)) qs fs ->
  (is_prim (props_get ps key) /\ props_get qs key = props_get ps key)
  \/ (exists x z, props_get ps key = VRef x /\ props_get qs key = VRef z).
Proof.
  intros Hp. revert qs.
  induction Hp as [| [k x] [k' t] ps fs [Hk Hr] _ IH]; intros qs Hq.
  - apply Forall2_nil_inv_r in Hq as ->. by left.
  - apply Forall2_cons_inv_r in Hq as ([k'' y] & qs' & [Hk' (lo & hi & Hl)] & Hq & ->).
    simpl in *. subst k k''.
    destruct (String.eqb k' key); [by eapply same_shape | by apply IH].
Qed.

Lemma props_has_lockstep {X Y Z} (R : X -> Z -> Prop) (R' : Y -> Z -> Prop)
    (ps : list (string * X)) (qs : list (string * Y)) (fs : list (string * Z)) :
  Forall2 (fun p f => fst p = fst f /\ R (snd p) (snd f)) ps fs ->
  Forall2 (fun q f => fst q = fst f /\ R' (snd q) (snd f)) qs fs ->
  map fst qs = map fst ps.
Proof.
  intros Hp. revert qs.
  induction Hp as [| [k x] [k' t] ps fs [Hk Hr] _ IH]; intros qs Hq.
  - by apply Forall2_nil_inv_r in Hq as ->.
  - apply Forall2_cons_inv_r in Hq as ([k'' y] & qs' & [Hk' _] & Hq & ->).
    simpl in *. subst k k''. f_equal. by apply IH.
Qed.

Lemma props_has_keys (ps qs : list (string * value)) key :
  map fst qs = map fst ps -> props_has qs key = props_has ps key.
Proof.
  intros H. destruct (props_has ps key) eqn:E.
  - apply props_has_true. rewrite H. by apply props_has_true.
  - apply props_has_false. rewrite H. by apply props_has_false.
Qed.

(** A field of a record and the same field of its copy: the same
    primitive or inherited built-in, or two references. *)
Lemma field_clone h h1 lo hi item c fs key :
  repr h item (SObj fs) -> laid h1 lo hi c (SObj fs) ->
  (not_ref (field h item key) /\ field h1 c key = field h item key)
  \/ (exists x z, field h item key = VRef x /\ field h1 c key = VRef z).
Proof.
  intros Hr Hl.
  inversion Hr as [| | l ps ? Hlook Hnd Hall]; subst.
  inversion Hl as [| | ? ? qs ? Hlook' Hnd' Hc]; subst.
  assert (Forall2 (fun q f => fst q = fst f /\ exists lo hi, laid h1 lo hi (snd q) (snd f))
            qs fs) as Hall'.
  { eapply chain_Forall2; [exact Hc |]. intros a b q f [? ?]. eauto. }
  unfold field. rewrite Hlook, Hlook'. unfold lookup.
  rewrite (props_has_keys ps qs key
             (props_has_lockstep (repr h) (fun v t => exists lo hi, laid h1 lo hi v t)
                ps qs fs Hall Hall')).
  destruct (props_has ps key).
  - destruct (props_get_lockstep h h1 ps qs fs key Hall Hall') as [[Hp He] | H];
      [left | by right].
    split; [| done]. by destruct (props_get ps key).
  - left. split; [| done]. unfold inherited.
    by destruct (includes Object_prototype_names key).
Qed.

(** The objects of a laid-out value are arrays and plain objects of data. *)
Lemma laid_data_only h lo hi v t : laid h lo hi v t -> data_only v.
Proof. intros H. inversion H as [? ? Hv | |]; subst; [by destruct v | done | done]. Qed.

Lemma chain_cover {A B} (R : nat -> nat -> A -> B -> Prop) a b xs ys x :
  chain R a b xs ys -> a <= x < b ->
  exists lo hi x' y', R lo hi x' y' /\ lo <= x < hi.
Proof.
  induction 1 as [lo | lo mid hi x' y' xs ys H Hc IH]; intros Hx; [lia |].
  destruct (decide (x < mid)).
  - exists lo, mid, x', y'. split; [done | lia].
  - apply IH. lia.
Qed.

Lemma laid_objects h lo hi v t x :
  laid h lo hi v t -> lo <= x < hi -> exists o, h !! x = Some o /\ data_object o.
Proof.
  intros H. revert x.
  induction H as [lo v Hv | lo hi vs ts Hl _ IH | lo hi ps fs Hl Hnd Hc IH]
    using laid_ind'; intros x Hx.
  - lia.
  - destruct (decide (x = lo)) as [-> | Hne]; [by eexists |].
    destruct (chain_cover _ _ _ _ _ x IH) as (a & b & v' & t' & HP & Hab); [lia |].
    by apply HP.
  - destruct (decide (x = lo)) as [-> | Hne].
    + eexists. split; [done |]. simpl. apply List.Forall_map.
      clear -Hc. induction Hc as [| ? ? ? ? ? ? ? [_ H] _ IH']; constructor; [| done].
      by eapply laid_data_only.
    + destruct (chain_cover _ _ _ _ _ x IH) as (a & b & p & f & [_ HP] & Hab); [lia |].
      by apply HP.
Qed.

Lemma truthy_clone h h1 lo hi item c fs key :
  repr h item (SObj fs) -> laid h1 lo hi c (SObj fs) ->
  truthy (field h1 c key) = truthy (field h item key).
Proof.
  intros Hr Hl.
  destruct (field_clone h h1 lo hi item c fs key Hr Hl) as [[_ ->] | (x & z & -> & ->)]; done.
Qed.

(** The entries of a laid-out record lie after it, inside its range. *)
Lemma laid_entry h1 lo hi a (qs : list (string * value)) fs key z :
  laid h1 lo hi (VRef a) (SObj fs) ->
  h1 !! a = Some (OPlain qs) ->
  (key, VRef z) ∈ qs ->
  a = lo /\ lo < z < hi /\ is_Some (h1 !! z).
Proof.
  intros Hl Hlook Hin.
  inversion Hl as [| | ? ? qs' ? Hlook' Hnd Hc]; subst.
  rewrite Hlook in Hlook'. simplify_eq.
  destruct (chain_elem _ _ _ _ _ _
              (fun lo hi p f H => laid_le h1 lo hi _ _ (proj2 H)) Hc Hin)
    as (lo' & hi' & f & ? & ? & _ & Hz).
  simpl in Hz. pose proof (laid_ref _ _ _ _ _ Hz) as [-> ?].
  split_and!; [done | lia | lia |].
  inversion Hz as [? ? Hv | |]; subst; [destruct Hv | eauto | eauto].
Qed.

(** In a laid-out record, a reference is the value of one key only. *)
Lemma laid_entry_key h1 lo hi a (qs : list (string * value)) fs key key' z :
  laid h1 lo hi (VRef a) (SObj fs) ->
  h1 !! a = Some (OPlain qs) ->
  (key, VRef z) ∈ qs -> (key', VRef z) ∈ qs -> key = key'.
Proof.
  intros Hl Hlook Hin Hin'.
  inversion Hl as [| | ? ? qs' ? Hlook' Hnd Hc]; subst.
  rewrite Hlook in Hlook'. simplify_eq.
  apply list_elem_of_lookup in Hin as [i Hi], Hin' as [j Hj].
  pose proof (fun lo hi (p : string * value) (f : string * shape)
                (H : fst p = fst f /\ laid h1 lo hi (snd p) (snd f)) =>
                laid_le h1 lo hi _ _ (proj2 H)) as HR.
  destruct (Nat.lt_trichotomy i j) as [Hlt | [-> | Hlt]].
  - destruct (chain_lookup2 _ _ _ _ _ _ _ _ _ HR Hc Hlt Hi Hj)
      as (l1 & h1' & f1 & l2 & h2 & f2 & [_ H1] & [_ H2] & _ & ? & _).
    simpl in *. apply laid_ref in H1 as [-> ?], H2 as [? ?]. lia.
  - rewrite Hi in Hj. by simplify_eq.
  - destruct (chain_lookup2 _ _ _ _ _ _ _ _ _ HR Hc Hlt Hj Hi)
      as (l1 & h1' & f1 & l2 & h2 & f2 & [_ H1] & [_ H2] & _ & ? & _).
    simpl in *. apply laid_ref in H1 as [-> ?], H2 as [? ?]. lia.
Qed.

(** Two records of a laid-out list have no reference in common. *)
Lemma laid_entry_record h1 a b (cs : list value) ts i j ai aj
    (qi qj : list (string * value)) key key' z :
  chain (laid h1) a b cs ts ->
  Forall (fun t => exists fs, t = SObj fs) ts ->
  cs !! i = Some (VRef ai) -> cs !! j = Some (VRef aj) ->
  h1 !! ai = Some (OPlain qi) -> h1 !! aj = Some (OPlain qj) ->
  (key, VRef z) ∈ qi -> (key', VRef z) ∈ qj ->
  i = j.
Proof.
  intros Hc Hobj Hi Hj Hqi Hqj Hin Hin'.
  assert (forall i j ai aj (qi qj : list (string * value)) key key',
            i < j -> cs !! i = Some (VRef ai) -> cs !! j = Some (VRef aj) ->
            h1 !! ai = Some (OPlain qi) -> h1 !! aj = Some (OPlain qj) ->
            (key, VRef z) ∈ qi -> (key', VRef z) ∈ qj -> False) as Hlt.
  { clear i j ai aj qi qj key key' Hi Hj Hqi Hqj Hin Hin'.
    intros i j ai aj qi qj key key' Hij Hi Hj Hqi Hqj Hin Hin'.
    destruct (chain_lookup2 _ _ _ _ _ _ _ _ _ (laid_le h1) Hc Hij Hi Hj)
      as (l1 & h1' & t1 & l2 & h2 & t2 & H1 & H2 & _ & ? & _).
    assert (exists fs, t1 = SObj fs) as [fs1 ->].
    { inversion H1; subst; [done | | eauto]. rewrite Hqi in *. simplify_eq. }
    assert (exists fs, t2 = SObj fs) as [fs2 ->].
    { inversion H2; subst; [done | | eauto]. rewrite Hqj in *. simplify_eq. }
    destruct (laid_entry _ _ _ _ _ _ _ _ H1 Hqi Hin) as (_ & ? & _).
    destruct (laid_entry _ _ _ _ _ _ _ _ H2 Hqj Hin') as (_ & ? & _).
    lia. }
  destruct (Nat.lt_trichotomy i j) as [Hij | [-> | Hij]]; [| done |].
  - exfalso. by eapply (Hlt i j).
  - exfalso. by eapply (Hlt j i).
Qed.

(** *** The index of the records *)

Lemma index_build h2 id d (cs : list value) :
  h2 !! d = Some (OArray cs) ->
  Forall (is_record h2) cs ->
  forEach (index_item id) (VRef d) [] h2 = (Ok (index_of h2 id cs), h2).
Proof.
  intros Hd Hrec.
  erewrite (forEach_pure _ (fun item i m => fst (index_item id item i m h2)));
    [| | exact Hd].
  - f_equal. apply fold_res_ok.
    eapply Forall_impl; [exact Hrec |]. intros item Hitem i m. simpl.
    unfold index_item. by rewrite (bind_ok _ _ _ _ _ (get_prop_record _ _ _ Hitem)).
  - intros item i m. unfold index_item. rewrite bind_eq.
    pose proof (get_prop_heap item id h2) as H1.
    destruct (get_prop item id h2) as [[key | | |] h']; simpl in *; by subst.
Qed.

(** What a lookup in the index returns is one of the records, or nothing. *)
Lemma index_values h id (cs : list value) p :
  forall m,
    Map_get (fold_left (fun idMap c => Map_set idMap (field h c id) c) cs m) p
    = Map_get m p
    \/ Map_get (fold_left (fun idMap c => Map_set idMap (field h c id) c) cs m) p ∈ cs.
Proof.
  induction cs as [| c cs IH]; intros m; simpl; [by left |].
  destruct (IH (Map_set m (field h c id) c)) as [-> | H]; [| right; by right].
  rewrite Map_get_set. destruct (SameValueZero _ _); [right; left | by left].
Qed.

Lemma index_of_values h id (cs : list value) p :
  Map_get (index_of h id cs) p = VUndefined \/ Map_get (index_of h id cs) p ∈ cs.
Proof. apply (index_values h id cs p []). Qed.

(** A key that no record has is not in the index. *)
Lemma index_of_missing h id (cs : list value) p :
  Forall (fun c => SameValueZero (field h c id) p = false) cs ->
  Map_get (index_of h id cs) p = VUndefined.
Proof.
  intros H. unfold index_of.
  by rewrite (Map_get_last _ (fun c => field h c id) (fun c => c) p cs).
Qed.

(** *** The second loop, up to an exception *)

Lemma attaching_alloc h2 d tree cs hc o :
  attaching h2 d tree cs hc -> data_object o -> attaching h2 d tree cs (hc ++ [o]).
Proof.
  intros (Hd & [roots Ht] & Hdata & Hcs) Ho. split_and!.
  - by apply lookup_app_l_Some.
  - exists roots. by apply lookup_app_l_Some.
  - intros x o' Hx Hlook.
    apply lookup_app_Some in Hlook as [Hlook | [_ Hlook]]; [by eapply Hdata |].
    by apply list_lookup_singleton_Some in Hlook as [_ <-].
  - eapply Forall_impl; [exact Hcs |]. intros c (a & ps & -> & Ha & Hda & Hps & Hkeep).
    exists a, ps. split_and!; [done | by apply lookup_app_l_Some | done | | done].
    eapply Forall_impl; [exact Hps |]. intros p Hp x Hx.
    specialize (Hp x Hx). rewrite length_app. lia.
Qed.

(** Writing to an array other than [d]. *)
Lemma attaching_array h2 d tree cs hc x (ws ws' : list value) :
  attaching h2 d tree cs hc ->
  hc !! x = Some (OArray ws) -> x <> d ->
  attaching h2 d tree cs (<[x := OArray ws']> hc).
Proof.
  intros (Hd & [roots Ht] & Hdata & Hcs) Hx Hxd. split_and!.
  - by rewrite list_lookup_insert_ne.
  - destruct (decide (x = tree)) as [-> | Hne].
    + exists ws'. apply list_lookup_insert_eq. by eapply lookup_lt_Some.
    + exists roots. by rewrite list_lookup_insert_ne.
  - intros y o Hy Hlook. destruct (decide (x = y)) as [<- | Hne].
    + rewrite list_lookup_insert_eq in Hlook by by eapply lookup_lt_Some.
      by simplify_eq.
    + rewrite list_lookup_insert_ne in Hlook by done. by eapply Hdata.
  - eapply Forall_impl; [exact Hcs |]. intros c (a & ps & -> & Ha & Hda & Hps & Hkeep).
    exists a, ps. split_and!; [done | | done | | done].
    + rewrite list_lookup_insert_ne; [done |]. intros ->. rewrite Hx in Ha. done.
    + by rewrite length_insert.
Qed.

(** Setting a property that was falsy on one of the records. *)
Lemma attaching_set h2 d tree cs hc b (qs : list (string * value)) key x :
  attaching h2 d tree cs hc ->
  hc !! b = Some (OPlain qs) ->
  d <= b ->
  truthy (lookup qs key) = false ->
  d < x < length hc ->
  attaching h2 d tree cs (<[b := OPlain (props_set qs key (VRef x))]> hc).
Proof.
  intros (Hd & [roots Ht] & Hdata & Hcs) Hb Hdb Hfalsy Hx. split_and!.
  - rewrite list_lookup_insert_ne; [done |]. intros ->. rewrite Hb in Hd. done.
  - exists roots. rewrite list_lookup_insert_ne; [done |]. intros ->.
    rewrite Hb in Ht. done.
  - intros y o Hy Hlook. destruct (decide (b = y)) as [<- | Hne].
    + rewrite list_lookup_insert_eq in Hlook by by eapply lookup_lt_Some.
      simplify_eq. simpl. apply data_only_props_set; [| done].
      apply (Hdata _ _ Hdb Hb).
    + rewrite list_lookup_insert_ne in Hlook by done. by eapply Hdata.
  - eapply Forall_impl; [exact Hcs |]. intros c (a & ps & -> & Ha & Hda & Hps & Hkeep).
    destruct (decide (a = b)) as [-> | Hne].
    + rewrite Hb in Ha. simplify_eq.
      exists b, (props_set ps key (VRef x)). split_and!.
      * done.
      * apply list_lookup_insert_eq. by eapply lookup_lt_Some.
      * done.
      * rewrite length_insert. apply Forall_forall. intros p Hp y Hy.
        apply props_set_elem in Hp as [Hp | Hp].
        -- rewrite Forall_forall in Hps. by apply (Hps p Hp).
        -- rewrite Hp in Hy. by simplify_eq.
      * intros key' Htruthy. specialize (Hkeep key' Htruthy).
        destruct (decide (key = key')) as [-> | Hk].
        -- rewrite Hkeep in Hfalsy. congruence.
        -- by rewrite lookup_set_ne.
    + exists a, ps. split_and!; [done | | done | | done].
      * by rewrite list_lookup_insert_ne.
      * by rewrite length_insert.
Qed.

(** One round of the second loop either throws a [TypeError] or keeps the
    loop going. *)
Lemma attach_step h2 d tree cs idMap pid children item i hc r hc' :
  attaching h2 d tree cs hc ->
  tree <> d ->
  (forall p, Map_get idMap p = VUndefined \/ Map_get idMap p ∈ cs) ->
  item ∈ cs ->
  attach tree idMap pid children item i tt hc = (r, hc') ->
  r = Throw TypeError \/ (r = Ok tt /\ attaching h2 d tree cs hc').
Proof.
  intros Hinv Htd HidMap Hitem.
  pose proof Hinv as (Hd & [roots Ht] & Hdata & Hcs).
  rewrite Forall_forall in Hcs.
  destruct (Hcs _ Hitem) as (a & ps & -> & Ha & Hda & Hps & Hkeep).
  unfold attach. rewrite (bind_ok _ _ _ _ _ (get_prop_plain _ _ _ _ Ha)).
  destruct (truthy (lookup ps pid)) eqn:Hp; cbn [negb].
  2: { unfold push. rewrite Ht. intros [= <- <-]. right. split; [done |].
       by eapply attaching_array. }
  destruct (HidMap (lookup ps pid)) as [-> | Hparent].
  { intros [= <- <-]. by left. }
  destruct (Hcs _ Hparent) as (b & qs & -> & Hb & Hdb & Hqs & _).
  rewrite (bind_ok _ _ _ _ _ (get_prop_plain _ _ _ _ Hb)).
  pose proof (lookup_lt_Some _ _ _ Hb) as Hblt.
  pose proof (lookup_lt_Some _ _ _ Hd) as Hdlt.
  destruct (truthy (lookup qs children)) eqn:Hc; cbn [negb].
  - (* the parent has a truthy children value already *)
    rewrite bind_eq. unfold ret at 1.
    rewrite (bind_ok _ _ _ _ _ (get_prop_plain _ _ _ _ Hb)).
    destruct (lookup qs children) as [| | | | | x | x | name] eqn:E;
      try (intros [= <- <-]; by left).
    + apply lookup_ref in E.
      rewrite Forall_forall in Hqs. pose proof (Hqs _ E x eq_refl) as Hx.
      destruct (lookup_lt_is_Some_2 hc x) as [o Ho]; [lia |].
      pose proof (Hdata x o ltac:(lia) Ho) as Hdo.
      destruct o as [ws | ps' | |]; try done.
      * unfold push. rewrite Ho. intros [= <- <-].
        right. split; [done |]. eapply attaching_array; [done | done | lia].
      * rewrite (push_plain _ _ _ _ Ho Hdo). intros [= <- <-]. by left.
    + (* a function is not data *)
      exfalso. pose proof (Hdata b _ Hdb Hb) as Hdo. simpl in Hdo.
      unfold lookup, inherited in E. destruct (props_has qs children).
      * clear -Hdo E. induction qs as [| [k' x'] qs IH]; simpl in *; [done |].
        apply Forall_cons in Hdo as [Hx' Hdo].
        destruct (String.eqb k' children); [by subst | auto].
      * by destruct (includes Object_prototype_names children).
  - (* a new children array *)
    rewrite bind_eq, bind_eq. unfold alloc at 1.
    assert ((hc ++ [OArray []]) !! b = Some (OPlain qs)) as Hb1
      by by apply lookup_app_l_Some.
    rewrite (set_prop_plain _ _ _ _ _ Hb1) by by apply lookup_falsy_own.
    set (hc2 := <[b := OPlain (props_set qs children (VRef (length hc)))]>
                  (hc ++ [OArray []])).
    assert (attaching h2 d tree cs hc2) as Hinv2.
    { apply attaching_set; [by apply attaching_alloc | done | done | done |].
      rewrite length_app. simpl. lia. }
    assert (hc2 !! b = Some (OPlain (props_set qs children (VRef (length hc))))) as Hb2.
    { apply list_lookup_insert_eq. rewrite length_app. lia. }
    rewrite (bind_ok _ _ _ _ _ (get_prop_plain _ _ _ _ Hb2)), lookup_set_eq.
    assert (hc2 !! length hc = Some (OArray [])) as Hl.
    { unfold hc2. rewrite list_lookup_insert_ne by lia.
      by rewrite lookup_app_r, Nat.sub_diag by done. }
    unfold push. rewrite Hl. intros [= <- <-]. right. split; [done |].
    eapply attaching_array; [done | done | lia].
Qed.

(** The loop throws at the latest when it reaches a record whose truthy
    parent key is not in the index. *)
Lemma attach_loop h2 d tree cs idMap pid children j bad :
  tree <> d ->
  (forall p, Map_get idMap p = VUndefined \/ Map_get idMap p ∈ cs) ->
  cs !! j = Some bad ->
  truthy (field h2 bad pid) = true ->
  Map_get idMap (field h2 bad pid) = VUndefined ->
  forall remaining index hc,
    index <= j < index + remaining ->
    attaching h2 d tree cs hc ->
    exists h',
      forEach_from (attach tree idMap pid children) d remaining index tt hc
      = (Throw TypeError, h').
Proof.
  intros Htd HidMap Hbad Htruthy Hmissing.
  induction remaining as [| remaining IH]; intros index hc Hidx Hinv; [lia |].
  pose proof Hinv as (Hd & _ & _ & Hcs).
  simpl. rewrite Hd.
  destruct (lookup_lt_is_Some_2 cs index) as [item Hitem].
  { apply lookup_lt_Some in Hbad. lia. }
  rewrite Hitem, bind_eq.
  destruct (decide (index = j)) as [-> | Hne].
  - rewrite Hitem in Hbad. simplify_eq.
    rewrite Forall_forall in Hcs.
    destruct (Hcs bad (list_elem_of_lookup_2 _ _ _ Hitem))
      as (a & ps & -> & Ha & _ & _ & Hkeep).
    unfold attach. rewrite (bind_ok _ _ _ _ _ (get_prop_plain _ _ _ _ Ha)).
    rewrite (Hkeep _ Htruthy), Htruthy, Hmissing. simpl. eauto.
  - destruct (attach tree idMap pid children item index () hc) as [r hc'] eqn:Hrun.
    destruct (attach_step h2 d tree cs idMap pid children item index hc r hc' Hinv Htd
                HidMap (list_elem_of_lookup_2 _ _ _ Hitem) Hrun) as [-> | [-> Hinv']].
    + eauto.
    + apply IH; [lia | done].
Qed.

(** *** The copies of the records *)

Lemma copies h h1 a b (items cs : list value) (fss : list (list (string * shape))) i item c :
  Forall2 (repr h) items (SObj <$> fss) ->
  chain (laid h1) a b cs (SObj <$> fss) ->
  items !! i = Some item -> cs !! i = Some c ->
  copy_of h h1 a b item c.
Proof.
  intros Hall Hc Hi Hci.
  destruct (chain_lookup _ _ _ _ _ _ _ (laid_le h1) Hc Hci)
    as (lo & hi & t & Ht & Hlaid & Hlo & Hhi).
  pose proof (Forall2_lookup_lr _ _ _ _ _ _ Hall Hi Ht) as Hrepr.
  apply list_lookup_fmap_Some in Ht as (fs & -> & _).
  inversion Hlaid as [| | ? ? qs ? Hlook Hnd Hch]; subst.
  exists fs, lo, hi, lo, qs. split_and!; try done.
  - apply chain_le in Hch; [lia |]. intros ? ? ? ? [_ H]. by apply laid_le in H.
  - apply Forall_forall. intros [key x] Hin z Hz. simpl in Hz. subst x.
    destruct (laid_entry _ _ _ _ _ _ _ _ Hlaid Hlook Hin) as (_ & ? & _). lia.
Qed.

Lemma field_alloc h o l key :
  is_Some (h !! l) -> field (h ++ [o]) (VRef l) key = field h (VRef l) key.
Proof.
  intros [o' Ho]. unfold field. by rewrite (lookup_app_l_Some _ _ _ _ Ho), Ho.
Qed.

(** A parent key that matches no record's id matches no copy's id either:
    the copies of two different objects are different objects. *)
Lemma no_match_clone h h1 a b (items cs : list value)
    (fss : list (list (string * shape))) id pid j bad bad' :
  Forall2 (repr h) items (SObj <$> fss) ->
  chain (laid h1) a b cs (SObj <$> fss) ->
  items !! j = Some bad -> cs !! j = Some bad' ->
  Forall (fun item => SameValueZero (field h item id) (field h bad pid) = false) items ->
  Forall (fun c => SameValueZero (field h1 c id) (field h1 bad' pid) = false) cs.
Proof.
  intros Hall Hc Hj Hcj Hno.
  pose proof (Forall2_length _ _ _ Hall) as Hlen1.
  pose proof (chain_length _ _ _ _ _ Hc) as Hlen2.
  apply Forall_lookup. intros i c Hci.
  destruct (lookup_lt_is_Some_2 items i) as [item Hi].
  { apply lookup_lt_Some in Hci. lia. }
  pose proof (Forall_lookup_1 _ _ _ _ Hno Hi) as Hno_i. simpl in Hno_i.
  pose proof (Forall_lookup_1 _ _ _ _ Hno Hj) as Hno_j. simpl in Hno_j.
  destruct (copies _ _ _ _ _ _ _ _ _ _ Hall Hc Hi Hci)
    as (fsi & loi & hii & li & qi & Hri & Hli & -> & Hqi & _).
  destruct (copies _ _ _ _ _ _ _ _ _ _ Hall Hc Hj Hcj)
    as (fsj & loj & hij & lj & qj & Hrj & Hlj & -> & Hqj & _).
  destruct (SameValueZero (field h1 (VRef li) id) (field h1 (VRef lj) pid)) eqn:E; [| done].
  exfalso.
  destruct (field_clone _ _ _ _ _ _ _ id Hri Hli) as [[Hpi Hei] | (xi & zi & Hoi & Hei)];
    destruct (field_clone _ _ _ _ _ _ _ pid Hrj Hlj) as [[Hpj Hej] | (xj & zj & Hoj & Hej)];
    rewrite Hei, Hej in E.
  - congruence.
  - rewrite Hoj in *. by destruct (field h item id).
  - by destruct (field h bad pid).
  - simpl in E. apply Nat.eqb_eq in E as ->.
    unfold field in Hei, Hej. rewrite Hqi in Hei. rewrite Hqj in Hej.
    apply lookup_ref in Hei, Hej.
    assert (i = j) as ->.
    { eapply (laid_entry_record h1 a b cs); [exact Hc | | exact Hci | exact Hcj | ..]; try done.
      apply Forall_fmap, Forall_forall. intros fs _. simpl. eauto. }
    rewrite Hci in Hcj. rewrite Hi in Hj. simplify_eq.
    pose proof (laid_entry_key _ _ _ _ _ _ _ _ _ Hli Hqi Hei Hej) as ->.
    by rewrite SameValueZero_refl in Hno_i.
Qed.




End ArrayToTree.

(** ** The tree [arrayToTree] builds *)

Section BuildTree.

Implicit Types (h : heap) (v : value) (l : nat).

Lemma roots_of_snoc h2 pid (prefix : list value) c :
  roots_of h2 pid (prefix ++ [c])
  = roots_of h2 pid prefix ++ (if negb (truthy (field h2 c pid)) then [c] else []).
Proof.
  unfold roots_of. rewrite List.filter_app. simpl. by destruct (negb _).
Qed.

Lemma kids_of_snoc h2 idMap pid a (prefix : list value) c :
  kids_of h2 idMap pid a (prefix ++ [c])
  = kids_of h2 idMap pid a prefix
    ++ (if truthy (field h2 c pid) && is_ref_to a (Map_get idMap (field h2 c pid))
        then [c] else []).
Proof.
  unfold kids_of. rewrite List.filter_app. simpl. by destruct (_ && _).
Qed.

Lemma kids_of_none h2 idMap pid a (prefix : list value) :
  (forall c, c ∈ prefix ->
     truthy (field h2 c pid) && is_ref_to a (Map_get idMap (field h2 c pid)) = false) ->
  kids_of h2 idMap pid a prefix = [].
Proof.
  induction prefix as [| c prefix IH]; intros H; [done |].
  unfold kids_of in *. simpl. rewrite (H c) by left.
  apply IH. intros c' Hc'. apply H. by right.
Qed.

Lemma grown_nil (o : option object) : grown o [] = o.
Proof. destruct o as [[] |]; simpl; by rewrite ?app_nil_r. Qed.

Lemma props_get_has (ps : list (string * value)) key :
  props_get ps key <> VUndefined -> props_has ps key = true.
Proof.
  unfold props_has. induction ps as [| [k' x] ps IH]; simpl; [done |].
  destruct (String.eqb k' key); [done | apply IH].
Qed.

(** A reference read under a key is an own property, and conversely. *)
Lemma lookup_ref_own (ps : list (string * value)) key z :
  lookup ps key = VRef z -> props_get ps key = VRef z.
Proof.
  unfold lookup, inherited. destruct (props_has ps key); [done |].
  by destruct (includes Object_prototype_names key).
Qed.

Lemma own_ref_lookup (ps : list (string * value)) key z :
  props_get ps key = VRef z -> lookup ps key = VRef z.
Proof.
  intros H. unfold lookup. rewrite props_get_has; [done |]. by rewrite H.
Qed.

(** One round of the second loop, when every parent is there and can be
    given children. *)
Lemma attach_ok h2 d tree cs idMap pid children kl (prefix : list value) c i hc r hc' :
  ready h2 d tree cs idMap pid children ->
  building h2 d tree cs idMap pid children kl prefix hc ->
  c ∈ cs ->
  (pid <> children \/ forall a, c = VRef a -> kids_of h2 idMap pid a prefix = []) ->
  attach tree idMap pid children c i tt hc = (r, hc') ->
  r = Ok tt
  /\ exists kl', building h2 d tree cs idMap pid children kl' (prefix ++ [c]) hc'.
Proof.
  intros (Hd0 & Ht0 & Hdt & Hrecs & Hcinj & Hpar & _)
         (Hd & Ht & Hlen & Hsub & Hk & Hbound & Hinj & Hrest) Hc Hkeys.
  rewrite Forall_forall in Hrecs.
  destruct (Hrecs _ Hc) as (ac & qsc & -> & Hac & Hcc).
  pose proof (lookup_lt_Some _ _ _ Hd0) as Hdlt.
  pose proof (lookup_lt_Some _ _ _ Ht0) as Htlt.
  assert (forall a (qs : list (string * value)),
            h2 !! a = Some (OPlain qs) -> a <> tree /\ a <> d /\ a < length h2) as Hrecloc.
  { intros a qs Ha. split_and!; [intros -> | intros -> | by eapply lookup_lt_Some]; congruence. }
  assert (forall a (qs : list (string * value)) x,
            VRef a ∈ cs -> h2 !! a = Some (OPlain qs) -> lookup qs children = VRef x ->
            x < length h2 /\ x <> d /\ x <> tree /\ VRef x ∉ cs) as Hcloc.
  { intros a qs x Ha Hqa Hx. destruct (Hrecs _ Ha) as (a' & qs' & [= <-] & Hqa' & Hx').
    rewrite Hqa in Hqa'. simplify_eq. by apply Hx'. }
  assert (field h2 (VRef ac) pid = lookup qsc pid) as Hfield.
  { unfold field. by rewrite Hac. }
  assert (forall c', c' ∈ prefix ++ [VRef ac] -> c' ∈ cs) as Hsub'.
  { intros c' [Hin | ->%list_elem_of_singleton]%elem_of_app; auto. }
  assert (exists ps, hc !! ac = Some (OPlain ps) /\ lookup ps pid = lookup qsc pid)
    as (ps & Hps & Hpid).
  { specialize (Hk ac qsc Hc Hac). destruct (kl ac) as [l |].
    - destruct Hk as (_ & H1 & H2 & H3). eexists. split; [exact H1 |].
      destruct Hkeys as [Hne | Hall].
      + apply lookup_set_ne. congruence.
      + exfalso. by apply H3, Hall.
    - destruct Hk as [H1 _]. eauto. }
  unfold attach. rewrite (bind_ok _ _ _ _ _ (get_prop_plain _ _ _ _ Hps)), Hpid.
  specialize (Hpar _ Hc). rewrite Hfield in Hpar.
  destruct (truthy (lookup qsc pid)) eqn:Hp; cbn [negb].
  2: { (* a root *)
    unfold push. rewrite Ht. intros [= <- <-]. split; [done |]. exists kl.
    split_and!.
    - by rewrite list_lookup_insert_ne.
    - rewrite roots_of_snoc, Hfield, Hp. simpl.
      apply list_lookup_insert_eq. by eapply lookup_lt_Some.
    - by rewrite length_insert.
    - done.
    - intros a qs Ha Hqa. specialize (Hk a qs Ha Hqa).
      destruct (Hrecloc a qs Hqa) as (? & ? & ?).
      rewrite kids_of_snoc, Hfield, Hp. simpl. rewrite app_nil_r.
      destruct (kl a) as [l |] eqn:Hkl.
      + destruct (Hbound _ _ Hkl). rewrite !list_lookup_insert_ne by lia. done.
      + destruct Hk as (Hk1 & Hk2 & Hk3). split_and!; [| done |].
        * by rewrite list_lookup_insert_ne.
        * intros x Hx. destruct (Hcloc a qs x Ha Hqa Hx) as (_ & _ & ? & _).
          rewrite list_lookup_insert_ne by done. by apply Hk3.
    - intros a l Hkl. rewrite length_insert. eauto.
    - done.
    - intros x ? ? ? ?. rewrite list_lookup_insert_ne by done. by apply Hrest. }
  destruct (Hpar eq_refl) as [Hpin Hcan]. clear Hpar.
  destruct (Hrecs _ Hpin) as (b & qsb & Eb & Hb0 & Hcb). rewrite Eb in Hpin, Hcan |- *.
  destruct (Hrecloc b qsb Hb0) as (Hbt & Hbd & Hblt).
  pose proof (Hk b qsb Hpin Hb0) as Hkb.
  assert (field h2 (VRef b) children = lookup qsb children) as Hfb.
  { unfold field. by rewrite Hb0. }
  unfold can_take_children in Hcan. rewrite Hfb in Hcan.
  assert (forall a, kids_of h2 idMap pid a (prefix ++ [VRef ac])
                    = kids_of h2 idMap pid a prefix
                      ++ (if Nat.eqb a b then [VRef ac] else [])) as Hkids.
  { intros a. by rewrite kids_of_snoc, Hfield, Hp, Eb. }
  assert (roots_of h2 pid (prefix ++ [VRef ac]) = roots_of h2 pid prefix) as Hroots.
  { rewrite roots_of_snoc, Hfield, Hp. simpl. by rewrite app_nil_r. }
  destruct (kl b) as [l |] eqn:Hklb.
  { (* the parent has been given a children array *)
    destruct Hkb as (Hfalsy & Hb & Hl & Hne).
    rewrite (bind_ok _ _ _ _ _ (get_prop_plain _ _ _ _ Hb)), lookup_set_eq.
    cbn [truthy negb]. rewrite bind_eq. unfold ret at 1.
    rewrite (bind_ok _ _ _ _ _ (get_prop_plain _ _ _ _ Hb)), lookup_set_eq.
    unfold push. rewrite Hl. intros [= <- <-]. split; [done |]. exists kl.
    destruct (Hbound _ _ Hklb) as [Hl1 Hl2].
    split_and!.
    - rewrite list_lookup_insert_ne by lia. done.
    - rewrite Hroots, list_lookup_insert_ne by lia. done.
    - by rewrite length_insert.
    - done.
    - intros a qs Ha Hqa. specialize (Hk a qs Ha Hqa).
      destruct (Hrecloc a qs Hqa) as (? & ? & ?).
      rewrite Hkids.
      destruct (Nat.eqb_spec a b) as [-> | Hab].
      + rewrite Hklb in *. rewrite Hb0 in Hqa. simplify_eq.
        split_and!.
        * done.
        * rewrite list_lookup_insert_ne by lia. done.
        * apply list_lookup_insert_eq. done.
        * by destruct (kids_of h2 idMap pid b prefix).
      + rewrite app_nil_r. destruct (kl a) as [la |] eqn:Hkla.
        * destruct (Hbound _ _ Hkla).
          assert (la <> l) by (intros ->; apply Hab; by eapply Hinj).
          rewrite !list_lookup_insert_ne by lia. done.
        * destruct Hk as (Hk1 & Hk2 & Hk3). split_and!; [| done |].
          -- rewrite list_lookup_insert_ne by lia. done.
          -- intros x Hx. destruct (Hcloc a qs x Ha Hqa Hx) as (? & _).
             rewrite list_lookup_insert_ne by lia. by apply Hk3.
    - intros a la Hkl. rewrite length_insert. eauto.
    - done.
    - intros x ? ? ? ?. rewrite list_lookup_insert_ne by lia. by apply Hrest. }
  destruct Hkb as (Hb & Hor & Hgrow).
  rewrite (bind_ok _ _ _ _ _ (get_prop_plain _ _ _ _ Hb)).
  destruct Hcan as [Hfalsy | (l0 & es0 & Hl0 & Hes0)].
  { (* a new children array *)
    assert (kids_of h2 idMap pid b prefix = []) as Hnone.
    { destruct Hor as [? | (l0 & es0 & Hl0 & _)]; [done |]. by rewrite Hl0 in Hfalsy. }
    rewrite Hfalsy. cbn [negb].
    rewrite bind_eq, bind_eq. unfold alloc at 1.
    assert ((hc ++ [OArray []]) !! b = Some (OPlain qsb)) as Hb1
      by by apply lookup_app_l_Some.
    rewrite (set_prop_plain _ _ _ _ _ Hb1) by by apply lookup_falsy_own.
    set (l := length hc).
    set (hc2 := <[b := OPlain (props_set qsb children (VRef l))]> (hc ++ [OArray []])).
    assert (hc2 !! b = Some (OPlain (props_set qsb children (VRef l)))) as Hb2.
    { apply list_lookup_insert_eq. rewrite length_app. lia. }
    rewrite (bind_ok _ _ _ _ _ (get_prop_plain _ _ _ _ Hb2)), lookup_set_eq.
    assert (hc2 !! l = Some (OArray [])) as Hl.
    { unfold hc2. rewrite list_lookup_insert_ne by (unfold l; lia).
      unfold l. by rewrite lookup_app_r, Nat.sub_diag by done. }
    unfold push. rewrite Hl. intros [= <- <-]. split; [done |].
    assert (forall x, x < l -> x <> b -> <[l := OArray [VRef ac]]> hc2 !! x = hc !! x)
      as Hsame.
    { intros x Hx Hxb. unfold hc2. rewrite !list_lookup_insert_ne by lia.
      apply lookup_app_l. done. }
    assert (length (<[l := OArray [VRef ac]]> hc2) = S l) as Hlen'.
    { unfold hc2. rewrite !length_insert, length_app. simpl. lia. }
    exists (fun a => if Nat.eqb a b then Some l else kl a).
    split_and!.
    - rewrite Hsame by (unfold l; lia). done.
    - rewrite Hroots, Hsame by (unfold l; lia). done.
    - rewrite Hlen'. unfold l. lia.
    - done.
    - intros a qs Ha Hqa. specialize (Hk a qs Ha Hqa).
      destruct (Hrecloc a qs Hqa) as (? & ? & ?).
      rewrite Hkids.
      destruct (Nat.eqb_spec a b) as [-> | Hab].
      + rewrite Hb0 in Hqa. simplify_eq. rewrite Hnone. split_and!.
        * done.
        * rewrite list_lookup_insert_ne by (unfold l; lia). done.
        * apply list_lookup_insert_eq. unfold hc2.
          rewrite length_insert, length_app. simpl. unfold l. lia.
        * done.
      + rewrite app_nil_r. destruct (kl a) as [la |] eqn:Hkla.
        * destruct (Hbound _ _ Hkla).
          rewrite !Hsame by (unfold l; lia). done.
        * destruct Hk as (Hk1 & Hk2 & Hk3). split_and!; [| done |].
          -- rewrite Hsame by (unfold l; lia). done.
          -- intros x Hx. destruct (Hcloc a qs x Ha Hqa Hx) as (? & _ & _ & Hxc).
             rewrite Hsame; [by apply Hk3 | unfold l; lia |]. by intros ->.
    - intros a la. rewrite Hlen'. destruct (Nat.eqb_spec a b) as [-> | Hab].
      + intros [= <-]. unfold l. lia.
      + intros Hkl. destruct (Hbound _ _ Hkl). lia.
    - intros a a' la.
      destruct (Nat.eqb_spec a b) as [-> | Hab];
        destruct (Nat.eqb_spec a' b) as [-> | Hab']; try done.
      + intros [= <-] Hkl. destruct (Hbound _ _ Hkl). unfold l in *. lia.
      + intros Hkl [= <-]. destruct (Hbound _ _ Hkl). unfold l in *. lia.
      + apply Hinj.
    - intros x Hx Hxt Hxc Hxk. rewrite Hsame; [by apply Hrest | unfold l; lia |].
      intros ->. done. }
  { (* the parent had a children array *)
    destruct (Hcloc b qsb l0 Hpin Hb0 Hl0) as (Hl0lt & Hl0d & Hl0t & Hl0c).
    pose proof (Hgrow l0 Hl0) as Hl0hc. rewrite Hes0 in Hl0hc. simpl in Hl0hc.
    rewrite Hl0. cbn [truthy negb]. rewrite bind_eq. unfold ret at 1.
    rewrite (bind_ok _ _ _ _ _ (get_prop_plain _ _ _ _ Hb)), Hl0.
    unfold push. rewrite Hl0hc. intros [= <- <-]. split; [done |]. exists kl.
    assert (forall a, VRef a ∈ cs -> a <> l0) as Hrecl0 by (by intros a Ha ->).
    split_and!.
    - rewrite list_lookup_insert_ne by done. done.
    - rewrite Hroots, list_lookup_insert_ne by done. done.
    - by rewrite length_insert.
    - done.
    - intros a qs Ha Hqa. specialize (Hk a qs Ha Hqa).
      pose proof (Hrecl0 a Ha).
      rewrite Hkids.
      destruct (Nat.eqb_spec a b) as [-> | Hab].
      + rewrite Hklb in *. rewrite Hb0 in Hqa. simplify_eq.
        split_and!.
        * rewrite list_lookup_insert_ne by done. done.
        * right. by exists l0, es0.
        * intros x Hx. rewrite Hl0 in Hx. simplify_eq.
          rewrite list_lookup_insert_eq by by eapply lookup_lt_Some.
          rewrite Hes0. simpl. by rewrite app_assoc.
      + rewrite app_nil_r. destruct (kl a) as [la |] eqn:Hkla.
        * destruct (Hbound _ _ Hkla).
          rewrite !list_lookup_insert_ne by lia. done.
        * destruct Hk as (Hk1 & Hk2 & Hk3). split_and!; [| done |].
          -- rewrite list_lookup_insert_ne by done. done.
          -- intros x Hx.
             assert (x <> l0) by (intros ->; apply Hab; by eapply Hcinj).
             rewrite list_lookup_insert_ne by done. by apply Hk3.
    - intros a la Hkl. rewrite length_insert. eauto.
    - done.
    - intros x Hx Hxt Hxc Hxk.
      assert (x <> l0) by (intros ->; by eapply Hxk).
      rewrite list_lookup_insert_ne by done. by apply Hrest. }
Qed.

(** The second loop over records whose parents are all there: it ends
    without an exception, every record attached. *)
Lemma attach_all h2 d tree cs idMap pid children :
  ready h2 d tree cs idMap pid children ->
  forall remaining index hc kl,
    index + remaining = length cs ->
    building h2 d tree cs idMap pid children kl (take index cs) hc ->
    exists kl' hc',
      forEach_from (attach tree idMap pid children) d remaining index tt hc = (Ok tt, hc')
      /\ building h2 d tree cs idMap pid children kl' cs hc'.
Proof.
  intros Hready.
  induction remaining as [| remaining IH]; intros index hc kl Hidx Hb.
  - exists kl, hc. split; [done |]. by rewrite take_ge in Hb by lia.
  - pose proof Hb as (Hd & _). simpl. rewrite Hd.
    destruct (lookup_lt_is_Some_2 cs index) as [c Hc]; [lia |].
    rewrite Hc, bind_eq.
    destruct (attach tree idMap pid children c index () hc) as [r hc1] eqn:Hrun.
    assert (pid <> children
            \/ forall a, c = VRef a -> kids_of h2 idMap pid a (take index cs) = [])
      as Hord.
    { destruct Hready as (_ & _ & _ & _ & _ & _ & [? | Hord]); [by left | right].
      intros a ->. by apply Hord. }
    destruct (attach_ok _ _ _ _ _ _ _ _ _ _ _ _ _ _ Hready Hb
                (list_elem_of_lookup_2 _ _ _ Hc) Hord Hrun) as [-> [kl1 Hb1]].
    rewrite <- (take_S_r _ _ _ Hc) in Hb1.
    apply (IH (S index) hc1 kl1); [lia | done].
Qed.

(** *** The index, by position *)

Lemma find_last_lookup (f : value -> bool) (items : list value) i :
  find_last f items = Some i ->
  exists x, items !! i = Some x /\ f x = true.
Proof.
  revert i. induction items as [| x items IH]; intros i; simpl; [done |].
  destruct (find_last f items) as [k |].
  - intros [= <-]. by apply IH.
  - destruct (f x) eqn:E; [| done]. intros [= <-]. eauto.
Qed.

Lemma find_last_Exists (f : value -> bool) (items : list value) :
  Exists (fun x => f x = true) items -> is_Some (find_last f items).
Proof.
  induction 1 as [x items Hx | x items _ IH]; simpl.
  - destruct (find_last f items); [eauto |]. rewrite Hx. eauto.
  - destruct IH as [k ->]. eauto.
Qed.

Lemma find_last_ext (f g : value -> bool) (items cs : list value) :
  Forall2 (fun it c => f it = g c) items cs ->
  find_last f items = find_last g cs.
Proof. induction 1 as [| it c items cs H _ IH]; simpl; [done |]. by rewrite IH, H. Qed.

(** The index holds, for a key, the last record that has it as its id. *)
Lemma index_find_last h id (cs : list value) p :
  forall m,
    Map_get (fold_left (fun idMap c => Map_set idMap (field h c id) c) cs m) p
    = match find_last (fun c => SameValueZero (field h c id) p) cs with
      | Some i => default VUndefined (cs !! i)
      | None => Map_get m p
      end.
Proof.
  induction cs as [| c cs IH]; intros m; simpl; [done |].
  rewrite IH. destruct (find_last _ cs) as [k |]; [done |].
  rewrite Map_get_set. by destruct (SameValueZero _ _).
Qed.

Lemma filter_combine (P : value * value -> bool) (Q : value -> bool)
    (items cs : list value) :
  Forall2 (fun it c => P (it, c) = Q c) items cs ->
  map snd (List.filter P (combine items cs)) = List.filter Q cs.
Proof.
  induction 1 as [| it c items cs H _ IH]; simpl; [done |].
  rewrite H. destruct (Q c); simpl; by rewrite IH.
Qed.

(** *** The layout of the copies *)

(** An element of a chain has a range that no other element's overlaps. *)
Lemma chain_lookup_sep {A B} (R : nat -> nat -> A -> B -> Prop) a b xs ys i x :
  (forall lo hi x y, R lo hi x y -> lo <= hi) ->
  chain R a b xs ys -> xs !! i = Some x ->
  exists lo hi y,
    ys !! i = Some y /\ R lo hi x y /\ a <= lo /\ hi <= b
    /\ forall m x', m <> i -> xs !! m = Some x' ->
         exists lo' hi' y',
           ys !! m = Some y' /\ R lo' hi' x' y' /\ (hi' <= lo \/ hi <= lo').
Proof.
  intros HR Hc. revert i.
  induction Hc as [lo | lo mid hi x0 y0 xs ys H Hc IH]; intros i Hi; [done |].
  pose proof (HR _ _ _ _ H) as Hle. pose proof (chain_le _ _ _ _ _ HR Hc) as Hle'.
  destruct i as [| i]; simpl in Hi.
  - simplify_eq. exists lo, mid, y0. split_and!; [done | done | done | done |].
    intros [| m] x' Hm Hx'; [done |]. simpl in Hx'.
    destruct (chain_lookup R _ _ _ _ _ _ HR Hc Hx') as (lo' & hi' & y' & ? & ? & ? & ?).
    exists lo', hi', y'. split_and!; [done | done | by right].
  - destruct (IH _ Hi) as (lo1 & hi1 & y & ? & ? & ? & ? & Hsep).
    exists lo1, hi1, y. split_and!; [done | done | lia | done |].
    intros [| m] x' Hm Hx'; simpl in Hx'.
    + simplify_eq. exists lo, mid, y0. split_and!; [done | done | left; lia].
    + apply (Hsep m x'); [lia | done].
Qed.

(** A field of a record and the same field of its laid-out copy: the same
    data, the copy's inside the range of the record's fields and apart
    from what the other fields refer to. *)
Lemma props_get_laid h h1 a b (ps qs : list (string * value))
    (fs : list (string * shape)) key :
  Forall2 (fun p f => fst p = fst f /\ repr h (snd p) (snd f)) ps fs ->
  chain (fun a b q f => fst q = fst f /\ laid h1 a b (snd q) (snd f)) a b qs fs ->
  exists t lo hi,
    repr h (props_get ps key) t /\ laid h1 lo hi (props_get qs key) t
    /\ a <= lo /\ hi <= b
    /\ forall key' z, key' <> key -> (key', VRef z) ∈ qs -> ~ (lo <= z < hi).
Proof.
  intros Hp Hq. revert ps Hp.
  induction Hq as [lo | lo mid hi [k y] [k' t] qs fs [Hk Hl] Hq IH]; intros ps Hp.
  - apply Forall2_nil_inv_r in Hp as ->. exists (SPrim VUndefined), lo, lo.
    split_and!; [by constructor | by constructor | done | done |]. intros; lia.
  - apply Forall2_cons_inv_r in Hp as ([k'' x] & ps' & [Hk' Hr] & Hp & ->).
    simpl in *. subst k k''.
    pose proof (laid_le _ _ _ _ _ Hl).
    pose proof (fun lo hi (p : string * value) (f : string * shape)
                  (H : fst p = fst f /\ laid h1 lo hi (snd p) (snd f)) =>
                  laid_le h1 lo hi _ _ (proj2 H)) as HR.
    assert (mid <= hi) by (eapply chain_le; [exact HR | exact Hq]).
    destruct (String.eqb_spec k' key) as [-> | Hne].
    + exists t, lo, mid. split_and!; [done | done | done | done |].
      intros key' z Hkey' Hin Hz.
      apply elem_of_cons in Hin as [[= ? ?] | Hin]; [done |].
      destruct (chain_elem _ _ _ _ _ _ HR Hq Hin) as (lo' & hi' & f & ? & ? & _ & Hz').
      simpl in Hz'. apply laid_ref in Hz' as [-> ?]. lia.
    + destruct (IH _ Hp) as (t' & lo' & hi' & ? & ? & ? & ? & Hsep).
      exists t', lo', hi'. split_and!; [done | done | lia | done |].
      intros key' z Hkey' Hin Hz.
      apply elem_of_cons in Hin as [[= ? ?] | Hin]; [| by eapply Hsep].
      subst. apply laid_ref in Hl as [-> ?]. lia.
Qed.

(** The copy of a record in a laid-out list of copies. *)
Lemma record_copy h h1 a0 b0 (items cs : list value)
    (fss : list (list (string * shape))) i item c :
  Forall2 (repr h) items (SObj <$> fss) ->
  chain (laid h1) a0 b0 cs (SObj <$> fss) ->
  items !! i = Some item -> cs !! i = Some c ->
  exists a (qs : list (string * value)) fs hi,
    c = VRef a /\ h1 !! a = Some (OPlain qs) /\ a0 <= a /\ a < hi /\ hi <= b0
    /\ repr h item (SObj fs) /\ laid h1 a hi c (SObj fs)
    /\ (forall key,
          exists t lo' hi',
            repr h (own_field h item key) t /\ laid h1 lo' hi' (props_get qs key) t
            /\ a < lo' /\ hi' <= hi
            /\ forall key' z, key' <> key -> (key', VRef z) ∈ qs -> ~ (lo' <= z < hi'))
    /\ (forall key z, (key, VRef z) ∈ qs -> a < z < hi)
    /\ (forall m a' (qs' : list (string * value)),
          cs !! m = Some (VRef a') -> m <> i -> h1 !! a' = Some (OPlain qs') ->
          (a' < a \/ hi <= a')
          /\ forall key z, (key, VRef z) ∈ qs' -> z < a \/ hi <= z).
Proof.
  intros Hall Hc Hi Hci.
  destruct (chain_lookup_sep _ _ _ _ _ _ _ (laid_le h1) Hc Hci)
    as (lo & hi & t & Ht & Hlaid & Hlo & Hhi & Hsep).
  pose proof (Forall2_lookup_lr _ _ _ _ _ _ Hall Hi Ht) as Hrepr.
  apply list_lookup_fmap_Some in Ht as (fs & -> & _).
  inversion Hlaid as [| | ? ? qs ? Hlook Hnd Hch]; subst.
  inversion Hrepr as [| | l0 ps ? Hlook0 Hnd0 Hps]; subst.
  assert (S lo <= hi) as Hlohi.
  { eapply chain_le; [| exact Hch]. intros ? ? ? ? [_ H]. by apply laid_le in H. }
  exists lo, qs, fs, hi. split_and!; try done.
  - intros key. unfold own_field. rewrite Hlook0.
    destruct (props_get_laid h h1 _ _ _ _ _ key Hps Hch)
      as (t & lo' & hi' & ? & ? & ? & ? & ?).
    exists t, lo', hi'. split_and!; [done | done | lia | done | done].
  - intros key z Hin. destruct (laid_entry _ _ _ _ _ _ _ _ Hlaid Hlook Hin) as (_ & ? & _).
    done.
  - intros m a' qs' Hm Hne Hqa'.
    destruct (Hsep m _ Hne Hm) as (lo' & hi' & y' & Hy' & Hl' & Hor).
    apply list_lookup_fmap_Some in Hy' as (fs' & -> & _).
    pose proof (laid_ref _ _ _ _ _ Hl') as [-> ?].
    split; [lia |]. intros key z Hin.
    destruct (laid_entry _ _ _ _ _ _ _ _ Hl' Hqa' Hin) as (_ & ? & _). lia.
Qed.

Lemma elements_falsy h v : truthy v = false -> elements h v = [].
Proof. by destruct v. Qed.

Lemma field_ref_own h item key z :
  field h item key = VRef z -> own_field h item key = VRef z.
Proof.
  unfold field, own_field. destruct item as [| | | | | l | |]; try done.
  destruct (h !! l) as [[] |]; try done. apply lookup_ref_own.
Qed.

Lemma own_field_ref h item key z :
  own_field h item key = VRef z -> field h item key = VRef z.
Proof.
  unfold field, own_field. destruct item as [| | | | | l | |]; try done.
  destruct (h !! l) as [[] |]; try done. apply own_ref_lookup.
Qed.

(** C4, as the code has it: for a list of plain records in which every
    truthy parent key is the id of some record and is not itself an
    object, in which the parent of every such record (the last record
    with that id) has a children value that is falsy or an array, and in
    which the parent key is not the children key unless every parent
    comes before its children, the call returns a new array of the copies of the records with
    a falsy parent key, in the order of the list; the copy of every record
    that is the parent of others has under the children key an array in
    which the copies of its children come, in the order of the list, after
    the copies of what its children array held already; and every copy
    holds the data of its record under the other keys. *)
Theorem arrayToTree_builds_tree (h : heap) (arr : loc) (items : list value)
    (fss : list (list (string * shape))) (fuel : nat)
    (id pid children : option string) :
  let id' := default "id"%string id in
  let pid' := default "pid"%string pid in
  let children' := default "children"%string children in
  h !! arr = Some (OArray items) ->
  repr h (VRef arr) (SArr (SObj <$> fss)) ->
  depth (SArr (SObj <$> fss)) < fuel ->
  pid' <> children'
  \/ (forall i item k,
        items !! i = Some item -> truthy (field h item pid') = true ->
        parent_index h id' items (field h item pid') = Some k -> k < i) ->
  Forall
    (fun item =>
       truthy (field h item pid') = true ->
       not_ref (field h item pid')
       /\ exists k p,
            parent_index h id' items (field h item pid') = Some k
            /\ items !! k = Some p
            /\ can_take_children h p children')
    items ->
  exists h' tree cs,
    arrayToTree fuel (Some (VRef arr)) id pid children h = (Ok (VRef tree), h')
    /\ length h <= tree
    /\ h' !! tree = Some (OArray (roots h pid' items cs))
    /\ length cs = length items
    /\ NoDup cs
    /\ forall i item c,
         items !! i = Some item -> cs !! i = Some c ->
         placed h h' children' item c (children_of h id' pid' items cs i).
Proof.
  intros id' pid' children' Harr Hrepr Hdepth Hkeys Hparents.
  destruct (clone_list h arr _ fuel Hrepr Hdepth) as (h1 & cs & Hrun & Hext & Hd & Hc).
  inversion Hrepr as [| ? vs ? Harr' Hall |]; subst.
  rewrite Harr in Harr'. simplify_eq. rename vs into items.
  pose proof (Forall2_length _ _ _ Hall) as Hlen1.
  pose proof (chain_length _ _ _ _ _ Hc) as Hlen2.
  rewrite length_fmap in Hlen1, Hlen2.
  pose proof (lookup_lt_Some _ _ _ Hd) as Hdlt.
  set (d := length h) in *. set (tree := length h1).
  set (h2 := h1 ++ [OArray []]).
  set (idMap := index_of h2 id' cs).
  assert (length h2 = S tree) as Hlen_h2.
  { unfold h2. rewrite length_app. simpl. unfold tree. lia. }
  assert (forall x o, h1 !! x = Some o -> h2 !! x = Some o) as Hh12.
  { intros x o Hx. by apply lookup_app_l_Some. }
  assert (forall x, x < tree -> h2 !! x = h1 !! x) as Hh21.
  { intros x Hx. unfold h2. by apply lookup_app_l. }
  assert (forall i c, cs !! i = Some c -> exists item, items !! i = Some item) as Hitem.
  { intros i c Hci. apply lookup_lt_is_Some_2. apply lookup_lt_Some in Hci. lia. }
  pose proof (fun i item c =>
                record_copy h h1 (S d) tree items cs fss i item c Hall Hc) as Hcopy.
  (* a field of a copy, against the field of its record *)
  assert (forall i item c key,
            items !! i = Some item -> cs !! i = Some c ->
            truthy (field h2 c key) = truthy (field h item key)
            /\ (not_ref (field h item key) -> field h2 c key = field h item key)
            /\ (forall p, not_ref p ->
                  SameValueZero (field h2 c key) p
                  = SameValueZero (field h item key) p)) as Hfield.
  { intros i item c key Hi Hci.
    destruct (Hcopy i item c Hi Hci)
      as (a & qs & fs & hi & -> & Hq & _ & _ & _ & Hr & Hl & _).
    assert (field h2 (VRef a) key = field h1 (VRef a) key) as ->
      by (apply field_alloc; eauto).
    destruct (field_clone _ _ _ _ _ _ _ key Hr Hl) as [[Hp ->] | (x & z & -> & ->)].
    - done.
    - split_and!; [done | intros [] | intros p Hp; by destruct p]. }
  (* the records, and what their children values refer to *)
  assert (forall i c, cs !! i = Some c ->
            exists a (qs : list (string * value)),
              c = VRef a /\ h2 !! a = Some (OPlain qs)) as Hrec2.
  { intros i c Hci. destruct (Hitem _ _ Hci) as [item Hi].
    destruct (Hcopy i item c Hi Hci) as (a & qs & fs & hi & -> & Hq & _).
    exists a, qs. auto. }
  assert (forall i a hi,
            (forall m a' (qs' : list (string * value)),
               cs !! m = Some (VRef a') -> m <> i -> h1 !! a' = Some (OPlain qs') ->
               (a' < a \/ hi <= a')
               /\ forall key z, (key, VRef z) ∈ qs' -> z < a \/ hi <= z) ->
            (forall m a', cs !! m = Some (VRef a') -> a <= a' < hi -> m = i)
            /\ (forall m a' (qs' : list (string * value)) key z,
                  cs !! m = Some (VRef a') -> h2 !! a' = Some (OPlain qs') ->
                  (key, VRef z) ∈ qs' -> a <= z < hi -> m = i)) as Hlay.
  { intros i a hi Hsep. split.
    - intros m a' Hm Ha'. destruct (decide (m = i)) as [| Hne]; [done |]. exfalso.
      destruct (Hitem _ _ Hm) as [item' Hi'].
      destruct (Hcopy m item' _ Hi' Hm) as (? & qs' & _ & _ & [= <-] & Hq' & _).
      destruct (Hsep m a' qs' Hm Hne Hq') as [? _]. lia.
    - intros m a' qs' key z Hm Hq' Hin Hz.
      destruct (decide (m = i)) as [| Hne]; [done |]. exfalso.
      destruct (Hitem _ _ Hm) as [item' Hi'].
      destruct (Hcopy m item' _ Hi' Hm) as (? & qs'' & _ & _ & [= <-] & Hq'' & _).
      rewrite (Hh12 _ _ Hq'') in Hq'. simplify_eq.
      destruct (Hsep m a' qs' Hm Hne Hq'') as [_ Hz']. specialize (Hz' _ _ Hin). lia. }
  (* the parent of a record that is not a root *)
  assert (forall j item c,
            items !! j = Some item -> cs !! j = Some c ->
            truthy (field h item pid') = true ->
            exists k ck p,
              parent_index h id' items (field h item pid') = Some k
              /\ cs !! k = Some ck /\ items !! k = Some p
              /\ can_take_children h p children'
              /\ Map_get idMap (field h2 c pid') = ck) as Hparent.
  { intros j item c Hj Hcj Htr.
    destruct (Forall_lookup_1 _ _ _ _ Hparents Hj Htr) as (Hnr & k & p & Hk & Hpk & Hcan).
    destruct (Hfield j item c pid' Hj Hcj) as (_ & Heq & _). rewrite (Heq Hnr).
    assert (find_last (fun c => SameValueZero (field h2 c id') (field h item pid')) cs
            = parent_index h id' items (field h item pid')) as Hfl.
    { symmetry. apply find_last_ext.
      apply Forall2_same_length_lookup_2; [lia |]. intros k' it ck Hit Hck.
      destruct (Hfield k' it ck id' Hit Hck) as (_ & _ & HS). by rewrite HS. }
    destruct (lookup_lt_is_Some_2 cs k) as [ck Hck].
    { apply lookup_lt_Some in Hpk. lia. }
    exists k, ck, p. split_and!; [done | done | done | done |].
    unfold idMap, index_of. rewrite index_find_last, Hfl. by rewrite Hk, Hck. }
  assert (h2 !! d = Some (OArray cs)) as Hd2 by by apply Hh12.
  assert (h2 !! tree = Some (OArray [])) as Ht2.
  { unfold h2, tree. by rewrite lookup_app_r, Nat.sub_diag by done. }
  assert (ready h2 d tree cs idMap pid' children') as Hready.
  { split_and!; [done | done | unfold tree; lia | | | |].
    - apply Forall_lookup. intros i c Hci.
      destruct (Hitem _ _ Hci) as [item Hi].
      destruct (Hcopy i item c Hi Hci)
        as (a & qs & fs & hi & -> & Hq & ? & ? & ? & _ & _ & _ & Hent & Hsep).
      destruct (Hlay i a hi Hsep) as [Hrecs _].
      exists a, qs.
      split_and!; [done | by apply Hh12 |]. intros x Hx%lookup_ref.
      specialize (Hent _ _ Hx).
      split_and!; [lia | lia | lia |].
      intros [m Hm]%list_elem_of_lookup.
      assert (m = i) as -> by (apply (Hrecs m x); [done | lia]).
      rewrite Hci in Hm. simplify_eq. lia.
    - intros a a' qs qs' x [i Hi]%list_elem_of_lookup [m Hm]%list_elem_of_lookup
             Hq Hq' Hx%lookup_ref Hx'%lookup_ref.
      destruct (Hitem _ _ Hi) as [item Hit].
      destruct (Hcopy i item _ Hit Hi)
        as (? & qs0 & fs & hi & [= <-] & Hq0 & ? & ? & ? & _ & _ & _ & Hent & Hsep).
      rewrite (Hh12 _ _ Hq0) in Hq. simplify_eq.
      destruct (Hlay i a hi Hsep) as [_ Hothers].
      specialize (Hent _ _ Hx).
      assert (m = i) as -> by (apply (Hothers m a' qs' _ x Hm Hq' Hx'); lia).
      rewrite Hi in Hm. by simplify_eq.
    - intros c [j Hcj]%list_elem_of_lookup Htr. destruct (Hitem _ _ Hcj) as [item Hj].
      destruct (Hfield j item c pid' Hj Hcj) as (Ht & _). rewrite Ht in Htr.
      destruct (Hparent j item c Hj Hcj Htr) as (k & ck & p & _ & Hck & Hpk & Hcan & ->).
      split; [by eapply list_elem_of_lookup_2 |].
      destruct Hcan as [Hfalsy | (lo & es & Hlo & Hes)].
      + left. destruct (Hfield k p ck children' Hpk Hck) as (-> & _). done.
      + right.
        destruct (Hcopy k p ck Hpk Hck)
          as (a & qs & fs & hi & -> & Hq & _ & _ & _ & _ & _ & Hdata & _).
        destruct (Hdata children') as (t & lo' & hi' & Hrt & Hlt & _).
        rewrite (field_ref_own _ _ _ _ Hlo) in Hrt.
        inversion Hrt as [? Hv | ? ? ts Hes' _ |]; subst; [destruct Hv | | congruence].
        inversion Hlt as [| ? ? es1 ? Hes1 _ |]; subst.
        exists lo', es1. split; [| by apply Hh12].
        unfold field. rewrite (Hh12 _ _ Hq). apply own_ref_lookup. congruence.
    - destruct Hkeys as [? | Hord]; [by left | right].
      intros i a Hci. apply kids_of_none.
      intros c [j [Hcj Hji]%lookup_take_Some]%list_elem_of_lookup.
      destruct (Hitem _ _ Hcj) as [item Hj].
      destruct (Hfield j item c pid' Hj Hcj) as (Ht & _). rewrite Ht.
      destruct (truthy (field h item pid')) eqn:Htr; [| done]. simpl.
      destruct (Hparent j item c Hj Hcj Htr) as (k & ck & p & Hk & Hck & _ & _ & ->).
      specialize (Hord j item k Hj Htr Hk).
      destruct ck as [| | | | | ak | |]; try done. simpl.
      apply Nat.eqb_neq. intros <-.
      destruct (Hitem _ _ Hci) as [item' Hi'].
      destruct (Hcopy i item' _ Hi' Hci)
        as (? & qs0 & fs & hi & [= <-] & _ & ? & ? & ? & _ & _ & _ & _ & Hsep).
      destruct (Hlay i a hi Hsep) as [Hrecs _].
      pose proof (Hrecs k a Hck ltac:(lia)). lia. }
  assert (building h2 d tree cs idMap pid' children' (fun _ => None) (take 0 cs) h2)
    as Hb0.
  { simpl. split_and!; try done.
    - intros c Hin. by apply elem_of_nil in Hin.
    - intros a qs _ Hq. split_and!; [done | by left |]. intros x _. by rewrite grown_nil. }
  destruct (attach_all _ _ _ _ _ _ _ Hready (length cs) 0 h2 (fun _ => None) eq_refl Hb0)
    as (kl & hf & Hloop & Hbuild).
  destruct Hbuild as (Hdf & Htf & Hlenf & _ & Hk & Hbound & _ & Hrest).
  (* the run *)
  exists hf, tree, cs. split_and!.
  - rewrite arrayToTree_unfold, (bind_ok _ _ _ _ _ Hrun), bind_eq.
    unfold alloc at 1. fold h2 tree d.
    rewrite (bind_ok _ _ _ _ _ (index_build h2 id' d cs Hd2 ltac:(
      apply Forall_lookup; intros i c Hci;
      destruct (Hrec2 _ _ Hci) as (a & qs & -> & Hq);
      by exists a, qs))).
    fold idMap. rewrite bind_eq. unfold forEach. rewrite Hd2.
    fold pid' children'. by rewrite Hloop.
  - unfold tree. lia.
  - rewrite Htf. do 2 f_equal. symmetry. apply filter_combine.
    apply Forall2_same_length_lookup_2; [lia |]. intros j it c Hj Hcj. simpl.
    destruct (Hfield j it c pid' Hj Hcj) as (-> & _). done.
  - lia.
  - apply NoDup_alt. intros i j c Hci Hcj.
    destruct (Hitem _ _ Hci) as [item Hi].
    destruct (Hcopy i item c Hi Hci)
      as (a & qs & fs & hi & -> & _ & ? & ? & ? & _ & _ & _ & _ & Hsep).
    destruct (Hlay i a hi Hsep) as [Hrecs _].
    symmetry. apply (Hrecs j a); [done | lia].
  - intros i item c Hi Hci.
    destruct (Hcopy i item c Hi Hci)
      as (a & qs & fs & hi & -> & Hq & ? & ? & ? & Hr & Hl & Hdata & Hent & Hsep).
    pose proof (Hh12 _ _ Hq) as Hq2.
    destruct (Hlay i a hi Hsep) as [Hrecs Hothers].
    specialize (Hk a qs (list_elem_of_lookup_2 _ _ _ Hci) Hq2).
    assert (kids_of h2 idMap pid' a cs = children_of h id' pid' items cs i) as Hkids.
    { symmetry. unfold children_of, kids_of. apply filter_combine.
      apply Forall2_same_length_lookup_2; [lia |]. intros j it c Hj Hcj. simpl.
      destruct (Hfield j it c pid' Hj Hcj) as (Ht & _). rewrite Ht.
      destruct (truthy (field h it pid')) eqn:Htr; [| done]. simpl.
      destruct (Hparent j it c Hj Hcj Htr) as (k & ck & p & -> & Hck & _ & _ & ->).
      destruct (Hrec2 _ _ Hck) as (ak & ? & -> & _). simpl.
      destruct (Nat.eqb_spec k i) as [-> | Hne].
      - rewrite Hci in Hck. simplify_eq. by rewrite Nat.eqb_refl.
      - destruct (Nat.eqb_spec a ak) as [<- | ]; [| done].
        exfalso. apply Hne. apply (Hrecs k a); [done | lia]. }
    rewrite Hkids in Hk.
    (* what the loop left as it was, inside the copy *)
    assert (forall x, a < x < hi -> lookup qs children' <> VRef x -> hf !! x = h1 !! x)
      as Hkept.
    { intros x Hx Hnc. rewrite Hrest, Hh21; [done | lia | lia | lia | |].
      - intros [m Hm]%list_elem_of_lookup.
        assert (m = i) as -> by (apply (Hrecs m x); [done | lia]).
        rewrite Hci in Hm. simplify_eq. lia.
      - intros a' qs' [m Hm]%list_elem_of_lookup Hq' Hx'.
        assert (m = i) as ->.
        { apply (Hothers m a' qs' children' x Hm Hq'); [by apply lookup_ref | lia]. }
        rewrite Hci in Hm. simplify_eq. }
    assert (forall key, key <> children' ->
              same_data h hf (own_field h item key) (props_get qs key)) as Hagree.
    { intros key Hkey. destruct (Hdata key) as (t & lo' & hi' & Hrt & Hlt & ? & ? & Hksep).
      exists t. split; [done |]. eapply laid_repr, laid_agree; [exact Hlt |].
      intros x Hx. apply Hkept; [lia |].
      intros Hx'%lookup_ref. by apply (Hksep children' x). }
    destruct (kl a) as [l |] eqn:Hkl.
    + destruct Hk as (Hfalsy & Ha & Hl' & Hne). exists a, (props_set qs children' (VRef l)).
      split_and!; [done | lia | done | |].
      * intros key [Hkey | Hnil]; [| done].
        rewrite props_get_set_ne by congruence. by apply Hagree.
      * intros _. exists l, []. rewrite props_get_set_eq.
        destruct (Hbound _ _ Hkl). split_and!; [done | lia | done |].
        destruct (Hfield i item _ children' Hi Hci) as (Ht & _).
        unfold field in Ht at 1. rewrite Hq2, Hfalsy in Ht.
        rewrite elements_falsy by done. constructor.
    + destruct Hk as (Ha & Hor & Hgrow). exists a, qs.
      split_and!; [done | lia | done | |].
      * intros key [Hkey | Hnil]; [by apply Hagree |].
        destruct (Hdata key) as (t & lo' & hi' & Hrt & Hlt & ? & ? & Hksep).
        exists t. split; [done |]. eapply laid_repr, laid_agree; [exact Hlt |].
        intros x Hx.
        destruct (decide (key = children')) as [-> | Hkey];
          [| apply Hkept; [lia |]; intros Hx'%lookup_ref; by apply (Hksep children' x)].
        destruct (lookup qs children') as [| | | | | z | |] eqn:E;
          try (apply Hkept; [lia | done]).
        destruct (decide (z = x)) as [-> | Hzx];
          [| apply Hkept; [lia | congruence]].
        rewrite (Hgrow x eq_refl), Hnil, grown_nil. apply Hh21. lia.
      * intros Hne. destruct Hor as [? | (l0 & es0 & Hl0 & Hes0)]; [done |].
        pose proof (Hent _ _ (lookup_ref _ _ _ Hl0)) as Hl0r.
        exists l0, es0. split_and!; [by apply lookup_ref_own | lia | |].
        { rewrite (Hgrow l0 Hl0), Hes0. done. }
        destruct (Hdata children') as (t & lo' & hi' & Hrt & Hlt & ? & ? & _).
        rewrite (lookup_ref_own _ _ _ Hl0) in Hlt.
        rewrite Hh21 in Hes0 by lia.
        inversion Hlt as [? ? Hv | ? ? es1 ts Hes1 Hch | ? ? ps1 fs1 Hps1 Hnd1 Hch1];
          subst; [destruct Hv | | congruence].
        rewrite Hes0 in Hes1. simplify_eq.
        inversion Hrt as [| lo ? ? Hlo Hes Heq |]; subst.
        symmetry in Heq. apply own_field_ref in Heq.
        unfold elements. rewrite Heq, Hlo.
        pose proof (Forall2_length _ _ _ Hes) as Hlen3.
        pose proof (chain_length _ _ _ _ _ Hch) as Hlen4.
        apply Forall2_same_length_lookup_2; [lia |]. intros n e e1 He He1.
        destruct (chain_lookup _ _ _ _ _ _ _ (laid_le h1) Hch He1)
          as (lo1 & hi1 & tn & Htn & Hln & ? & ?).
        exists tn. split; [by eapply Forall2_lookup_lr |].
        eapply laid_repr, laid_agree; [exact Hln |].
        intros x Hx. apply Hkept; [lia |]. rewrite Hl0. intros [= ->]. lia.
Qed.

Lemma arrayToTree_builds_tree_witness :
  exists h' tree c1 c2 c3 a qs l,
    arrayToTree 3 (Some (VRef 3)) None None None family = (Ok (VRef tree), h')
    /\ h' !! tree = Some (OArray [c1])
    /\ c1 = VRef a /\ h' !! a = Some (OPlain qs)
    /\ props_get qs "children" = VRef l
    /\ h' !! l = Some (OArray [c2; c3]).
Proof.
  destruct (arrayToTree_builds_tree family 3 [VRef 0; VRef 1; VRef 2]
              [ [("id", SPrim (VNumber 1%float)); ("pid", SPrim (VNumber 0%float))];
                [("id", SPrim (VNumber 2%float)); ("pid", SPrim (VNumber 1%float))];
                [("id", SPrim (VNumber 3%float)); ("pid", SPrim (VNumber 1%float))] ]%string
              3 None None None)
    as (h' & tree & cs & Hrun & _ & Htree & Hlen & _ & Hplaced).
  - reflexivity.
  - eapply repr_arr; [reflexivity |].
    repeat constructor;
      (eapply repr_obj; [reflexivity | split; by apply (bool_decide_unpack _) |
                         repeat constructor; simpl; done]).
  - simpl. lia.
  - by left.
  - constructor; [intros Htr; vm_compute in Htr; discriminate |].
    constructor; [| constructor; [| constructor]]; intros _;
      (split; [done |]); exists 0, (VRef 0);
      (split_and!; [reflexivity | reflexivity | by left]).
  - destruct cs as [| c1 [| c2 [| c3 [| c4 cs]]]]; try discriminate Hlen.
    destruct (Hplaced 0 (VRef 0) c1 eq_refl eq_refl) as (a & qs & Ec & _ & Ha & _ & Hkids).
    destruct Hkids as (l & es' & Hl & _ & Hl' & Hes'); [discriminate |].
    apply Forall2_nil_inv_l in Hes' as ->.
    exists h', tree, c1, c2, c3, a, qs, l. split_and!; done.
Defined.

(** A parent that has a children array already keeps it: in
    [[{id:1, pid:0, children:[{id:9}]}, {id:2, pid:1}]] the copy of the second
    record comes after the copy of [{id:9}]. *)
Example arrayToTree_joins_children :
  arrayToTree 5 (Some (VRef 4)) None None None has_children
  = (Ok (VRef 10),
     has_children
     ++ [ OArray [VRef 6; VRef 9];
          OPlain [("id", VNumber 1%float); ("pid", VNumber 0%float);
                  ("children", VRef 7)];
          OArray [VRef 8; VRef 9];
          OPlain [("id", VNumber 9%float)];
          OPlain [("id", VNumber 2%float); ("pid", VNumber 1%float)];
          OArray [VRef 6] ]%string).
Proof. reflexivity. Qed.

(** C4, as stated, fails: in [[{id:1, pid:0, children:5}, {id:2, pid:1}]]
    every parent key is falsy or the id of a record, yet the second record
    is not appended to anything: [(5).push] is not a function. *)
Lemma arrayToTree_taken_children_throws :
  Forall
    (fun item =>
       truthy (field taken_children item "pid") = false
       \/ Exists
            (fun it =>
               SameValueZero (field taken_children it "id")
                 (field taken_children item "pid") = true)
            [VRef 0; VRef 1])
    [VRef 0; VRef 1]
  /\ fst (arrayToTree 3 (Some (VRef 2)) None None None taken_children)
     = Throw TypeError.
Proof.
  split.
  - constructor; [by left |]. constructor; [| constructor]. right. by left.
  - vm_compute. reflexivity.
Qed.

End BuildTree.

(** * Further properties *)

(** ** [formatBytes]: whole values, precision, units *)

Section FormatBytesEdges.

Local Open Scope float_scope.

(** A number above zero is neither zero nor [NaN]. *)
Lemma pos_truthy (x : float) :
  (0 <? x) = true -> Host.number_truthy x = true /\ (x =? 0) = false.
Proof.
  unfold Host.number_truthy.
  rewrite FloatAxioms.ltb_spec, !FloatAxioms.eqb_spec.
  change (Prim2SF 0) with (S754_zero false).
  intros H.
  assert (SFeqb (Prim2SF x) (S754_zero false) = false) as E.
  { unfold SFltb, SFeqb in *. destruct (Prim2SF x) as [s | s | | s m e]; simpl in *; try done.
    - by destruct s.
    - by destruct s. }
  rewrite E. split; [| done]. simpl.
  destruct (SFeqb (Prim2SF x) (Prim2SF x)) eqn:E'; [done |].
  apply SFeqb_refl_iff in E'. by rewrite E' in H.
Qed.

(** X1: when the scaled value is a whole number it is printed as it is,
    without decimals, whatever precision up to 100 is asked for:
    [formatBytes(1048576, 3)] is ["1MB"]. *)
Theorem formatBytes_whole (bytes : float) (decimal : option float) :
  (bytes =? 0) = false ->
  (forall d, decimal = Some d -> (d <=? 100) = true) ->
  Host.isInteger (fst (scale (length units - 1) bytes 0)) = true ->
  formatBytes bytes decimal
  = Ok (Host.Number_toString (fst (scale (length units - 1) bytes 0))
        +:+ unit_at (snd (scale (length units - 1) bytes 0))).
Proof.
  intros Hb _ Hint. unfold formatBytes. rewrite Hb.
  destruct (scale (length units - 1) bytes 0) as [b i]. simpl in *.
  rewrite Hint.
  match goal with |- (if ?c then _ else _) = _ => by destruct c end.
Qed.

Lemma formatBytes_whole_witness :
  formatBytes 1048576 (Some 3) = Ok "1MB"%string.
Proof.
  rewrite (formatBytes_whole 1048576 (Some 3)).
  - vm_compute. reflexivity.
  - reflexivity.
  - intros d [= <-]. reflexivity.
  - vm_compute. reflexivity.
Defined.

(** X2: a precision whose integer part is above 100 makes the call throw the
    [RangeError] of [toFixed] as soon as the scaled value is not whole. *)
Theorem formatBytes_precision_out_of_range (bytes decimal : float) :
  (bytes =? 0) = false ->
  (0 <? decimal) = true ->
  (forall f, Host.ToIntegerOrInfinity decimal = Some f -> (100 < f)%Z) ->
  Host.isInteger (fst (scale (length units - 1) bytes 0)) = false ->
  formatBytes bytes (Some decimal) = Throw RangeError.
Proof.
  intros Hb Hpos Hbig Hint. unfold formatBytes. simpl default. rewrite Hb.
  destruct (pos_truthy _ Hpos) as [-> Hnz]. rewrite Hpos. simpl andb. cbv iota.
  destruct (scale (length units - 1) bytes 0) as [b i]. simpl in Hint.
  rewrite Hnz, Hint. unfold Host.toFixed.
  destruct (Host.ToIntegerOrInfinity decimal) as [f |]; [| done].
  specialize (Hbig f eq_refl).
  assert ((100 <? f)%Z = true) as -> by lia. by rewrite orb_true_r.
Qed.

Lemma formatBytes_precision_out_of_range_witness :
  formatBytes 1536 (Some 101) = Throw RangeError.
Proof.
  apply formatBytes_precision_out_of_range.
  - reflexivity.
  - reflexivity.
  - intros f [= <-]. reflexivity.
  - vm_compute. reflexivity.
Defined.

(** X3: the loop picks one of the nine units; it stops before the last one
    only when the value has come below 1024, and it leaves a value that
    is not at least 1024 (a negative number, [NaN]) as it is, in bytes. *)
Theorem formatBytes_unit_in_table (bytes : float) :
  (snd (scale (length units - 1) bytes 0) < length units)%nat
  /\ (snd (scale (length units - 1) bytes 0) = (length units - 1)%nat
      \/ (k <=? fst (scale (length units - 1) bytes 0)) = false)
  /\ ((k <=? bytes) = false -> scale (length units - 1) bytes 0 = (bytes, 0%nat)).
Proof.
  split_and!.
  - pose proof (scale_index (length units - 1) bytes 0). simpl in *. lia.
  - apply (scale_stops (length units - 1) bytes 0).
  - intros H. simpl. by rewrite H.
Qed.

End FormatBytesEdges.

(** ** [getSelectedItems]: the guard, a missing value, no writes *)

Section GetSelectedItemsEdges.

Local Open Scope string_scope.

(** A loop whose body leaves the heap as it is leaves the heap as it is,
    however it ends. *)
Lemma forEach_from_heap {St} (f : value -> nat -> St -> M St) (l : loc) (h : heap) :
  (forall item i s, snd (f item i s h) = h) ->
  forall remaining index s, snd (forEach_from f l remaining index s h) = h.
Proof.
  intros Hf. induction remaining as [| remaining IH]; intros index s; simpl; [done |].
  destruct (h !! l) as [[vs | ps | proto ps | ps] |]; try done.
  destruct (vs !! index) as [item |]; [| apply IH].
  rewrite bind_eq. specialize (Hf item index s).
  destruct (f item index s h) as [[s' | e | |] h']; simpl in *; subst; done.
Qed.

Lemma forEach_heap {St} (f : value -> nat -> St -> M St) (arr : value) (s : St) (h : heap) :
  (forall item i s, snd (f item i s h) = h) ->
  snd (forEach f arr s h) = h.
Proof.
  intros Hf. unfold forEach.
  assert (forall v name, snd (@call_other v name St h) = h) as Hcall.
  { intros v name. by destruct (@call_other_spec St v name h) as (r & -> & _). }
  destruct arr as [| | b | x | t | l | l | t]; try done.
  destruct (h !! l) as [[vs | ps | proto ps | ps] |] eqn:E; try done.
  by apply forEach_from_heap.
Qed.

(** X4: a [value] that is neither a string nor a number (a boolean,
    [undefined], [null], any object, arrays included) makes the call
    throw an [Error] whose message names its type; [data] is not looked
    at and nothing is written. *)
Theorem getSelectedItems_type_guard (data : value) (options : IOptions) (h : heap) :
  typeof (value_ options) <> "string" ->
  typeof (value_ options) <> "number" ->
  (forall l, value_ options = VRef l -> is_Some (h !! l)) ->
  getSelectedItems data options h
  = (Throw (Error (type_error_message (typeof (value_ options)))), h).
Proof.
  intros Hs Hn Hl. apply getSelectedItems_rejects; [| done].
  unfold includes. simpl.
  apply String.eqb_neq in Hs, Hn. by rewrite Hs, Hn.
Qed.

Lemma getSelectedItems_type_guard_witness :
  getSelectedItems VUndefined
    {| valueKey := None; value_ := VBool true; getKey := None; flag := None |} []
  = (Throw (Error (type_error_message "boolean")), []).
Proof.
  apply (getSelectedItems_type_guard VUndefined
           {| valueKey := None; value_ := VBool true; getKey := None; flag := None |} []).
  - discriminate.
  - discriminate.
  - discriminate.
Defined.

(** X5: a string or number that is the [valueKey] value of no record, in
    particular any one when [data] is empty, is answered with
    [undefined]; nothing is thrown. *)
Theorem getSelectedItems_no_match (h : heap) (d : loc) (options : IOptions)
    (items : list value) :
  let valueKey' := default "value" (valueKey options) in
  h !! d = Some (OArray items) ->
  Forall (is_record h) items ->
  includes ["string"; "number"] (typeof (value_ options)) = true ->
  Forall (fun item => SameValueZero (field h item valueKey') (value_ options) = false)
    items ->
  getSelectedItems (VRef d) options h = (Ok VUndefined, h).
Proof.
  intros valueKey' Hd Hrec Hty Hnone.
  unfold getSelectedItems.
  assert (isArray (value_ options) h = (Ok false, h)) as Harr.
  { destruct (value_ options); simpl in *; done. }
  rewrite (bind_ok _ _ _ _ _ Harr), Hty.
  assert (String.eqb (typeof (value_ options)) "object" = false) as ->.
  { destruct (value_ options) as [| | | | | | | s]; simpl in *; try done.
    by destruct (String.eqb s "__proto__"). }
  cbn [negb orb andb]. fold valueKey'.
  rewrite (bind_ok _ _ _ _ _
             (valueMap_build h valueKey' (default "label" (getKey options))
                (default true (flag options)) d _ Hd Hrec)).
  unfold ret. f_equal. f_equal.
  by rewrite (Map_get_last _ (fun it => field h it valueKey')
                (fun it => if default true (flag options)
                           then field h it (default "label" (getKey options)) else it)).
Qed.

Lemma getSelectedItems_no_match_witness :
  let h := [ OPlain [("value", VString "a"); ("label", VString "A")];
             OArray [VRef 0] ] in
  getSelectedItems (VRef 1)
    {| valueKey := None; value_ := VString "z"; getKey := None; flag := None |} h
  = (Ok VUndefined, h).
Proof.
  intros h.
  apply (getSelectedItems_no_match h 1
           {| valueKey := None; value_ := VString "z"; getKey := None; flag := None |}
           [VRef 0]).
  - reflexivity.
  - repeat constructor. by exists 0, [("value", VString "a"); ("label", VString "A")].
  - reflexivity.
  - repeat constructor.
Defined.

(** X19: with a string or number to look up, [data] must be there:
    [null], [undefined], a boolean or a number in its place makes the
    call throw the [TypeError] of calling a [forEach] that is not there. *)
Theorem getSelectedItems_no_data (data : value) (options : IOptions) (h : heap) :
  includes ["string"; "number"] (typeof (value_ options)) = true ->
  data = VNull \/ data = VUndefined \/ (exists b, data = VBool b)
  \/ (exists n, data = VNumber n) ->
  getSelectedItems data options h = (Throw TypeError, h).
Proof.
  intros Hty Hdata. unfold getSelectedItems.
  assert (isArray (value_ options) h = (Ok false, h)) as Harr.
  { destruct (value_ options); simpl in *; done. }
  rewrite (bind_ok _ _ _ _ _ Harr), Hty.
  assert (String.eqb (typeof (value_ options)) "object" = false) as ->.
  { destruct (value_ options) as [| | | | | | | s]; simpl in *; try done.
    by destruct (String.eqb s "__proto__"). }
  cbn [negb orb andb].
  by destruct Hdata as [-> | [-> | [[b ->] | [n ->]]]].
Qed.

Lemma getSelectedItems_no_data_witness :
  getSelectedItems VNull
    {| valueKey := None; value_ := VString "a"; getKey := None; flag := None |} []
  = (Throw TypeError, []).
Proof.
  apply (getSelectedItems_no_data VNull
           {| valueKey := None; value_ := VString "a"; getKey := None; flag := None |} []).
  - reflexivity.
  - by left.
Defined.

(** Entering a record in [valueMap] reads it only. *)
Lemma enter_heap (valueKey getKey : string) (flag : bool) (item : value)
    (valueMap : Map) (h : heap) :
  snd ((let* key := get_prop item valueKey in
        let* x := (if flag then get_prop item getKey else ret item) in
        ret (Map_set valueMap key x)) h) = h.
Proof.
  rewrite bind_eq. pose proof (get_prop_heap item valueKey h) as H1.
  destruct (get_prop item valueKey h) as [[key | | |] h1]; simpl in *; subst; try done.
  rewrite bind_eq. destruct flag; [| done].
  pose proof (get_prop_heap item getKey h) as H2.
  by destruct (get_prop item getKey h) as [[y | | |] h2].
Qed.

(** X6: the call never writes: whatever [data] and [options] are and however
    it ends, no object is created or changed.  (For a [data] that is not
    an array and whose [forEach] is a function the call ends [Stuck]: what
    that function does is not modelled.) *)
Theorem getSelectedItems_never_writes (data : value) (options : IOptions) (h : heap) :
  snd (getSelectedItems data options h) = h.
Proof.
  unfold getSelectedItems.
  destruct (value_ options) as [| | b | x | s | l | l | s] eqn:E; try done.
  - (* a number *)
    rewrite bind_eq. simpl. rewrite bind_eq.
    match goal with |- context [forEach ?f data [] h] =>
      pose proof (forEach_heap f data [] h
                    (fun item i m => enter_heap _ _ _ item m h)) as Hloop;
      destruct (forEach f data [] h) as [[m | e | |] h'] end; done.
  - (* a string *)
    rewrite bind_eq. simpl. rewrite bind_eq.
    match goal with |- context [forEach ?f data [] h] =>
      pose proof (forEach_heap f data [] h
                    (fun item i m => enter_heap _ _ _ item m h)) as Hloop;
      destruct (forEach f data [] h) as [[m | e | |] h'] end; done.
  - (* an object: the guard throws *)
    rewrite bind_eq. simpl. by destruct (h !! l) as [[] |].
  - (* a built-in: the guard throws *)
    rewrite bind_eq. simpl. by destruct (String.eqb s "__proto__").
Qed.

End GetSelectedItemsEdges.

(** ** [deepClone]: nothing shared, cycles *)

Section DeepCloneEdges.

(** X7: when no object reachable from the value holds a function and the
    value is not one, then however the call of [deepClone] ends, the
    objects that were there are untouched, the objects it created refer to
    created objects only, and what it returns is one of the objects it
    created unless it is a primitive or a built-in: the copy shares no
    array and no plain object with the original. *)
Theorem deepClone_shares_nothing (fuel : nat) (v : value) (h : heap) :
  no_fun_from h v -> not_fun v ->
  extends h (snd (deepClone fuel v h))
  /\ fresh_region (length h) (snd (deepClone fuel v h))
  /\ forall v', fst (deepClone fuel v h) = Ok v' -> vfresh (length h) v'.
Proof.
  intros Hnf Hv.
  destruct (deepClone fuel v h) as [r h'] eqn:E.
  destruct (deepClone_keeps fuel v h r h' Hnf Hv E) as [(_ & Hext & Hfresh) Hres].
  simpl. split_and!; [done | done |]. intros v' ->. by apply Hres.
Qed.

Lemma deepClone_shares_nothing_witness :
  extends family (snd (deepClone 3 (VRef 3) family))
  /\ fst (deepClone 3 (VRef 3) family) = Ok (VRef 4).
Proof.
  destruct (deepClone_shares_nothing 3 (VRef 3) family) as (Hext & _ & _).
  - intros l o _ Hl.
    destruct l as [| [| [| [| l]]]]; simpl in Hl; simplify_eq; repeat constructor.
  - exact I.
  - split; [exact Hext | reflexivity].
Defined.

(** X8: an array whose first element is the array itself, or a plain object
    whose first property is the object itself, cannot be cloned: the
    recursion never ends, whatever the depth of the call stack. *)
Theorem deepClone_cycle (fuel : nat) (h : heap) (l : loc) :
  (exists rest, h !! l = Some (OArray (VRef l :: rest)))
  \/ (exists key rest, h !! l = Some (OPlain ((key, VRef l) :: rest))) ->
  fst (deepClone fuel (VRef l) h) = Overflow.
Proof.
  revert h. induction fuel as [| fuel IH]; intros h Hl; [done |].
  rewrite deepClone_ref.
  assert (forall o,
            (exists rest, (h ++ [o]) !! l = Some (OArray (VRef l :: rest)))
            \/ (exists key rest,
                  (h ++ [o]) !! l = Some (OPlain ((key, VRef l) :: rest)))) as Hl'.
  { intros o. destruct Hl as [[rest Hl] | (key & rest & Hl)].
    - left. exists rest. by apply lookup_app_l_Some.
    - right. exists key, rest. by apply lookup_app_l_Some. }
  destruct Hl as [[rest Hl] | (key & rest & Hl)].
  - rewrite bind_eq. unfold isArray. rewrite Hl. rewrite bind_eq. unfold alloc at 1.
    rewrite bind_eq. unfold forEach.
    rewrite (lookup_app_l_Some _ _ _ _ Hl). simpl.
    rewrite (lookup_app_l_Some _ _ _ _ Hl). simpl.
    rewrite !bind_eq. specialize (IH _ (Hl' (OArray []))).
    by destruct (deepClone fuel (VRef l) (h ++ [OArray []])) as [[] ?]; simpl in *; subst.
  - rewrite bind_eq. unfold isArray. rewrite Hl. rewrite bind_eq. unfold alloc at 1.
    rewrite bind_eq. unfold for_in.
    rewrite (lookup_app_l_Some _ _ _ _ Hl). simpl.
    rewrite !bind_eq. unfold get_prop at 1.
    rewrite (lookup_app_l_Some _ _ _ _ Hl).
    unfold lookup, props_has. simpl. rewrite String.eqb_refl. simpl.
    rewrite bind_eq.
    specialize (IH _ (Hl' (OPlain []))).
    by destruct (deepClone fuel (VRef l) (h ++ [OPlain []])) as [[] ?]; simpl in *; subst.
Qed.

Lemma deepClone_cycle_witness :
  fst (deepClone 1000 (VRef 0) [OArray [VRef 0; VNumber 1%float]]) = Overflow.
Proof.
  apply deepClone_cycle. left. by exists [VNumber 1%float].
Defined.

End DeepCloneEdges.

(** ** [arrayToTree]: no records, no list, objects as parent keys *)

Section ArrayToTreeEdges.

Implicit Types (h : heap) (v : value) (l : nat).

Lemma arrayToTree_empty_list fuel l id pid children h :
  h !! l = Some (OArray []) ->
  arrayToTree (S fuel) (Some (VRef l)) id pid children h
  = (Ok (VRef (S (length h))), (h ++ [OArray []]) ++ [OArray []]).
Proof.
  intros Hl. rewrite arrayToTree_unfold, bind_eq, deepClone_ref.
  rewrite bind_eq. unfold isArray. rewrite Hl. rewrite bind_eq. unfold alloc at 1.
  rewrite bind_eq. unfold forEach at 1. rewrite (lookup_app_l_Some _ _ _ _ Hl).
  simpl forEach_from. unfold ret at 1 2.
  rewrite bind_eq. unfold alloc at 1. rewrite bind_eq.
  assert (((h ++ [OArray []]) ++ [OArray []]) !! length h = Some (OArray [])) as Hd.
  { apply lookup_app_l_Some. by rewrite lookup_app_r, Nat.sub_diag by done. }
  unfold forEach. rewrite Hd. simpl forEach_from. unfold ret at 1.
  rewrite bind_eq, Hd. simpl forEach_from. unfold ret.
  by rewrite length_app, Nat.add_1_r.
Qed.

(** X9: with no list, or an empty one, the call returns a new empty array. *)
Theorem arrayToTree_empty (fuel : nat) (arr : option value)
    (id pid children : option string) (h : heap) :
  (forall a, arr = Some a -> exists l, a = VRef l /\ h !! l = Some (OArray [])) ->
  exists tree h',
    arrayToTree (S fuel) arr id pid children h = (Ok (VRef tree), h')
    /\ h' !! tree = Some (OArray [])
    /\ length h <= tree
    /\ extends h h'.
Proof.
  intros Harr.
  assert (forall h0 l, h0 !! l = Some (OArray []) ->
            exists tree h',
              arrayToTree (S fuel) (Some (VRef l)) id pid children h0 = (Ok (VRef tree), h')
              /\ h' !! tree = Some (OArray [])
              /\ length h0 < tree
              /\ extends h0 h') as Hlist.
  { intros h0 l Hl. eexists _, _. split; [by apply arrayToTree_empty_list |].
    split_and!.
    - rewrite lookup_app_r; rewrite length_app; simpl; [| lia].
      by replace (S (length h0) - (length h0 + 1)) with 0 by lia.
    - lia.
    - eapply extends_trans; apply extends_alloc. }
  destruct arr as [a |].
  - destruct (Harr a eq_refl) as (l & -> & Hl).
    destruct (Hlist h l Hl) as (tree & h' & ? & ? & ? & ?).
    exists tree, h'. split_and!; [done | done | lia | done].
  - destruct (Hlist (h ++ [OArray []]) (length h)) as (tree & h' & Hrun & ? & Hlt & Hext).
    { by rewrite lookup_app_r, Nat.sub_diag by done. }
    exists tree, h'. split_and!; [exact Hrun | done | |].
    + rewrite length_app in Hlt. lia.
    + eapply extends_trans; [apply extends_alloc | done].
Qed.

Lemma arrayToTree_empty_witness :
  exists tree h',
    arrayToTree 1 None None None None [] = (Ok (VRef tree), h')
    /\ h' !! tree = Some (OArray [])
    /\ length (@nil object) <= tree
    /\ extends [] h'.
Proof. apply (arrayToTree_empty 0 None None None None []). discriminate. Defined.

(** X10: [null], a boolean or a number in place of the list: the call throws
    the [TypeError] of calling a [forEach] that is not there, after it has
    created the array for the tree. *)
Theorem arrayToTree_not_a_list (fuel : nat) (v : value)
    (id pid children : option string) (h : heap) :
  v = VNull \/ (exists b, v = VBool b) \/ (exists n, v = VNumber n) ->
  arrayToTree (S fuel) (Some v) id pid children h = (Throw TypeError, h ++ [OArray []]).
Proof. by intros [-> | [[b ->] | [n ->]]]. Qed.

Lemma arrayToTree_not_a_list_witness :
  arrayToTree 1 (Some VNull) None None None [] = (Throw TypeError, [OArray []]).
Proof. apply (arrayToTree_not_a_list 0 VNull None None None []). by left. Defined.

(** The run of [arrayToTree] on a list of records one of which has a
    truthy parent key that matches the id of no copy. *)
Lemma arrayToTree_no_parent h arr (items : list value)
    (fss : list (list (string * shape))) fuel id pid children j bad :
  h !! arr = Some (OArray items) ->
  repr h (VRef arr) (SArr (SObj <$> fss)) ->
  depth (SArr (SObj <$> fss)) < fuel ->
  items !! j = Some bad ->
  truthy (field h bad (default "pid"%string pid)) = true ->
  (forall h1 a b (cs : list value) bad',
     chain (laid h1) a b cs (SObj <$> fss) -> cs !! j = Some bad' ->
     Forall (fun c => SameValueZero (field h1 c (default "id"%string id))
                        (field h1 bad' (default "pid"%string pid)) = false) cs) ->
  exists h',
    arrayToTree fuel (Some (VRef arr)) id pid children h = (Throw TypeError, h').
Proof.
  intros Harr Hrepr Hdepth Hj Htruthy Hno.
  destruct (clone_list h arr _ fuel Hrepr Hdepth) as (h1 & cs & Hrun & Hext & Hd & Hc).
  inversion Hrepr as [| ? vs ? Harr' Hall |]; subst.
  rewrite Harr in Harr'. simplify_eq.
  pose proof (Forall2_length _ _ _ Hall) as Hlen1.
  pose proof (chain_length _ _ _ _ _ Hc) as Hlen2.
  destruct (lookup_lt_is_Some_2 cs j) as [bad' Hcj].
  { apply lookup_lt_Some in Hj. lia. }
  pose proof (lookup_lt_Some _ _ _ Hd) as Hdlt.
  set (d := length h) in *. set (tree := length h1).
  set (h2 := h1 ++ [OArray []]).
  assert (forall i c, cs !! i = Some c ->
            exists l (qs : list (string * value)),
              c = VRef l /\ h1 !! l = Some (OPlain qs) /\ d < l < tree
              /\ Forall (fun q => forall x, snd q = VRef x -> l < x < tree) qs) as Hrecs.
  { intros i c Hci.
    destruct (lookup_lt_is_Some_2 vs i) as [item Hi].
    { apply lookup_lt_Some in Hci. lia. }
    destruct (copies _ _ _ _ _ _ _ _ _ _ Hall Hc Hi Hci)
      as (fs & lo & hi & l & qs & _ & _ & -> & Hq & ? & ? & Hqs).
    exists l, qs. split_and!; [done | done | lia | done | done]. }
  assert (forall c key, c ∈ cs -> field h2 c key = field h1 c key) as Hfield.
  { intros c key [i Hci]%list_elem_of_lookup.
    destruct (Hrecs _ _ Hci) as (l & qs & -> & Hq & _). apply field_alloc. eauto. }
  assert (attaching h2 d tree cs h2) as Hinv.
  { split_and!.
    - by apply lookup_app_l_Some.
    - exists []. unfold h2, tree. by rewrite lookup_app_r, Nat.sub_diag by done.
    - intros x o Hx Hlook.
      apply lookup_app_Some in Hlook as [Hlook | [_ Hlook]];
        [| by apply list_lookup_singleton_Some in Hlook as [_ <-]].
      destruct (decide (x = d)) as [-> | Hne]; [rewrite Hd in Hlook; by simplify_eq |].
      pose proof (lookup_lt_Some _ _ _ Hlook) as Hxlt.
      destruct (chain_cover _ _ _ _ _ x Hc) as (lo & hi & v & t & Hlaid & Hrange); [lia |].
      destruct (laid_objects _ _ _ _ _ x Hlaid Hrange) as (o' & Ho' & Hdo).
      rewrite Hlook in Ho'. by simplify_eq.
    - apply Forall_lookup. intros i c Hci.
      destruct (Hrecs _ _ Hci) as (l & qs & -> & Hq & Hl & Hqs).
      exists l, qs. split_and!; [done | by apply lookup_app_l_Some | lia | |].
      + eapply Forall_impl; [exact Hqs |]. intros q Hq' x Hx.
        specialize (Hq' x Hx). unfold h2. rewrite length_app. simpl.
        fold tree. lia.
      + intros key _. unfold field, h2. by rewrite (lookup_app_l_Some _ _ _ _ Hq). }
  rewrite arrayToTree_unfold, (bind_ok _ _ _ _ _ Hrun), bind_eq.
  unfold alloc at 1. fold h2 tree d.
  rewrite (bind_ok _ _ _ _ _ (index_build h2 (default "id"%string id) d cs (proj1 Hinv)
    ltac:(
      apply Forall_lookup; intros i c Hci;
      destruct (Hrecs _ _ Hci) as (l & qs & -> & Hq & _);
      exists l, qs; split; [done | by apply lookup_app_l_Some]))).
  rewrite bind_eq. unfold forEach. rewrite (proj1 Hinv).
  destruct (attach_loop h2 d tree cs (index_of h2 (default "id"%string id) cs)
              (default "pid"%string pid)
              (default "children"%string children) j bad') with
    (remaining := length cs) (index := 0) (hc := h2) as [h' ->].
  - unfold tree. lia.
  - apply index_of_values.
  - done.
  - rewrite Hfield by by eapply list_elem_of_lookup_2.
    destruct (copies _ _ _ _ _ _ _ _ _ _ Hall Hc Hj Hcj)
      as (fs & lo & hi & l & qs & Hr & Hl & _).
    by rewrite (truthy_clone _ _ _ _ _ _ _ (default "pid"%string pid) Hr Hl).
  - apply index_of_missing.
    pose proof (Hno _ _ _ _ _ Hc Hcj) as H.
    rewrite Forall_forall in H. apply Forall_forall. intros c Hin.
    rewrite !Hfield by (done || by eapply list_elem_of_lookup_2). by apply H.
  - apply lookup_lt_Some in Hcj. lia.
  - done.
  - eauto.
Qed.

(** X11: a record whose parent key is an object never finds its parent, not
    even when that very object is the id of a record: the copies hold
    copies of the object, all different.  The call throws. *)
Theorem arrayToTree_object_parent_key (h : heap) (arr : loc) (items : list value)
    (fss : list (list (string * shape))) (fuel : nat)
    (id pid children : option string) (j : nat) (bad : value) (x : loc) :
  let id' := default "id"%string id in
  let pid' := default "pid"%string pid in
  h !! arr = Some (OArray items) ->
  repr h (VRef arr) (SArr (SObj <$> fss)) ->
  depth (SArr (SObj <$> fss)) < fuel ->
  id' <> pid' ->
  items !! j = Some bad ->
  field h bad pid' = VRef x ->
  exists h',
    arrayToTree fuel (Some (VRef arr)) id pid children h = (Throw TypeError, h').
Proof.
  intros id' pid' Harr Hrepr Hdepth Hkeys Hj Hx.
  apply (arrayToTree_no_parent h arr items fss fuel id pid children j bad);
    try done.
  { fold pid'. by rewrite Hx. }
  fold id' pid'. intros h1 a b cs bad' Hc Hcj.
  inversion Hrepr as [| ? vs ? Harr' Hall |]; subst.
  rewrite Harr in Harr'. simplify_eq.
  pose proof (Forall2_length _ _ _ Hall) as Hlen1.
  pose proof (chain_length _ _ _ _ _ Hc) as Hlen2.
  apply Forall_lookup. intros i c Hci.
  destruct (lookup_lt_is_Some_2 vs i) as [item Hi].
  { apply lookup_lt_Some in Hci. lia. }
  destruct (copies _ _ _ _ _ _ _ _ _ _ Hall Hc Hi Hci)
    as (fsi & loi & hii & li & qi & Hri & Hli & -> & Hqi & _).
  destruct (copies _ _ _ _ _ _ _ _ _ _ Hall Hc Hj Hcj)
    as (fsj & loj & hij & lj & qj & Hrj & Hlj & -> & Hqj & _).
  destruct (SameValueZero (field h1 (VRef li) id') (field h1 (VRef lj) pid')) eqn:E;
    [| done].
  exfalso.
  destruct (field_clone _ _ _ _ _ _ _ pid' Hrj Hlj) as [[Hpj Hej] | (xj & zj & Hoj & Hej)].
  { by rewrite Hx in Hpj. }
  destruct (field_clone _ _ _ _ _ _ _ id' Hri Hli) as [[Hpi Hei] | (xi & zi & Hoi & Hei)];
    rewrite Hei, Hej in E.
  - by destruct (field h item id').
  - simpl in E. apply Nat.eqb_eq in E as ->.
    unfold field in Hei, Hej. rewrite Hqi in Hei. rewrite Hqj in Hej.
    apply lookup_ref in Hei, Hej.
    assert (i = j) as ->.
    { eapply (laid_entry_record h1 a b cs); [exact Hc | | exact Hci | exact Hcj | ..];
        try done.
      apply Forall_fmap, Forall_forall. intros fs _. simpl. eauto. }
    rewrite Hci in Hcj. simplify_eq.
    by pose proof (laid_entry_key _ _ _ _ _ _ _ _ _ Hli Hqi Hei Hej).
Qed.

Lemma arrayToTree_object_parent_key_witness :
  let h := [ OPlain [];
             OPlain [("id", VRef 0); ("pid", VNumber 0%float)];
             OPlain [("id", VNumber 2%float); ("pid", VRef 0)];
             OArray [VRef 1; VRef 2] ]%string in
  exists h', arrayToTree 4 (Some (VRef 3)) None None None h = (Throw TypeError, h').
Proof.
  intros h.
  apply (arrayToTree_object_parent_key h 3 [VRef 1; VRef 2]
           [ [("id", SObj []); ("pid", SPrim (VNumber 0%float))];
             [("id", SPrim (VNumber 2%float)); ("pid", SObj [])] ]%string
           4 None None None 1 (VRef 2) 0).
  - reflexivity.
  - eapply repr_arr; [reflexivity |].
    repeat constructor;
      (eapply repr_obj; [reflexivity | split; by apply (bool_decide_unpack _) |]);
      repeat constructor; simpl; try done;
      (eapply repr_obj; [reflexivity | split; by apply (bool_decide_unpack _) |
                         constructor]).
  - simpl. lia.
  - discriminate.
  - reflexivity.
  - reflexivity.
Defined.

End ArrayToTreeEdges.

(** ** [debounce] and [throttle] over whole traces *)

Section Traces.

Context {Args : Type}.

Implicit Types (w : world Args) (es : list (event Args)).

Lemma throttle_runs fn wait es :
  forall w,
    throttle_inv w ->
    exists l,
      calls (run (throttle fn wait) es w) = calls w ++ l
      /\ sublist l (invocations es (now w)).
Proof.
  induction es as [| [a | d] es IH]; intros w Hinv; simpl.
  - exists []. by rewrite app_nil_r.
  - pose proof (throttle_inv_step fn wait (Call a) w Hinv) as Hinv'. simpl in Hinv'.
    destruct Hinv as [Hidle | (id & due & Hcool)].
    + assert (calls (throttle fn wait a w) = calls w ++ [(now w, a)]
              /\ now (throttle fn wait a w) = now w) as [Hcalls Hnow].
      { destruct (fn a) eqn:Hfn.
        - by destruct (throttle_call_idle fn wait a w Hidle Hfn) as (_ & ? & ?).
        - by destruct (throttle_call_throws fn wait a w Hidle Hfn) as (_ & ? & ?). }
      destruct (IH (throttle fn wait a w) Hinv') as (l & Hl & Hsub).
      exists ((now w, a) :: l). split.
      * unfold run in *. simpl. rewrite Hl, Hcalls, <- app_assoc. done.
      * rewrite Hnow in Hsub. by constructor.
    + pose proof (throttle_call_cooling fn wait a w id due Hcool) as Hsame.
      destruct (IH w) as (l & Hl & Hsub); [right; eauto |].
      exists l. split.
      * unfold run in *. simpl. by rewrite Hsame.
      * by constructor.
  - assert (throttle_inv (wait_for d w)) as Hinv'
      by apply (throttle_inv_step fn wait (Wait d) w Hinv).
    assert (calls (wait_for d w) = calls w /\ now (wait_for d w) = now w + d)
      as [Hcalls Hnow].
    { destruct Hinv as [Hidle | (id & due & Hcool)].
      - by destruct (idle_wait d w Hidle) as (_ & ? & ?).
      - destruct (decide (now w + d < due)) as [Hlt | Hge].
        + by destruct (cooling_wait_short d w id due Hcool Hlt) as (_ & ? & ?).
        + by destruct (cooling_wait_long d w id due Hcool ltac:(lia)) as (_ & ? & ?). }
    destruct (IH (wait_for d w) Hinv') as (l & Hl & Hsub).
    exists l. split.
    + unfold run in *. simpl. by rewrite Hl, Hcalls.
    + by rewrite Hnow in Hsub.
Qed.

(** X12: [throttle] never defers a call: whether [fn] returns or throws,
    over any trace the runs of [fn] are some of the invocations of the
    wrapper, each at the time of the invocation and with its arguments, in
    order. *)
Theorem throttle_no_trailing_call (fn : Args -> outcome) (wait : nat)
    (es : list (event Args)) :
  sublist (calls (run (throttle fn wait) es init)) (invocations es 0).
Proof.
  destruct (throttle_runs fn wait es init throttle_inv_init) as (l & Hl & Hsub).
  by rewrite Hl.
Qed.

Lemma debounce_runs wait es :
  forall w l0,
    (settled w /\ l0 = [])
    \/ (exists id due args, deferred w id due args /\ l0 = [(due, args)]) ->
    exists l,
      calls (run (debounce wait) es w) = calls w ++ l
      /\ sublist l (l0 ++ map (delayed wait) (invocations es (now w))).
Proof.
  induction es as [| [a | d] es IH]; intros w l0 Hinv; simpl.
  - exists []. split; [by rewrite app_nil_r | apply sublist_nil_l].
  - assert (debounce_inv w) as Hinv'.
    { destruct Hinv as [[? _] | (id & due & args & ? & _)]; [by left | right; eauto]. }
    destruct (debounce_call wait a w Hinv') as (Hdef & Hcalls & Hnow).
    destruct (IH (debounce wait a w) [(now w + wait, a)]) as (l & Hl & Hsub).
    { right. eauto. }
    exists l. split.
    + unfold run in *. simpl. by rewrite Hl, Hcalls.
    + rewrite Hnow in Hsub. by apply sublist_inserts_l.
  - destruct Hinv as [[Hset ->] | (id & due & args & Hdef & ->)].
    + destruct (settled_wait d w Hset) as [Hset' Hcalls].
      destruct (IH (wait_for d w) []) as (l & Hl & Hsub); [by left |].
      exists l. split; [| done].
      unfold run in *. simpl. by rewrite Hl, Hcalls.
    + destruct (decide (now w + d < due)) as [Hlt | Hge].
      * destruct (deferred_wait_short d w id due args Hdef Hlt) as (Hdef' & Hcalls & Hnow).
        destruct (IH (wait_for d w) [(due, args)]) as (l & Hl & Hsub); [right; eauto |].
        exists l. split.
        -- unfold run in *. simpl. by rewrite Hl, Hcalls.
        -- by rewrite Hnow in Hsub.
      * destruct (deferred_wait_long d w id due args Hdef ltac:(lia))
          as (Hset' & Hcalls & Hnow).
        destruct (IH (wait_for d w) []) as (l & Hl & Hsub); [by left |].
        exists ((due, args) :: l). split.
        -- unfold run in *. simpl. by rewrite Hl, Hcalls, <- app_assoc.
        -- rewrite Hnow in Hsub. simpl in *. by constructor.
Qed.

(** X13: [debounce] only ever runs [fn] for an invocation of the wrapper,
    [wait] ms after it and with its arguments: over any trace, the runs
    of [fn] are some of the invocations, delayed by [wait], in order, none
    of them twice. *)
Theorem debounce_runs_delayed (wait : nat) (es : list (event Args)) :
  sublist (calls (run (debounce wait) es init))
    (map (delayed wait) (invocations es 0)).
Proof.
  destruct (debounce_runs wait es init []) as (l & Hl & Hsub); [by left |].
  by rewrite Hl.
Qed.

(** X14: [debounce] does not let timers pile up: after any trace at most
    one is pending, the one the closure variable [timer] names. *)
Theorem one_timer_pending (wait : nat) (es : list (event Args)) :
  forall p, p ∈ pending (run (debounce wait) es init) ->
    pending (run (debounce wait) es init) = [p]
    /\ timer (run (debounce wait) es init) = Some (fst (fst p)).
Proof.
  intros p Hp.
  destruct (debounce_inv_run wait es init debounce_inv_init)
    as [Hset | (id & due & args & Hpend & Htimer & _)].
  - unfold settled in Hset. rewrite Hset in Hp. by apply elem_of_nil in Hp.
  - rewrite Hpend in Hp |- *. apply list_elem_of_singleton in Hp as ->. done.
Qed.

End Traces.

Lemma one_timer_pending_witness :
  pending (run (debounce 100) [Call 1; Wait 5; Call 2] init) = [(2, 105, ApplyFn 2)]
  /\ timer (run (debounce 100) [Call 1; Wait 5; Call 2] init) = Some 2.
Proof.
  apply (one_timer_pending (Args := nat) 100 [Call 1; Wait 5; Call 2] (2, 105, ApplyFn 2)).
  vm_compute. left.
Defined.

(** ** [getUuid] *)

Section Uuid.

Local Open Scope Z_scope.

Lemma toString16_digit (v : Z) :
  0 <= v < 16 ->
  exists c, toString16 v = String c EmptyString /\ c ∈ hex_digits.
Proof.
  intros Hv.
  assert (v = 0 \/ v = 1 \/ v = 2 \/ v = 3 \/ v = 4 \/ v = 5 \/ v = 6 \/ v = 7
          \/ v = 8 \/ v = 9 \/ v = 10 \/ v = 11 \/ v = 12 \/ v = 13 \/ v = 14
          \/ v = 15) as H by lia.
  unfold hex_digits.
  repeat (destruct H as [-> | H]); try subst v;
    (eexists; split; [reflexivity |]); repeat constructor.
Qed.

Lemma replacer_y_digit (u : float) :
  replacer u "y" ∈ ["8"; "9"; "a"; "b"]%string.
Proof.
  unfold replacer. simpl Ascii.eqb. cbv iota.
  set (r := Z.lor (ToInt32 (u * 16)%float) 0).
  assert (Z.land r 3 = r mod 4) as -> by apply (Z.land_ones r 2 ltac:(lia)).
  pose proof (Z.mod_pos_bound r 4 ltac:(lia)) as Hr.
  assert (r mod 4 = 0 \/ r mod 4 = 1 \/ r mod 4 = 2 \/ r mod 4 = 3) as H by lia.
  destruct H as [-> | [-> | [-> | ->]]]; repeat constructor.
Qed.

(** *** The draw [(Math.random() * 16) | 0] *)

Lemma digits2_pos_bound (m : positive) : Z.pos m < 2 ^ Z.pos (digits2_pos m).
Proof.
  induction m as [m IH | m IH |]; simpl digits2_pos.
  - rewrite Pos2Z.inj_succ, Z.pow_succ_r by lia. lia.
  - rewrite Pos2Z.inj_succ, Z.pow_succ_r by lia. lia.
  - simpl. lia.
Qed.

(** Multiplying a float below 1 by 16 is exact: only the exponent, or for
    a subnormal number the mantissa, changes. *)
Lemma mul16_finite (u : float) (m : positive) (e : Z) :
  Prim2SF u = S754_finite false m e ->
  e <= -52 ->
  exists n,
    48 <= n <= 52
    /\ Prim2SF (u * 16)%float
       = S754_finite false (Z.to_pos (Z.pos m * 2 ^ (52 - n))) (e - 48 + n).
Proof.
  intros Hu He.
  pose proof (FloatAxioms.Prim2SF_valid u) as Hvalid. rewrite Hu in Hvalid.
  simpl in Hvalid. unfold bounded, canonical_mantissa in Hvalid.
  apply andb_true_iff in Hvalid as [Hcanon _]. apply Z.eqb_eq in Hcanon.
  unfold fexp in Hcanon.
  change (SpecFloat.emin prec emax) with (-1074) in Hcanon.
  change prec with 53 in Hcanon.
  rewrite FloatAxioms.mul_spec, Hu.
  change (Prim2SF 16) with (S754_finite false 4503599627370496 (-48)).
  unfold SF64mul, SFmul. simpl xorb.
  rewrite !Pos.mul_xO_r, Pos.mul_1_r.
  unfold binary_round_aux, shr_fexp.
  simpl Zdigits2 at 1. simpl digits2_pos.
  set (d := digits2_pos m) in *.
  rewrite !Pos2Z.inj_succ.
  unfold fexp at 1.
  change (SpecFloat.emin prec emax) with (-1074).
  change prec with 53.
  match goal with |- context [shr _ _ ?x] => set (n := x) end.
  assert (n = 48 \/ n = 49 \/ n = 50 \/ n = 51 \/ n = 52) as Hn by (unfold n; lia).
  exists n. split; [lia |].
  assert (n = Z.max (Z.pos d + e - 49) (-1074) - e + 48) as Hn_eq by (unfold n; lia).
  clearbody n.
  assert (forall (M : positive) (e' : Z),
            fexp 53 emax (Zdigits2 (Z.pos M) + e') - e' = 0 ->
            e' <= 971 ->
            (let '(mrs'', e'') :=
               shr {| shr_m := Z.pos M; shr_r := false; shr_s := false |} e'
                 (fexp 53 emax (Zdigits2 (Z.pos M) + e') - e') in
             match shr_m mrs'' with
             | 0 => S754_zero false
             | Z.pos m0 =>
                 if e'' <=? emax - 53 then S754_finite false m0 e''
                 else S754_infinity false
             | Z.neg _ => S754_nan
             end) = S754_finite false M e') as Hsecond.
  { intros M e' -> He'. simpl. change (emax - 53) with 971.
    by apply Z.leb_le in He' as ->. }
  destruct Hn as [-> | [-> | [-> | [-> | ->]]]];
    cbn [shr SpecFloat.iter_pos shr_1 shr_record_of_loc orb];
    cbn [round_nearest_even loc_of_shr_record shr_m shr_r shr_s];
    (rewrite Hsecond;
     [
     | unfold fexp; change (SpecFloat.emin 53 emax) with (-1074);
       simpl Zdigits2; simpl digits2_pos; fold d; rewrite ?Pos2Z.inj_succ; lia
     | lia ]).
  all: f_equal; try lia.
  all: simpl Z.sub; simpl Z.pow; simpl Z.mul; simpl Z.to_pos.
  all: by rewrite ?Pos.mul_xO_r, Pos.mul_1_r.
Qed.

(** A float below 1 is below 1. *)
Lemma below_one (u : float) (m : positive) (e : Z) :
  Prim2SF u = S754_finite false m e ->
  (u <? 1)%float = true ->
  e <= -52 /\ Z.pos m < 2 ^ (- e).
Proof.
  intros Hu Hlt.
  pose proof (FloatAxioms.Prim2SF_valid u) as Hvalid. rewrite Hu in Hvalid.
  simpl in Hvalid. unfold bounded, canonical_mantissa in Hvalid.
  apply andb_true_iff in Hvalid as [Hcanon _]. apply Z.eqb_eq in Hcanon.
  unfold fexp in Hcanon.
  change (SpecFloat.emin prec emax) with (-1074) in Hcanon.
  change prec with 53 in Hcanon.
  rewrite FloatAxioms.ltb_spec, Hu in Hlt.
  change (Prim2SF 1) with (S754_finite false 4503599627370496 (-52)) in Hlt.
  unfold SFltb, SFcompare in Hlt.
  pose proof (digits2_pos_bound m) as Hm.
  destruct (e ?= -52) eqn:Ec; [| | done].
  - apply Z.compare_eq_iff in Ec as ->.
    by destruct (Pos.compare_cont Eq m 4503599627370496) eqn:E.
  - change (e < -52) in Ec. split; [lia |].
    assert (Z.pos (digits2_pos m) <= 53) by lia.
    eapply Z.lt_le_trans; [exact Hm |].
    apply Z.pow_le_mono_r; lia.
Qed.

(** Drawn from a number in [0, 1), as [Math.random] returns them, [r] is
    one of 0, ..., 15. *)
Lemma draw_range (u : float) :
  (0 <=? u)%float = true -> (u <? 1)%float = true ->
  0 <= ToInt32 (u * 16)%float < 16.
Proof.
  intros Hge Hlt. unfold ToInt32, Host.ToIntegerOrInfinity.
  assert (Prim2SF (u * 16)%float = SF64mul (Prim2SF u) (S754_finite false 4503599627370496 (-48)))
    as Hmul by apply FloatAxioms.mul_spec.
  rewrite FloatAxioms.leb_spec in Hge.
  change (Prim2SF 0) with (S754_zero false) in Hge.
  destruct (Prim2SF u) as [s | s | | s m e] eqn:Hu.
  - rewrite Hmul.
    change (SF64mul (S754_zero s) _) with (S754_zero (xorb s false)).
    cbv iota beta. vm_compute. split; [discriminate | reflexivity].
  - destruct s; [done |]. rewrite FloatAxioms.ltb_spec, Hu in Hlt. done.
  - done.
  - destruct s; [done |].
    destruct (below_one u m e Hu Hlt) as [He Hm].
    destruct (mul16_finite u m e Hu He) as (n & Hn & ->).
    set (v := Host.float_value (Z.to_pos (Z.pos m * 2 ^ (52 - n))) (e - 48 + n)).
    assert (0 <= v /\ v < 16)%Q as [Hv0 Hv16].
    { assert (v == inject_Z (Z.pos m) * Host.Qpow 2 (e + 4))%Q as ->.
      { unfold v, Host.float_value, Host.Qpow.
        rewrite Z2Pos.id by (apply Z.mul_pos_pos; [lia | apply Z.pow_pos_nonneg; lia]).
        rewrite inject_Z_mult, Zpower_Qpower by lia.
        rewrite <- Qmult_assoc, <- Qpower_plus by done.
        by replace (52 - n + (e - 48 + n)) with (e + 4) by lia. }
      assert (0 < Host.Qpow 2 (e + 4))%Q as Hpos by by apply Qpower_0_lt.
      split.
      - apply Qmult_le_0_compat; [done | by apply Qlt_le_weak].
      - assert (16 == Host.Qpow 2 (- e) * Host.Qpow 2 (e + 4))%Q as ->.
        { unfold Host.Qpow. rewrite <- Qpower_plus by done.
          by replace (- e + (e + 4)) with 4 by lia. }
        apply Qmult_lt_compat_r; [done |].
        unfold Host.Qpow. rewrite <- Zpower_Qpower by lia. by rewrite <- Zlt_Qlt. }
    assert (0 <= Qfloor v < 16) as Hfloor.
    { split.
      - change 0 with (Qfloor 0). by apply Qfloor_resp_le.
      - rewrite Zlt_Qlt. eapply Qle_lt_trans; [apply Qfloor_le | done]. }
    rewrite Z.mod_small by lia.
    destruct (Z.leb_spec (2 ^ 31) (Qfloor v)); lia.
Qed.

(** X17: whatever number [Math.random()] returns, in its range or not, a [y]
    is replaced by one of [8], [9], [a] and [b]. *)
Theorem replacer_y (u : float) :
  replacer u "y" ∈ ["8"; "9"; "a"; "b"]%string.
Proof. apply replacer_y_digit. Qed.

Lemma replacer_filled (u : float) (c : ascii) :
  0 <= ToInt32 (u * 16)%float < 16 ->
  (Ascii.eqb c "x" || Ascii.eqb c "y")%bool = true ->
  exists c', replacer u c = String c' EmptyString /\ filled c c'.
Proof.
  intros Hr Hc. unfold filled.
  destruct (Ascii.eqb c "x") eqn:Ex.
  - unfold replacer. rewrite Ex, Z.lor_0_r. by apply toString16_digit.
  - simpl in Hc. rewrite Hc. apply Ascii.eqb_eq in Hc as ->.
    pose proof (replacer_y_digit u) as H. apply list_elem_of_In in H. simpl in H.
    destruct H as [<- | [<- | [<- | [<- | []]]]];
      eexists; (split; [reflexivity |]); repeat constructor.
Qed.

(** X18: with [Math.random] returning numbers in [0, 1), the result has the
    length of the template, character by character: an [x] has become a
    hexadecimal digit, a [y] one of [8], [9], [a], [b], and every other
    character is as it was.  With no argument that is 32 characters. *)
Theorem getUuid_shape (str : option string) (random : nat -> float) :
  (forall n, (0 <=? random n)%float = true /\ (random n <? 1)%float = true) ->
  Forall2 filled
    (list_ascii_of_string (default "xxyyxxx3xyxx7xx4yxx2xxxx6xxxxxxx"%string str))
    (list_ascii_of_string (getUuid str random))
  /\ (str = None -> String.length (getUuid str random) = 32%nat).
Proof.
  intros Hrandom.
  assert (forall n, 0 <= ToInt32 (random n * 16)%float < 16) as Hr.
  { intros n. destruct (Hrandom n). by apply draw_range. }
  assert (forall s n, Forall2 filled (list_ascii_of_string s)
                        (list_ascii_of_string (replace_xy random s n))) as Hall.
  { induction s as [| c s IH]; intros n; simpl; [constructor |].
    destruct (Ascii.eqb c "x" || Ascii.eqb c "y")%bool eqn:Hc.
    - destruct (replacer_filled (random n) c (Hr n) Hc) as (c' & -> & Hc').
      change (String c' EmptyString +:+ replace_xy random s (S n))
        with (String c' (replace_xy random s (S n))).
      simpl. by constructor.
    - simpl. constructor; [| done]. unfold filled.
      apply orb_false_iff in Hc as [-> ->]. done. }
  split; [apply Hall |].
  intros ->. pose proof (Forall2_length _ _ _ (Hall "xxyyxxx3xyxx7xx4yxx2xxxx6xxxxxxx"%string 0%nat)) as Hlen.
  unfold getUuid. simpl default.
  assert (forall s, length (list_ascii_of_string s) = String.length s) as Hls.
  { induction s as [| c s IH]; simpl; congruence. }
  rewrite <- Hls, <- Hlen. reflexivity.
Qed.

Lemma getUuid_shape_witness :
  String.length (getUuid None (fun _ => 0.5%float)) = 32%nat.
Proof.
  destruct (getUuid_shape None (fun _ => 0.5%float)) as [_ H].
  - intros _. split; reflexivity.
  - by apply H.
Defined.

End Uuid.
